(** * dCGP expression: chromosome layout, active set, evaluation, mutation

    A shallow embedding of [dcgp::expression<T>] (include/dcgp/expression.hpp)
    and of the kernels of include/dcgp/wrapped_functions.hpp that the
    statements below need.  [unsigned] values are numbers in [N] whose
    arithmetic wraps modulo [2^32]; [std::size_t] arithmetic wraps modulo
    [2^64].  A [std::vector] is a list; the object is a record that is
    passed through a small state-and-exception monad. *)

From Stdlib Require Import String.
From Stdlib Require Import NArith List Lia Bool Floats.
From Stdlib Require Import Sorting.Sorted.
Import ListNotations.
Local Open Scope N_scope.

(** ** Machine arithmetic *)

Definition two32 : N := 4294967296.
Definition two64 : N := 18446744073709551616.

(** [static_cast<unsigned>] of a wider value. *)
Definition to_unsigned (x : N) : N := x mod two32.

Definition uadd (a b : N) : N := (a + b) mod two32.
Definition usub (a b : N) : N := (two32 + a - b) mod two32.
Definition umul (a b : N) : N := (a * b) mod two32.

(** The same on [std::size_t]. *)
Definition zadd (a b : N) : N := (a + b) mod two64.
Definition zsub (a b : N) : N := (two64 + a - b) mod two64.

(** ** Vectors *)

Definition size {A : Type} (v : list A) : N := N.of_nat (length v).

(** [v[i]].  Reading past the end is undefined in the source; the model
    reads the default there. *)
Definition at_ {A : Type} (d : A) (v : list A) (i : N) : A :=
  nth (N.to_nat i) v d.

Fixpoint upd_nat {A : Type} (v : list A) (i : nat) (a : A) : list A :=
  match v, i with
  | [], _ => []
  | _ :: t, O => a :: t
  | h :: t, S i' => h :: upd_nat t i' a
  end.

(** [v[i] = a].  Writing past the end is undefined in the source; the model
    leaves the vector as it is there. *)
Definition upd {A : Type} (v : list A) (i : N) (a : A) : list A :=
  upd_nat v (N.to_nat i) a.

Notation "v .[ i ]" := (at_ 0 v i) (at level 1, left associativity, format "v .[ i ]").

(** [std::vector<unsigned>(k, a)]. *)
Definition filled {A : Type} (k : N) (a : A) : list A := repeat a (N.to_nat k).

(** ** Counted loops *)

(** [for (i = lo; i < hi; ++i) s = body i s]. *)
Fixpoint for_loop {S : Type} (count : nat) (i : N) (body : N -> S -> S) (s : S) : S :=
  match count with
  | O => s
  | Datatypes.S k => for_loop k (i + 1) body (body i s)
  end.

Definition for_range {S : Type} (lo hi : N) (body : N -> S -> S) (s : S) : S :=
  for_loop (N.to_nat (hi - lo)) lo body s.

Fixpoint iota (count : nat) (i : N) : list N :=
  match count with
  | O => []
  | Datatypes.S k => i :: iota k (i + 1)
  end.

(** The indices [lo, lo+1, ..., hi-1]. *)
Definition range (lo hi : N) : list N := iota (N.to_nat (hi - lo)) lo.

(** ** [std::sort] and [std::unique] on [unsigned] *)

Fixpoint insert (a : N) (l : list N) : list N :=
  match l with
  | [] => [a]
  | b :: t => if a <=? b then a :: l else b :: insert a t
  end.

(** [std::sort(v.begin(), v.end())]: the ascending arrangement of [v]. *)
Definition sort (l : list N) : list N := fold_right insert [] l.

(** [v.erase(std::unique(v.begin(), v.end()), v.end())]: one element is kept
    of every run of equal neighbours. *)
Fixpoint unique (l : list N) : list N :=
  match l with
  | [] => []
  | a :: t =>
      match t with
      | [] => [a]
      | b :: _ => if a =? b then unique t else a :: unique t
      end
  end.

(** ** The random engine *)

(** [std::default_random_engine] with [std::uniform_int_distribution<unsigned>]:
    an engine state, seeding, and a draw from the closed range [[a, b]] that
    returns the value and the advanced engine.  The only law is the one the
    C++ standard gives: the value lies in the range. *)
Class UniformEngine (G : Type) : Type := {
  seed_engine : N -> G;
  uniform_int : N -> N -> G -> N * G;
  uniform_int_range : forall a b g, a <= b ->
    a <= fst (uniform_int a b g) /\ fst (uniform_int a b g) <= b
}.

(** A small engine to run the code on: a counter that sweeps the range. *)
Definition counter_uniform (a b g : N) : N * N := (a + g mod (b - a + 1), g + 1).

#[export, refine] Instance counter_engine : UniformEngine N := {
  seed_engine := fun s => s;
  uniform_int := counter_uniform
}.
Proof.
  intros a b g Hab. unfold counter_uniform. simpl.
  assert (Hlt : g mod (b - a + 1) < b - a + 1) by (apply N.mod_lt; lia).
  revert Hlt. generalize (g mod (b - a + 1)). intros k Hlt. lia.
Defined.

(** ** Kernels (include/dcgp/wrapped_functions.hpp) *)

(** A [kernel<T>]: the numeric application and the symbolic one. *)
Record kernel (T : Type) : Type := {
  k_apply : list T -> T;
  k_print : list string -> string
}.
Arguments k_apply {T} _ _.
Arguments k_print {T} _ _.

Definition parens (s : string) : string := ("(" ++ s ++ ")")%string.

(** [my_sum]: [retval(in[0]); retval += in[i]]. *)
Definition my_sum (inp : list float) : float :=
  fold_left PrimFloat.add (tl inp) (hd 0%float inp).

Definition print_my_sum (inp : list string) : string :=
  parens (fold_left (fun acc s => (acc ++ "+" ++ s)%string) (tl inp) (hd EmptyString inp)).

(** [my_diff]: [retval(in[0]); retval -= in[i]]. *)
Definition my_diff (inp : list float) : float :=
  fold_left PrimFloat.sub (tl inp) (hd 0%float inp).

Definition print_my_diff (inp : list string) : string :=
  parens (fold_left (fun acc s => (acc ++ "-" ++ s)%string) (tl inp) (hd EmptyString inp)).

(** [my_mul]: [retval(in[0]); retval *= in[i]]. *)
Definition my_mul (inp : list float) : float :=
  fold_left PrimFloat.mul (tl inp) (hd 0%float inp).

Definition print_my_mul (inp : list string) : string :=
  parens (fold_left (fun acc s => (acc ++ "*" ++ s)%string) (tl inp) (hd EmptyString inp)).

(** [my_div]: [retval(in[0]); retval /= in[i]]. *)
Definition my_div (inp : list float) : float :=
  fold_left PrimFloat.div (tl inp) (hd 0%float inp).

Definition print_my_div (inp : list string) : string :=
  parens (fold_left (fun acc s => (acc ++ "/" ++ s)%string) (tl inp) (hd EmptyString inp)).

(** [my_pdiv], the [double] overload: [retval(in[0]); tmpval(in[1]);
    tmpval *= in[i]] from the third entry on, [retval /= tmpval], and [1.]
    when the quotient is not finite.  [std::isfinite] is [is_finite]. *)
Definition my_pdiv (inp : list float) : float :=
  let retval := hd 0%float inp in
  let tmpval := fold_left PrimFloat.mul (skipn 2 inp) (nth 1 inp 0%float) in
  let retval := (retval / tmpval)%float in
  if is_finite retval then retval else 1%float.

Definition print_my_pdiv (inp : list string) : string :=
  ("(" ++ hd EmptyString inp ++ "/" ++ nth 1 inp EmptyString ++ ")")%string.

(** [my_relu], the [double] overload: the sum, and [0.] when it is below
    zero. *)
Definition my_relu (inp : list float) : float :=
  let retval := fold_left PrimFloat.add (tl inp) (hd 0%float inp) in
  if (retval <? 0)%float then 0%float else retval.

Definition print_my_relu (inp : list string) : string :=
  ("ReLu("
   ++ fold_left (fun acc s => (acc ++ "+" ++ s)%string) (tl inp) (hd EmptyString inp)
   ++ ")")%string.

(** The values of a [double] that are a zero or not a number, and the ones
    that are an infinity or not a number, on the IEEE 754 reading of the
    value. *)
Definition zero_or_nan (s : spec_float) : bool :=
  match s with
  | S754_zero _ | S754_nan => true
  | _ => false
  end.

Definition inf_or_nan (s : spec_float) : bool :=
  match s with
  | S754_infinity _ | S754_nan => true
  | _ => false
  end.

Definition kernel_sum : kernel float := {| k_apply := my_sum; k_print := print_my_sum |}.
Definition kernel_diff : kernel float := {| k_apply := my_diff; k_print := print_my_diff |}.
Definition kernel_mul : kernel float := {| k_apply := my_mul; k_print := print_my_mul |}.
Definition kernel_div : kernel float := {| k_apply := my_div; k_print := print_my_div |}.
Definition kernel_pdiv : kernel float := {| k_apply := my_pdiv; k_print := print_my_pdiv |}.
Definition kernel_relu : kernel float := {| k_apply := my_relu; k_print := print_my_relu |}.

(** ** The expression object *)

Section Expression.

Context {T : Type} (T0 : T) {G : Type} {RNG : UniformEngine G}.

(** The data members of [expression<T>], under their names. *)
Record expression : Type := {
  m_n : N;
  m_m : N;
  m_r : N;
  m_c : N;
  m_l : N;
  m_arity : list N;
  m_f : list (kernel T);
  m_lb : list N;
  m_ub : list N;
  m_active_nodes : list N;
  m_active_genes : list N;
  m_x : list N;
  m_gene_idx : list N;
  m_e : G
}.

Definition with_x (e : expression) (x : list N) : expression :=
  {| m_n := m_n e; m_m := m_m e; m_r := m_r e; m_c := m_c e; m_l := m_l e;
     m_arity := m_arity e; m_f := m_f e; m_lb := m_lb e; m_ub := m_ub e;
     m_active_nodes := m_active_nodes e; m_active_genes := m_active_genes e;
     m_x := x; m_gene_idx := m_gene_idx e; m_e := m_e e |}.

Definition with_e (e : expression) (g : G) : expression :=
  {| m_n := m_n e; m_m := m_m e; m_r := m_r e; m_c := m_c e; m_l := m_l e;
     m_arity := m_arity e; m_f := m_f e; m_lb := m_lb e; m_ub := m_ub e;
     m_active_nodes := m_active_nodes e; m_active_genes := m_active_genes e;
     m_x := m_x e; m_gene_idx := m_gene_idx e; m_e := g |}.

Definition with_active (e : expression) (nodes genes : list N) : expression :=
  {| m_n := m_n e; m_m := m_m e; m_r := m_r e; m_c := m_c e; m_l := m_l e;
     m_arity := m_arity e; m_f := m_f e; m_lb := m_lb e; m_ub := m_ub e;
     m_active_nodes := nodes; m_active_genes := genes;
     m_x := m_x e; m_gene_idx := m_gene_idx e; m_e := m_e e |}.

Definition with_tables (e : expression) (x lb ub gene_idx : list N) : expression :=
  {| m_n := m_n e; m_m := m_m e; m_r := m_r e; m_c := m_c e; m_l := m_l e;
     m_arity := m_arity e; m_f := m_f e; m_lb := lb; m_ub := ub;
     m_active_nodes := m_active_nodes e; m_active_genes := m_active_genes e;
     m_x := x; m_gene_idx := gene_idx; m_e := m_e e |}.

(** *** State and exceptions *)

(** How a member function ends: it returns a value and leaves the object in
    a state; it throws [std::invalid_argument] and leaves the object in a
    state; it has undefined behaviour; or a loop of it has not ended within
    the budget given to it. *)
Inductive outcome (A : Type) : Type :=
| Ret (a : A) (e : expression)
| Throw (e : expression)
| Undef
| OutOfFuel.
Arguments Ret {A} _ _.
Arguments Throw {A} _.
Arguments Undef {A}.
Arguments OutOfFuel {A}.

Definition M (A : Type) : Type := expression -> outcome A.

Definition ret {A : Type} (a : A) : M A := fun e => Ret a e.

Definition bind {A B : Type} (c : M A) (k : A -> M B) : M B :=
  fun e =>
    match c e with
    | Ret a e' => k a e'
    | Throw e' => Throw e'
    | Undef => Undef
    | OutOfFuel => OutOfFuel
    end.

Definition throw {A : Type} : M A := fun e => Throw e.
Definition undefined {A : Type} : M A := fun _ => Undef.
Definition out_of_fuel {A : Type} : M A := fun _ => OutOfFuel.
Definition read {A : Type} (f : expression -> A) : M A := fun e => Ret (f e) e.
Definition modify (f : expression -> expression) : M unit := fun e => Ret tt (f e).

Notation "x <- c1 ;; c2" := (bind c1 (fun x => c2))
  (at level 61, c1 at next level, right associativity).
Notation "c1 ;; c2" := (bind c1 (fun _ => c2))
  (at level 61, right associativity).

(** [std::uniform_int_distribution<unsigned>(a, b)(m_e)]. *)
Definition draw (a b : N) : M N :=
  fun e => let (v, g) := uniform_int a b (m_e e) in Ret v (with_e e g).

(** A loop whose body threads a local variable of type [B]. *)
Fixpoint foldM {A B : Type} (body : B -> A -> M B) (l : list A) (b : B) : M B :=
  match l with
  | [] => ret b
  | a :: t => b' <- body b a ;; foldM body t b'
  end.

(** *** Queries *)

Definition get (e : expression) : list N := m_x e.
Definition get_lb (e : expression) : list N := m_lb e.
Definition get_ub (e : expression) : list N := m_ub e.
Definition get_active_genes (e : expression) : list N := m_active_genes e.
Definition get_active_nodes (e : expression) : list N := m_active_nodes e.
Definition get_gene_idx (e : expression) : list N := m_gene_idx e.

(** [_get_arity]: [col = (node_id - m_n) / m_r; return m_arity[col]].  The
    source asserts [m_n <= node_id < m_n + m_r * m_c]. *)
Definition _get_arity (e : expression) (node_id : N) : N :=
  let col := usub node_id (m_n e) / m_r e in
  (m_arity e).[col].

(** [get_arity(node_id)], the checked query: [None] is the
    [std::invalid_argument] of a node id outside the grid. *)
Definition get_arity (e : expression) (node_id : N) : option N :=
  if (uadd (umul (m_r e) (m_c e)) (m_n e) <=? node_id) || (node_id <? m_n e) then None
  else
    let col := usub node_id (m_n e) / m_r e in
    Some (m_arity e).[col].

(** [is_valid]: the length, then the bounds of every gene. *)
Definition is_valid (e : expression) (x : list N) : bool :=
  if negb (size x =? size (m_lb e)) then false
  else forallb (fun i => negb ((m_ub e).[i] <? x.[i]) && negb (x.[i] <? (m_lb e).[i]))
               (range 0 (size x)).

(** [is_active]: [std::find] over [m_active_nodes]. *)
Definition is_active (e : expression) (node_id : N) : bool :=
  existsb (N.eqb node_id) (m_active_nodes e).

(** *** [sanity_checks] and [init_bounds_and_chromosome] *)

Definition sanity_checks (e : expression) : bool :=
  negb (m_n e =? 0) && negb (m_m e =? 0) && negb (m_c e =? 0) && negb (m_r e =? 0)
  && negb (m_l e =? 0) && (size (m_arity e) =? m_c e)
  && negb (existsb (fun a => a =? 0) (m_arity e)) && negb (size (m_f e) =? 0).

(** [std::accumulate(m_arity.begin(), m_arity.end(), 0u)]. *)
Definition accumulate (v : list N) : N := fold_left uadd v 0.

(** The body of the loop over the connection genes of a node of column [i]:
    the state is [(m_lb, m_ub, k)]. *)
Definition set_connection_bounds (e : expression) (i : N) (st : list N * list N * N)
  : list N * list N * N :=
  let '(lb, ub, k) := st in
  let ub := upd ub k (usub (uadd (m_n e) (umul i (m_r e))) 1) in
  let lb := if m_l e <=? i
            then upd lb k (uadd (m_n e) (umul (m_r e) (usub i (m_l e))))
            else lb in
  (lb, ub, uadd k 1).

(** The body of the loop over the rows of column [i]: the function gene,
    then the connection genes. *)
Definition set_node_bounds (e : expression) (i : N) (st : list N * list N * N)
  : list N * list N * N :=
  let '(lb, ub, k) := st in
  let ub := upd ub k (to_unsigned (zsub (size (m_f e)) 1)) in
  let k := uadd k 1 in
  for_range 0 (m_arity e).[i] (fun _ => set_connection_bounds e i) (lb, ub, k).

(** The loop over all nodes, column first, then rows. *)
Definition init_node_genes (e : expression) (st : list N * list N * N) : list N * list N * N :=
  for_range 0 (m_c e) (fun i => for_range 0 (m_r e) (fun _ => set_node_bounds e i)) st.

(** The bounds of the output genes: the state is [(m_lb, m_ub)]. *)
Definition init_output_genes (e : expression) (sz : N) (st : list N * list N) : list N * list N :=
  for_range (usub sz (m_m e)) sz (fun i st =>
    let '(lb, ub) := st in
    let ub := upd ub i (usub (uadd (m_n e) (umul (m_r e) (m_c e))) 1) in
    let lb := if m_l e <=? m_c e
              then upd lb i (uadd (m_n e) (umul (m_r e) (usub (m_c e) (m_l e))))
              else lb in
    (lb, ub)) st.

(** The position in the chromosome of the genes of every node. *)
Definition init_gene_idx (e : expression) (gene_idx : list N) : list N :=
  for_range 0 (size gene_idx) (fun node_id gene_idx =>
    if node_id <? m_n e then upd gene_idx node_id 0
    else
      let col := usub node_id (m_n e) / m_r e in
      let row := usub node_id (m_n e) mod m_r e in
      let acc := for_range 0 col (fun j acc => uadd acc (m_arity e).[j]) 0 in
      let acc := umul acc (m_r e) in
      upd gene_idx node_id
          (uadd (uadd acc (umul row (m_arity e).[col])) (usub node_id (m_n e)))) gene_idx.

Definition chromosome_size (e : expression) : N :=
  uadd (uadd (umul (m_r e) (m_c e)) (umul (m_r e) (accumulate (m_arity e)))) (m_m e).

Definition init_bounds_and_chromosome (e : expression) : expression :=
  let sz := chromosome_size e in
  let x := filled sz 0 in
  let lb := filled sz 0 in
  let ub := filled sz 0 in
  let gene_idx := filled (uadd (umul (m_r e) (m_c e)) (m_n e)) 0 in
  let nodes := init_node_genes e (lb, ub, 0) in
  let outs := init_output_genes e sz (fst (fst nodes), snd (fst nodes)) in
  let gene_idx := init_gene_idx e gene_idx in
  with_tables e x (fst outs) (snd outs) gene_idx.

(** *** [update_data_structures] *)

(** One pass of the [for (auto node_id : current)] loop, after [current] was
    appended to [m_active_nodes]: the state is [(m_active_nodes, next)]. *)
Definition wave (e : expression) (current : list N) (st : list N * list N) : list N * list N :=
  let '(active, next) := st in
  fold_left (fun st node_id =>
    let '(active, next) := st in
    if m_n e <=? node_id then
      let node_arity := _get_arity e node_id in
      (active,
       for_range 1 (node_arity + 1) (fun i next =>
         next ++ [(m_x e).[uadd (m_gene_idx e).[node_id] i]]) next)
    else (active ++ [node_id], next)) current (active ++ current, next).

(** The [do ... while (current.size() > 0)] loop, run for at most [fuel]
    waves; [None] when it has not ended by then. *)
Fixpoint back_wave (e : expression) (fuel : nat) (current active : list N) : option (list N) :=
  match fuel with
  | O => None
  | Datatypes.S fuel' =>
      let '(active, next) := wave e current (active, []) in
      let next := unique (sort next) in
      if 0 <? size next then back_wave e fuel' next active else Some active
  end.

(** The nodes the output genes select: the first [current]. *)
Definition output_nodes (e : expression) : list N :=
  for_range 0 (m_m e) (fun i current =>
    upd current i (m_x e).[zadd (zsub (size (m_x e)) (m_m e)) i]) (filled (m_m e) 0).

(** The second half: [m_active_genes] from the sorted [m_active_nodes]. *)
Definition collect_active_genes (e : expression) (active_nodes : list N) : list N :=
  let genes :=
    fold_left (fun genes node_id =>
      if m_n e <=? node_id then
        for_range 0 (_get_arity e node_id + 1) (fun j genes =>
          genes ++ [uadd (m_gene_idx e).[node_id] j]) genes
      else genes) active_nodes [] in
  for_range 0 (m_m e) (fun i genes =>
    genes ++ [uadd (usub (to_unsigned (size (m_x e))) (m_m e)) i]) genes.

(** The number of waves the loop is given: one more than there are columns.
    On a chromosome within its bounds the loop of the source ends within that
    many waves ([wf_back_wave]), and more waves change nothing
    ([back_wave_more_fuel]). *)
Definition wave_budget (e : expression) : nat := Datatypes.S (N.to_nat (m_c e)).

Definition update_data_structures : M unit :=
  fun e =>
    match back_wave e (wave_budget e) (output_nodes e) [] with
    | None => OutOfFuel
    | Some active =>
        let active_nodes := unique (sort active) in
        Ret tt (with_active e active_nodes (collect_active_genes e active_nodes))
    end.

(** *** Construction *)

(** The random chromosome of the constructors:
    [m_x[i] = uniform_int_distribution(m_lb[i], m_ub[i])(m_e)]. *)
Definition random_chromosome : M unit :=
  sz <- read (fun e => size (m_x e)) ;;
  foldM (fun _ i =>
    lo <- read (fun e => (m_lb e).[i]) ;;
    hi <- read (fun e => (m_ub e).[i]) ;;
    v <- draw lo hi ;;
    modify (fun e => with_x e (upd (m_x e) i v))) (range 0 sz) tt.

(** The member initialisers of the constructors: the parameters, the
    seeded engine, and empty vectors. *)
Definition blank (n m r c l : N) (arity : list N) (f : list (kernel T)) (seed : N)
  : expression :=
  {| m_n := n; m_m := m; m_r := r; m_c := c; m_l := l; m_arity := arity; m_f := f;
     m_lb := []; m_ub := []; m_active_nodes := []; m_active_genes := [];
     m_x := []; m_gene_idx := []; m_e := seed_engine seed |}.

(** The constructor with an arity per column.  When it throws no object
    exists; the state carried by [Throw] is then of no use. *)
Definition construct (n m r c l : N) (arity : list N) (f : list (kernel T)) (seed : N)
  : outcome unit :=
  (ok <- read sanity_checks ;;
   (if ok then ret tt else throw) ;;
   modify init_bounds_and_chromosome ;;
   random_chromosome ;;
   update_data_structures)
  (blank n m r c l arity f seed).

(** The constructor with one arity: [m_arity = std::vector<unsigned>(m_c, arity)],
    then as above. *)
Definition construct_uniform (n m r c l arity : N) (f : list (kernel T)) (seed : N)
  : outcome unit :=
  construct n m r c l (filled c arity) f seed.

(** *** Setting the chromosome *)

Definition set (x : list N) : M unit :=
  valid <- read (fun e => is_valid e x) ;;
  if negb valid then throw
  else modify (fun e => with_x e x) ;; update_data_structures.

Definition set_f_gene (node_id f_id : N) : M unit :=
  nf <- read (fun e => size (m_f e)) ;;
  if zsub nf 1 <? f_id then throw
  else
    bad <- read (fun e => (node_id <? m_n e)
                          || (usub (uadd (m_n e) (umul (m_c e) (m_r e))) 1 <? node_id)) ;;
    if bad : bool then throw
    else modify (fun e => with_x e (upd (m_x e) (m_gene_idx e).[node_id] f_id)).

(** [seed]: [m_e.seed(seed)]. *)
Definition seed (s : N) : M unit := modify (fun e => with_e e (seed_engine s)).

(** *** Evaluation *)

(** [m_f[k](function_in)]; a kernel id past the end of [m_f] is undefined in
    the source and gives the default here. *)
Definition call_kernel {V : Type} (d : V) (app : kernel T -> list V -> V)
  (f : list (kernel T)) (k : N) (function_in : list V) : V :=
  match nth_error f (N.to_nat k) with
  | Some ker => app ker function_in
  | None => d
  end.

(** The body shared by the two [operator()]: [V] is [T] or [std::string],
    [d] a value-initialised [V] and [app] the application of a kernel to
    [V]s.  [None] is the [std::invalid_argument] of a point of the wrong size.
    [function_in] is resized to the arity and every slot of it is assigned,
    so it is the list of the [arity] values read. *)
Definition evaluate {V : Type} (d : V) (app : kernel T -> list V -> V)
  (e : expression) (point : list V) : option (list V) :=
  if negb (size point =? m_n e) then None
  else
    let node :=
      fold_left (fun node node_id =>
        if node_id <? m_n e then upd node node_id (at_ d point node_id)
        else
          let arity := _get_arity e node_id in
          let idx := (m_gene_idx e).[node_id] in
          let function_in :=
            map (fun j => at_ d node (m_x e).[uadd (uadd idx j) 1]) (range 0 arity) in
          upd node node_id (call_kernel d app (m_f e) (m_x e).[idx] function_in))
        (m_active_nodes e) (filled (uadd (m_n e) (umul (m_r e) (m_c e))) d) in
    Some (for_range 0 (m_m e) (fun i retval =>
            upd retval i (at_ d node (m_x e).[zadd (zsub (size (m_x e)) (m_m e)) i]))
          (filled (m_m e) d)).

(** [operator()(const std::vector<T>&)]. *)
Definition call (e : expression) (point : list T) : option (list T) :=
  evaluate T0 k_apply e point.

(** [operator()(const std::vector<std::string>&)]. *)
Definition call_symbolic (e : expression) (point : list string) : option (list string) :=
  evaluate EmptyString k_print e point.

(** *** Mutation *)

(** [do { new_value = uniform(lo, hi)(m_e); } while (new_value == m_x[idx]);]
    for at most [fuel] draws. *)
Fixpoint draw_new_value (fuel : nat) (lo hi cur : N) : M N :=
  match fuel with
  | O => out_of_fuel
  | Datatypes.S fuel' =>
      new_value <- draw lo hi ;;
      if new_value =? cur then draw_new_value fuel' lo hi cur else ret new_value
  end.

(** The block the three mutators share,
    [if (m_lb[idx] < m_ub[idx]) { do ... while; m_x[idx] = new_value; }]: it
    returns whether the gene was written. *)
Definition redraw_gene (fuel : nat) (idx : N) : M bool :=
  lo <- read (fun e => (m_lb e).[idx]) ;;
  hi <- read (fun e => (m_ub e).[idx]) ;;
  if lo <? hi then
    cur <- read (fun e => (m_x e).[idx]) ;;
    new_value <- draw_new_value fuel lo hi cur ;;
    modify (fun e => with_x e (upd (m_x e) idx new_value)) ;;
    ret true
  else ret false.

(** [mutate(unsigned idx)]. *)
Definition mutate (fuel : nat) (idx : N) : M unit :=
  sz <- read (fun e => size (m_x e)) ;;
  if sz <=? idx then throw
  else
    changed <- redraw_gene fuel idx ;;
    if changed : bool then update_data_structures else ret tt.

(** [mutate(std::vector<unsigned> idxs)]. *)
Definition mutate_idxs (fuel : nat) (idxs : list N) : M unit :=
  flag <- foldM (fun flag idx =>
            sz <- read (fun e => size (m_x e)) ;;
            if sz <=? idx then throw
            else
              changed <- redraw_gene fuel idx ;;
              ret (if changed : bool then true else flag)) idxs false ;;
  if flag : bool then update_data_structures else ret tt.

(** [mutate_random(unsigned N)]. *)
Definition mutate_random (fuel : nat) (n : N) : M unit :=
  flag <- foldM (fun flag _ =>
            hi <- read (fun e => to_unsigned (zsub (size (m_lb e)) 1)) ;;
            idx <- draw 0 hi ;;
            changed <- redraw_gene fuel idx ;;
            ret (if changed : bool then true else flag)) (range 0 n) false ;;
  if flag : bool then update_data_structures else ret tt.

(** [mutate_active(unsigned N)]. *)
Definition mutate_active (fuel : nat) (n : N) : M unit :=
  foldM (fun _ _ =>
    hi <- read (fun e => to_unsigned (zsub (size (m_active_genes e)) 1)) ;;
    idx <- draw 0 hi ;;
    idx <- read (fun e => (m_active_genes e).[idx]) ;;
    mutate fuel idx) (range 0 n) tt.

(** [while (node_id < m_n) node_id = m_active_nodes[uniform(0, size - 1)(m_e)];]
    for at most [fuel] draws. *)
Fixpoint pick_function_node (fuel : nat) (node_id : N) : M N :=
  n <- read m_n ;;
  if node_id <? n then
    match fuel with
    | O => out_of_fuel
    | Datatypes.S fuel' =>
        hi <- read (fun e => to_unsigned (zsub (size (m_active_nodes e)) 1)) ;;
        k <- draw 0 hi ;;
        node_id <- read (fun e => (m_active_nodes e).[k]) ;;
        pick_function_node fuel' node_id
    end
  else ret node_id.

(** [mutate_active_fgene(unsigned N)]. *)
Definition mutate_active_fgene (fuel : nat) (n : N) : M unit :=
  some <- read (fun e => m_m e <? size (m_active_genes e)) ;;
  if some : bool then
    foldM (fun _ _ =>
      node_id <- pick_function_node fuel 0 ;;
      idx <- read (fun e => (m_gene_idx e).[node_id]) ;;
      mutate fuel idx) (range 0 n) tt
  else ret tt.

(** [mutate_active_cgene(unsigned N)]. *)
Definition mutate_active_cgene (fuel : nat) (n : N) : M unit :=
  some <- read (fun e => m_m e <? size (m_active_genes e)) ;;
  if some : bool then
    foldM (fun _ _ =>
      idx <- pick_function_node fuel 0 ;;
      hi <- read (fun e => _get_arity e idx) ;;
      k <- draw 1 hi ;;
      idx <- read (fun e => uadd (m_gene_idx e).[idx] k) ;;
      mutate fuel idx) (range 0 n) tt
  else ret tt.

(** [mutate_ogene(unsigned N)].  [idx] is declared without a value: [None]
    until a draw assigns it, and reading it then is undefined. *)
Definition mutate_ogene (fuel : nat) (n : N) : M unit :=
  m <- read m_m ;;
  idx <- (if 1 <? m then
            foldM (fun _ _ =>
              lo <- read (fun e => to_unsigned (zsub (size (m_active_genes e)) (m_m e))) ;;
              hi <- read (fun e => to_unsigned (zsub (size (m_active_genes e)) 1)) ;;
              v <- draw lo hi ;;
              ret (Some v)) (range 0 n) None
          else
            v <- read (fun e => to_unsigned (zsub (size (m_active_genes e)) 1)) ;;
            ret (Some v)) ;;
  match idx with
  | None => undefined
  | Some idx =>
      idx <- read (fun e => (m_active_genes e).[idx]) ;;
      mutate fuel idx
  end.

(** ** The back-wave of [update_data_structures] *)

(** The node ids the connection genes of [node_id] hold. *)
Definition connections (e : expression) (node_id : N) : list N :=
  map (fun i => (m_x e).[uadd (m_gene_idx e).[node_id] i])
      (range 1 (_get_arity e node_id + 1)).

Definition inputs_of (e : expression) (current : list N) : list N :=
  filter (fun id => negb (m_n e <=? id)) current.

Definition functions_of (e : expression) (current : list N) : list N :=
  filter (fun id => m_n e <=? id) current.

(** The [current] of the following wave. *)
Definition next_wave (e : expression) (current : list N) : list N :=
  unique (sort (flat_map (connections e) (functions_of e current))).

(** Zero for an input node, one more than its column for a function node. *)
Definition rank (e : expression) (id : N) : N :=
  if id <? m_n e then 0 else (id - m_n e) / m_r e + 1.

(** Zero when the wave holds input nodes only, else one more than the
    largest column index in the wave. *)
Definition wave_rank (e : expression) (current : list N) : N :=
  fold_right (fun id acc => N.max (rank e id) acc) 0 current.

(** What a wave started from [current] and the waves after it visit. *)
Inductive reach_from (e : expression) (current : list N) : N -> Prop :=
| reach_here : forall id, In id current -> reach_from e current id
| reach_step : forall p id,
    reach_from e current p -> m_n e <= p -> In id (connections e p) ->
    reach_from e current id.

(** Every connection gene of a node of the grid holds an input node or a
    node of an earlier column. *)
Definition connections_backward (e : expression) : Prop :=
  forall p id, m_n e <= p -> rank e p <= m_c e -> In id (connections e p) ->
    rank e id < rank e p.

(** ** The layout of the chromosome *)

(** The sum of the first [k] entries of a vector of arities. *)
Fixpoint sum_upto (v : list N) (k : nat) : N :=
  match k with
  | O => 0
  | Datatypes.S k' => sum_upto v k' + v.[N.of_nat k']
  end.

(** The sum of the arities of the first [k] columns. *)
Definition arity_sum (e : expression) (k : nat) : N := sum_upto (m_arity e) k.

(** The chromosome size as a number, [r c + r (sum of arity) + m]. *)
Definition genome_size (e : expression) : N :=
  m_r e * m_c e + m_r e * arity_sum e (N.to_nat (m_c e)) + m_m e.

(** No computation of the layout leaves the range of [unsigned]. *)
Definition fits (e : expression) : bool :=
  (m_n e + m_r e * m_c e <? two32) && (genome_size e <? two32) && (size (m_f e) <=? two32).

(** The position of the first gene of column [i]. *)
Definition offset (e : expression) (i : N) : N :=
  m_r e * (arity_sum e (N.to_nat i) + i).

(** The position of the function gene of a function node, in closed form. *)
Definition gene_pos (e : expression) (node_id : N) : N :=
  let col := (node_id - m_n e) / m_r e in
  let row := (node_id - m_n e) mod m_r e in
  offset e col + row * ((m_arity e).[col] + 1).

Definition conn_ub (e : expression) (i : N) : N := m_n e + i * m_r e - 1.
Definition conn_lb (e : expression) (i : N) : N :=
  if m_l e <=? i then m_n e + m_r e * (i - m_l e) else 0.
Definition out_ub (e : expression) : N := m_n e + m_r e * m_c e - 1.
Definition out_lb (e : expression) : N :=
  if m_l e <=? m_c e then m_n e + m_r e * (m_c e - m_l e) else 0.

(** The bounds of the genes of one node of column [i]. *)
Definition node_lb (e : expression) (i : N) : list N :=
  0 :: filled (m_arity e).[i] (conn_lb e i).
Definition node_ub (e : expression) (i : N) : list N :=
  (size (m_f e) - 1) :: filled (m_arity e).[i] (conn_ub e i).

(** [j] copies of the genes of a node, one per row. *)
Fixpoint rows (node : list N) (j : nat) : list N :=
  match j with
  | O => []
  | Datatypes.S j' => rows node j' ++ node
  end.

(** The genes of the first [k] columns. *)
Fixpoint columns (e : expression) (node : N -> list N) (k : nat) : list N :=
  match k with
  | O => []
  | Datatypes.S k' => columns e node k' ++ rows (node (N.of_nat k')) (N.to_nat (m_r e))
  end.

Definition lb_table (e : expression) : list N :=
  columns e (node_lb e) (N.to_nat (m_c e)) ++ filled (m_m e) (out_lb e).
Definition ub_table (e : expression) : list N :=
  columns e (node_ub e) (N.to_nat (m_c e)) ++ filled (m_m e) (out_ub e).

(** The shape of an object the constructor has accepted, with its tables.
    The chromosome, the active sets and the engine are left open. *)
Definition shape_ok (e : expression) : Prop :=
  sanity_checks e = true /\ fits e = true /\
  m_lb e = m_lb (init_bounds_and_chromosome e) /\
  m_ub e = m_ub (init_bounds_and_chromosome e) /\
  m_gene_idx e = m_gene_idx (init_bounds_and_chromosome e).

(** *** A vector that is being filled *)

(** A vector of [sz] zeros whose first entries have been written. *)
Definition padded (sz : N) (p : list N) : list N := p ++ filled (sz - size p) 0.

(** An object with the tables of its shape and a chromosome within them. *)
Definition wf (e : expression) : Prop := shape_ok e /\ is_valid e (m_x e) = true.

(** ** Invariants of the object *)

(** The active sets are the ones [update_data_structures] computes from the
    chromosome. *)
Definition consistent (e : expression) : Prop := update_data_structures e = Ret tt e.

Definition invariant (e : expression) : Prop := wf e /\ consistent e.

(** What an outcome has to satisfy: [Q] on return, [R] after a throw, [U]
    when the behaviour is undefined. *)
Definition post {A : Type} (o : outcome A)
  (Q : A -> expression -> Prop) (R : expression -> Prop) (U : Prop) : Prop :=
  match o with
  | Ret a e => Q a e
  | Throw e => R e
  | Undef => U
  | OutOfFuel => True
  end.

(** The members that never change after construction. *)
Definition same_shape (e e' : expression) : Prop :=
  m_n e = m_n e' /\ m_m e = m_m e' /\ m_r e = m_r e' /\ m_c e = m_c e' /\
  m_l e = m_l e' /\ m_arity e = m_arity e' /\ m_f e = m_f e' /\
  m_lb e = m_lb e' /\ m_ub e = m_ub e' /\ m_gene_idx e = m_gene_idx e'.

(** What the shared block does to a gene. *)
Definition gene_redrawn (e : expression) (idx : N) (changed : bool) (e' : expression) : Prop :=
  if changed then
    exists v g,
      e' = with_x (with_e e g) (upd (m_x e) idx v) /\ v <> (m_x e).[idx] /\
      (m_lb e).[idx] <= v /\ v <= (m_ub e).[idx] /\ (m_lb e).[idx] < (m_ub e).[idx]
  else e' = e /\ (m_ub e).[idx] <= (m_lb e).[idx].

(** What [mutate(idx)] does when it returns. *)
Definition gene_mutated (e : expression) (idx : N) (e' : expression) : Prop :=
  idx < size (m_x e) /\ same_shape e e' /\
  (((m_lb e).[idx] < (m_ub e).[idx] /\
    exists v, m_x e' = upd (m_x e) idx v /\ v <> (m_x e).[idx] /\
              (m_lb e).[idx] <= v /\ v <= (m_ub e).[idx])
   \/ ((m_ub e).[idx] <= (m_lb e).[idx] /\ e' = e)).

(** ** The states an object goes through *)

(** A call of a public member that changes the object. *)
Inductive member_call : Type :=
| call_set (x : list N)
| call_set_f_gene (node_id f_id : N)
| call_seed (s : N)
| call_mutate (fuel : nat) (idx : N)
| call_mutate_idxs (fuel : nat) (idxs : list N)
| call_mutate_random (fuel : nat) (n : N)
| call_mutate_active (fuel : nat) (n : N)
| call_mutate_active_fgene (fuel : nat) (n : N)
| call_mutate_active_cgene (fuel : nat) (n : N)
| call_mutate_ogene (fuel : nat) (n : N).

Definition run (c : member_call) : M unit :=
  match c with
  | call_set x => set x
  | call_set_f_gene node_id f_id => set_f_gene node_id f_id
  | call_seed s => seed s
  | call_mutate fuel idx => mutate fuel idx
  | call_mutate_idxs fuel idxs => mutate_idxs fuel idxs
  | call_mutate_random fuel n => mutate_random fuel n
  | call_mutate_active fuel n => mutate_active fuel n
  | call_mutate_active_fgene fuel n => mutate_active_fgene fuel n
  | call_mutate_active_cgene fuel n => mutate_active_cgene fuel n
  | call_mutate_ogene fuel n => mutate_ogene fuel n
  end.

Definition is_mutate_idxs (c : member_call) : bool :=
  match c with
  | call_mutate_idxs _ _ => true
  | _ => false
  end.

(** The states of an object: the one a constructor leaves on a shape that
    fits [unsigned] arithmetic, the one a call leaves when it returns, and
    the one a call leaves when it throws, [mutate_idxs] apart (the state a
    throwing [mutate_idxs] leaves is the subject of
    [mutate_idxs_throws_after_write]). *)
Inductive reachable : expression -> Prop :=
| reachable_construct : forall n m r c l arity f s e,
    fits (blank n m r c l arity f s) = true ->
    construct n m r c l arity f s = Ret tt e -> reachable e
| reachable_construct_uniform : forall n m r c l arity f s e,
    fits (blank n m r c l (filled c arity) f s) = true ->
    construct_uniform n m r c l arity f s = Ret tt e -> reachable e
| reachable_return : forall c e e',
    reachable e -> run c e = Ret tt e' -> reachable e'
| reachable_throw : forall c e e',
    reachable e -> is_mutate_idxs c = false -> run c e = Throw e' -> reachable e'.

(** ** The active sets of a state *)

(** The chromosome positions of the genes of a node: none for an input. *)
Definition genes_of (e : expression) (node_id : N) : list N :=
  if m_n e <=? node_id
  then map (fun j => uadd (m_gene_idx e).[node_id] j) (range 0 (_get_arity e node_id + 1))
  else [].

(** The chromosome positions of the output genes. *)
Definition output_genes (e : expression) : list N :=
  map (fun i => uadd (usub (to_unsigned (size (m_x e))) (m_m e)) i) (range 0 (m_m e)).

(** The node ids that feed an output: the ones the output genes select, and
    the ones a connection gene of such a function node holds. *)
Inductive feeds_output (e : expression) : N -> Prop :=
| feeds_selected : forall i,
    i < m_m e -> feeds_output e (m_x e).[size (m_x e) - m_m e + i]
| feeds_connected : forall p t,
    feeds_output e p -> m_n e <= p ->
    1 <= t -> t <= (m_arity e).[(p - m_n e) / m_r e] ->
    feeds_output e (m_x e).[(m_gene_idx e).[p] + t].

(** ** The draws of the mutators on the engine alone *)

(** The [do ... while] loop of the mutators on the engine alone: the first
    of at most [fuel] draws that differs from [cur], with the engine after
    it. *)
Fixpoint fresh_draw (fuel : nat) (lo hi cur : N) (g : G) : option (N * G) :=
  match fuel with
  | O => None
  | Datatypes.S fuel' =>
      let (v, g') := uniform_int lo hi g in
      if v =? cur then fresh_draw fuel' lo hi cur g' else Some (v, g')
  end.

(** ** [mutate_ogene] *)

(** The loop of [mutate_ogene] on the engine alone: [idx] and the engine
    after [count] draws. *)
Fixpoint ogene_draws (count : nat) (lo hi : N) (idx : option N) (g : G) : option N * G :=
  match count with
  | O => (idx, g)
  | Datatypes.S count' =>
      let (v, g') := uniform_int lo hi g in ogene_draws count' lo hi (Some v) g'
  end.

(** ** [mutate_random] *)

(** The loop of [mutate_random] on the chromosome and the engine alone:
    [count] turns, each a draw of a position and, when the bounds of the gene
    differ, the [do ... while] loop and the write.  [None] when a
    [do ... while] loop has not ended within [fuel] draws. *)
Fixpoint random_draws (fuel count : nat) (lb ub x : list N) (g : G) (flag : bool)
  : option (list N * G * bool) :=
  match count with
  | O => Some (x, g, flag)
  | Datatypes.S count' =>
      let (idx, g0) := uniform_int 0 (to_unsigned (zsub (size lb) 1)) g in
      if lb.[idx] <? ub.[idx] then
        match fresh_draw fuel lb.[idx] ub.[idx] x.[idx] g0 with
        | Some (v, g1) => random_draws fuel count' lb ub (upd x idx v) g1 true
        | None => None
        end
      else random_draws fuel count' lb ub x g0 flag
  end.

(** ** The distance of two chromosomes *)

(** The number of positions of [x] at which [y] holds another value. *)
Definition differences (x y : list N) : N :=
  size (filter (fun k => negb (x.[k] =? y.[k])) (range 0 (size x))).

(** ** The parameters the constructors refuse *)

(** What [sanity_checks] tests, as a condition on the parameters. *)
Definition rejected (n m r c l : N) (arity : list N) (f : list (kernel T)) : Prop :=
  n = 0 \/ m = 0 \/ c = 0 \/ r = 0 \/ l = 0 \/ size arity <> c \/ In 0 arity \/ f = [].

(** ** The value of a node of the graph *)

(** The value the graph gives a node at a point: the coordinate of the
    point for an input node; for a function node the kernel its function gene
    names, applied to the values of the nodes its connection genes hold.
    [depth] is the number of columns the definition may go back. *)
Fixpoint node_value {V : Type} (d : V) (app : kernel T -> list V -> V)
  (e : expression) (point : list V) (depth : nat) (id : N) : V :=
  if id <? m_n e then at_ d point id
  else
    match depth with
    | O => d
    | Datatypes.S depth' =>
        call_kernel d app (m_f e) (m_x e).[(m_gene_idx e).[id]]
          (map (node_value d app e point depth') (connections e id))
    end.

End Expression.

Arguments Ret {T G A} _ _.
Arguments Throw {T G A} _.
Arguments Undef {T G A}.
Arguments OutOfFuel {T G A}.

(** ** Runs on the counter engine *)

Definition state_of (o : outcome (T:=float) (G:=N) unit) : expression (T:=float) (G:=N) :=
  match o with
  | Ret _ e => e
  | Throw e => e
  | _ => blank 0 0 0 0 0 [] [] 0
  end.

(** The expression of the mutation scenario: [n=2, m=4, r=2, c=3, L=4],
    arity 2, the kernels [sum, diff, mul, div], seed 123. *)
Definition grid : expression (T:=float) (G:=N) :=
  state_of (construct_uniform 2 4 2 3 4 2
              [kernel_sum; kernel_diff; kernel_mul; kernel_div] 123).

(** The [1 x 1] expression with [L=2] and the kernels [sum, diff]. *)
Definition single : expression (T:=float) (G:=N) :=
  state_of (construct 2 1 1 1 2 [2] [kernel_sum; kernel_diff] 123).

(** [single] after [set({0, 0, 1, 0})]: the output is the first input. *)
Definition single_input : expression (T:=float) (G:=N) :=
  state_of (set [0; 0; 1; 0] single).

(** [single] after [set({1, 1, 0, 0})]: the same output, other inactive genes. *)
Definition single_other : expression (T:=float) (G:=N) :=
  state_of (set [1; 1; 0; 0] single).

(** [single_input] after [mutate({3, 4})] has thrown: gene 3 is written, the
    active sets are not refreshed. *)
Definition stale : expression (T:=float) (G:=N) :=
  state_of (mutate_idxs 5 [3; 4] single_input).

(** [stale] after [set(get())]. *)
Definition refreshed : expression (T:=float) (G:=N) :=
  state_of (set (get stale) stale).

(** * Properties *)

Section Properties.

Context {T : Type} (T0 : T) {G : Type} {RNG : UniformEngine G}.

Local Notation expression := (@expression T G).
Local Notation outcome := (@outcome T G).
Local Notation M := (@M T G).
Local Notation "x <- c1 ;; c2" := (bind c1 (fun x => c2))
  (at level 61, c1 at next level, right associativity).
Local Notation "c1 ;; c2" := (bind c1 (fun _ => c2))
  (at level 61, right associativity).

(** ** Machine arithmetic without overflow *)

Lemma two32_pos : 0 < two32.
Proof. reflexivity. Qed.

Lemma uadd_small (a b : N) : a + b < two32 -> uadd a b = a + b.
Proof. intros H. unfold uadd. now apply N.mod_small. Qed.

Lemma umul_small (a b : N) : a * b < two32 -> umul a b = a * b.
Proof. intros H. unfold umul. now apply N.mod_small. Qed.

Lemma to_unsigned_small (a : N) : a < two32 -> to_unsigned a = a.
Proof. intros H. unfold to_unsigned. now apply N.mod_small. Qed.

Lemma usub_small (a b : N) : b <= a -> a < two32 -> usub a b = a - b.
Proof.
  intros Hba Ha. unfold usub.
  replace (two32 + a - b) with (a - b + 1 * two32) by lia.
  rewrite N.Div0.mod_add. apply N.mod_small. lia.
Qed.

Lemma zadd_small (a b : N) : a + b < two64 -> zadd a b = a + b.
Proof. intros H. unfold zadd. now apply N.mod_small. Qed.

Lemma zsub_small (a b : N) : b <= a -> a < two64 -> zsub a b = a - b.
Proof.
  intros Hba Ha. unfold zsub.
  replace (two64 + a - b) with (a - b + 1 * two64) by lia.
  rewrite N.Div0.mod_add. apply N.mod_small. lia.
Qed.

Lemma two32_lt_two64 : two32 < two64.
Proof. reflexivity. Qed.

(** ** Vectors and loops *)

Lemma length_upd_nat {A : Type} (v : list A) (i : nat) (a : A) :
  length (upd_nat v i a) = length v.
Proof.
  revert i. induction v as [|h t IH]; intros [|i]; simpl; auto.
Qed.

Lemma size_upd {A : Type} (v : list A) (i : N) (a : A) : size (upd v i a) = size v.
Proof. unfold size, upd. now rewrite length_upd_nat. Qed.

Lemma nth_upd_nat_same {A : Type} (d : A) (v : list A) (i : nat) (a : A) :
  (i < length v)%nat -> nth i (upd_nat v i a) d = a.
Proof.
  revert i. induction v as [|h t IH]; intros [|i] Hi; simpl in *; try lia; auto.
  apply IH. lia.
Qed.

Lemma nth_upd_nat_other {A : Type} (d : A) (v : list A) (i j : nat) (a : A) :
  i <> j -> nth i (upd_nat v j a) d = nth i v d.
Proof.
  revert i j. induction v as [|h t IH]; intros [|i] [|j] Hij; simpl; auto; try lia.
Qed.

Lemma at_upd_same {A : Type} (d : A) (v : list A) (i : N) (a : A) :
  i < size v -> at_ d (upd v i a) i = a.
Proof.
  unfold at_, upd, size. intros Hi. apply nth_upd_nat_same. lia.
Qed.

Lemma at_upd_other {A : Type} (d : A) (v : list A) (i j : N) (a : A) :
  i <> j -> at_ d (upd v j a) i = at_ d v i.
Proof.
  unfold at_, upd. intros Hij. apply nth_upd_nat_other. lia.
Qed.

Lemma upd_nat_past {A : Type} (v : list A) (i : nat) (a : A) :
  (length v <= i)%nat -> upd_nat v i a = v.
Proof.
  revert i. induction v as [|h t IH]; intros [|i] Hi; simpl in *; auto; try lia.
  f_equal. apply IH. lia.
Qed.

Lemma upd_nat_app {A : Type} (p : list A) (x : A) (q : list A) (a : A) :
  upd_nat (p ++ x :: q) (length p) a = p ++ a :: q.
Proof. induction p as [|h t IH]; simpl; auto. now rewrite IH. Qed.

Lemma upd_at_same (v : list N) (i : N) : upd v i v.[i] = v.
Proof.
  unfold upd, at_. generalize (N.to_nat i). clear i.
  induction v as [|h t IH]; intros [|i]; simpl; auto. now rewrite IH.
Qed.

Lemma size_filled {A : Type} (k : N) (a : A) : size (filled k a) = k.
Proof. unfold size, filled. rewrite repeat_length. lia. Qed.

Lemma at_filled {A : Type} (d : A) (k i : N) : at_ d (filled k d) i = d.
Proof.
  unfold at_, filled. generalize (N.to_nat i) as j. generalize (N.to_nat k) as c.
  induction c as [|c IH]; intros [|j]; simpl; auto.
Qed.

Lemma size_app {A : Type} (u v : list A) : size (u ++ v) = size u + size v.
Proof. unfold size. rewrite length_app. lia. Qed.

Lemma size_cons {A : Type} (a : A) (v : list A) : size (a :: v) = 1 + size v.
Proof. unfold size. cbn [length]. lia. Qed.

Lemma at_In (v : list N) (i : N) : i < size v -> In v.[i] v.
Proof. unfold at_, size. intros H. apply nth_In. lia. Qed.

Lemma In_at (v : list N) (a : N) : In a v -> exists i, i < size v /\ v.[i] = a.
Proof.
  intros H. destruct (In_nth v a 0 H) as [k [Hk Hn]].
  exists (N.of_nat k). unfold at_, size. rewrite Nat2N.id. split; [lia|exact Hn].
Qed.

Lemma for_loop_snoc {S : Type} (k : nat) (i : N) (body : N -> S -> S) (s : S) :
  for_loop (Datatypes.S k) i body s = body (i + N.of_nat k) (for_loop k i body s).
Proof.
  revert i s. induction k as [|k IH]; intros i s.
  - simpl. now rewrite N.add_0_r.
  - change (for_loop (Datatypes.S (Datatypes.S k)) i body s)
      with (for_loop (Datatypes.S k) (i + 1) body (body i s)).
    rewrite IH. simpl for_loop. f_equal. lia.
Qed.

(** Invariant rule of the counted loop. *)
Lemma for_range_ind {S : Type} (P : N -> S -> Prop) (lo hi : N) (body : N -> S -> S) (s : S) :
  lo <= hi ->
  P lo s ->
  (forall i s', lo <= i -> i < hi -> P i s' -> P (i + 1) (body i s')) ->
  P hi (for_range lo hi body s).
Proof.
  intros Hle H0 Hstep. unfold for_range.
  assert (Hgen : forall k, (k <= N.to_nat (hi - lo))%nat ->
            P (lo + N.of_nat k) (for_loop k lo body s)).
  { induction k as [|k IH]; intros Hk.
    - simpl. now rewrite N.add_0_r.
    - rewrite for_loop_snoc.
      replace (lo + N.of_nat (Datatypes.S k)) with (lo + N.of_nat k + 1) by lia.
      apply Hstep; [lia | lia | apply IH; lia]. }
  specialize (Hgen (N.to_nat (hi - lo)) (le_n _)).
  replace (lo + N.of_nat (N.to_nat (hi - lo))) with hi in Hgen by lia.
  exact Hgen.
Qed.

Lemma for_range_empty {S : Type} (lo hi : N) (body : N -> S -> S) (s : S) :
  hi <= lo -> for_range lo hi body s = s.
Proof.
  intros H. unfold for_range. replace (hi - lo) with 0 by lia. reflexivity.
Qed.

Lemma for_loop_append {A : Type} (g : N -> A) (k : nat) (i : N) (acc : list A) :
  for_loop k i (fun j acc => acc ++ [g j]) acc = acc ++ map g (iota k i).
Proof.
  revert i acc. induction k as [|k IH]; intros i acc; simpl.
  - now rewrite app_nil_r.
  - rewrite IH. now rewrite <- app_assoc.
Qed.

Lemma for_range_append {A : Type} (g : N -> A) (lo hi : N) (acc : list A) :
  for_range lo hi (fun j acc => acc ++ [g j]) acc = acc ++ map g (range lo hi).
Proof. apply for_loop_append. Qed.

Lemma In_iota (k : nat) (i j : N) : In j (iota k i) <-> i <= j /\ j < i + N.of_nat k.
Proof.
  revert i. induction k as [|k IH]; intros i; simpl.
  - split; [tauto | lia].
  - rewrite IH. lia.
Qed.

Lemma In_range (lo hi j : N) : In j (range lo hi) <-> lo <= j /\ j < hi.
Proof. unfold range. rewrite In_iota. lia. Qed.

Lemma length_iota (k : nat) (i : N) : length (iota k i) = k.
Proof. revert i. induction k as [|k IH]; intros i; simpl; auto. Qed.

Lemma iota_snoc (k : nat) (i : N) : iota (Datatypes.S k) i = iota k i ++ [i + N.of_nat k].
Proof.
  revert i. induction k as [|k IH]; intros i.
  - simpl. now rewrite N.add_0_r.
  - change (iota (Datatypes.S (Datatypes.S k)) i) with (i :: iota (Datatypes.S k) (i + 1)).
    rewrite IH. simpl. do 3 f_equal. lia.
Qed.

(** ** Sorting and removing duplicates *)

Lemma In_insert (a x : N) (l : list N) : In x (insert a l) <-> x = a \/ In x l.
Proof.
  induction l as [|b t IH]; simpl.
  - intuition.
  - destruct (a <=? b); simpl; rewrite ?IH; intuition.
Qed.

Lemma In_sort (x : N) (l : list N) : In x (sort l) <-> In x l.
Proof.
  induction l as [|a t IH]; simpl; [tauto|].
  rewrite In_insert, IH. intuition.
Qed.

Lemma insert_sorted (a : N) (l : list N) : Sorted N.le l -> Sorted N.le (insert a l).
Proof.
  induction l as [|b t IH]; intros Hs; simpl.
  - repeat constructor.
  - destruct (a <=? b) eqn:Hab.
    + apply N.leb_le in Hab. constructor; [assumption | now constructor].
    + apply N.leb_gt in Hab. inversion Hs as [|? ? Hst Hhd]; subst.
      constructor; [now apply IH|].
      destruct t as [|c t']; simpl.
      * constructor. lia.
      * inversion Hhd; subst. destruct (a <=? c); constructor; lia.
Qed.

Lemma sort_sorted (l : list N) : Sorted N.le (sort l).
Proof.
  induction l as [|a t IH]; simpl; [constructor | now apply insert_sorted].
Qed.

Lemma In_unique (x : N) (l : list N) : In x (unique l) <-> In x l.
Proof.
  induction l as [|a t IH]; [simpl; tauto|].
  destruct t as [|b t'].
  - simpl. tauto.
  - change (unique (a :: b :: t')) with (if a =? b then unique (b :: t') else a :: unique (b :: t')).
    destruct (a =? b) eqn:Hab.
    + apply N.eqb_eq in Hab. subst b. rewrite IH. simpl. tauto.
    + simpl In at 1. rewrite IH. simpl. tauto.
Qed.

Lemma unique_head (a : N) (t : list N) : exists t', unique (a :: t) = a :: t'.
Proof.
  revert a. induction t as [|b t IH]; intros a.
  - now exists [].
  - change (unique (a :: b :: t)) with (if a =? b then unique (b :: t) else a :: unique (b :: t)).
    destruct (a =? b) eqn:Hab.
    + apply N.eqb_eq in Hab. subst b. apply IH.
    + now exists (unique (b :: t)).
Qed.

Lemma unique_sorted (l : list N) : Sorted N.le l -> Sorted N.lt (unique l).
Proof.
  induction l as [|a t IH]; intros Hs; [constructor|].
  inversion Hs as [|? ? Hst Hhd]; subst.
  destruct t as [|b t'].
  - repeat constructor.
  - change (unique (a :: b :: t')) with (if a =? b then unique (b :: t') else a :: unique (b :: t')).
    destruct (a =? b) eqn:Hab; [now apply IH|].
    apply N.eqb_neq in Hab. inversion Hhd; subst.
    constructor; [now apply IH|].
    destruct (unique_head b t') as [u Hu]. rewrite Hu. constructor. lia.
Qed.

Lemma sorted_lt_strongly (l : list N) : Sorted N.lt l -> StronglySorted N.lt l.
Proof. apply Sorted_StronglySorted. intros x y z. apply N.lt_trans. Qed.

Lemma strongly_sorted_NoDup (l : list N) : StronglySorted N.lt l -> NoDup l.
Proof.
  induction 1 as [|a l Hs IH Hall]; constructor; auto.
  intros Hin. rewrite Forall_forall in Hall. specialize (Hall a Hin). lia.
Qed.

(** Two strictly ascending lists with the same elements are the same list:
    the result of [std::sort] followed by [std::unique] is determined by the
    set of its elements. *)
Lemma strongly_sorted_ext (l1 l2 : list N) :
  StronglySorted N.lt l1 -> StronglySorted N.lt l2 ->
  (forall x, In x l1 <-> In x l2) -> l1 = l2.
Proof.
  intros H1. revert l2. induction H1 as [|a l1 Hs1 IH Hall1]; intros l2 H2 Heq.
  - destruct l2 as [|b l2]; auto. exfalso. apply (Heq b). now left.
  - destruct H2 as [|b l2 Hs2 Hall2].
    + exfalso. apply (Heq a). now left.
    + rewrite Forall_forall in Hall1, Hall2.
      assert (a = b).
      { destruct (proj1 (Heq a) (or_introl eq_refl)) as [<-|Hin]; auto.
        destruct (proj2 (Heq b) (or_introl eq_refl)) as [<-|Hin']; auto.
        specialize (Hall1 _ Hin'). specialize (Hall2 _ Hin). lia. }
      subst b. f_equal. apply IH; auto.
      intros x. split; intros Hin.
      * destruct (proj1 (Heq x) (or_intror Hin)) as [<-|]; auto.
        specialize (Hall1 _ Hin). lia.
      * destruct (proj2 (Heq x) (or_intror Hin)) as [<-|]; auto.
        specialize (Hall2 _ Hin). lia.
Qed.

(** ** The back-wave: unfolding, reach and termination *)

Lemma wave_fold (e : expression) (current active next : list N) :
  fold_left (fun st node_id =>
    let '(active, next) := st in
    if m_n e <=? node_id then
      let node_arity := _get_arity e node_id in
      (active,
       for_range 1 (node_arity + 1) (fun i next =>
         next ++ [(m_x e).[uadd (m_gene_idx e).[node_id] i]]) next)
    else (active ++ [node_id], next)) current (active, next)
  = (active ++ inputs_of e current,
     next ++ flat_map (connections e) (functions_of e current)).
Proof.
  revert active next. induction current as [|id t IH]; intros active next.
  - simpl. now rewrite !app_nil_r.
  - simpl fold_left. unfold inputs_of, functions_of in *. simpl filter.
    destruct (m_n e <=? id); simpl negb; cbv iota.
    + rewrite IH. simpl flat_map. rewrite for_range_append.
      unfold connections. now rewrite <- app_assoc.
    + rewrite IH. now rewrite <- app_assoc.
Qed.

Lemma wave_eq (e : expression) (current active next : list N) :
  wave e current (active, next)
  = (active ++ current ++ inputs_of e current,
     next ++ flat_map (connections e) (functions_of e current)).
Proof. unfold wave. rewrite wave_fold. now rewrite <- app_assoc. Qed.

Lemma back_wave_eq (e : expression) (fuel : nat) (current active : list N) :
  back_wave e (Datatypes.S fuel) current active
  = if 0 <? size (next_wave e current)
    then back_wave e fuel (next_wave e current) (active ++ current ++ inputs_of e current)
    else Some (active ++ current ++ inputs_of e current).
Proof. cbn [back_wave]. rewrite wave_eq. reflexivity. Qed.

Lemma back_wave_more_fuel (e : expression) (fuel fuel' : nat) (current active res : list N) :
  back_wave e fuel current active = Some res -> (fuel <= fuel')%nat ->
  back_wave e fuel' current active = Some res.
Proof.
  revert fuel' current active. induction fuel as [|fuel IH]; intros fuel' current active H Hle.
  - discriminate.
  - destruct fuel' as [|fuel']; [lia|].
    rewrite back_wave_eq in *. destruct (0 <? size (next_wave e current)); auto.
    apply IH; [assumption | lia].
Qed.

Lemma In_next_wave (e : expression) (current : list N) (id : N) :
  In id (next_wave e current) <->
  exists p, In p current /\ m_n e <= p /\ In id (connections e p).
Proof.
  unfold next_wave. rewrite In_unique, In_sort, in_flat_map. unfold functions_of.
  split; intros [p [Hp Hid]].
  - apply filter_In in Hp. destruct Hp as [Hp Hn]. apply N.leb_le in Hn. eauto.
  - destruct Hid as [Hn Hid]. exists p. split; [|assumption].
    apply filter_In. split; [assumption | now apply N.leb_le].
Qed.

Lemma In_inputs_of (e : expression) (current : list N) (id : N) :
  In id (inputs_of e current) -> In id current.
Proof. unfold inputs_of. intros H. now apply filter_In in H. Qed.

Lemma size_zero_nil {A : Type} (l : list A) : (0 <? size l) = false -> l = [].
Proof.
  destruct l; auto. unfold size. simpl. intros H. apply N.ltb_ge in H. lia.
Qed.

Lemma reach_from_unfold (e : expression) (current : list N) (id : N) :
  reach_from e current id <-> In id current \/ reach_from e (next_wave e current) id.
Proof.
  split.
  - induction 1 as [id Hin | p id Hp IH Hn Hid].
    + now left.
    + right. destruct IH as [Hin | Hnext].
      * apply reach_here. apply In_next_wave. eauto.
      * eapply reach_step; eauto.
  - intros [Hin | Hnext].
    + now apply reach_here.
    + induction Hnext as [id Hin | p id Hp IH Hn Hid].
      * apply In_next_wave in Hin. destruct Hin as [p [Hp [Hn Hid]]].
        eapply reach_step; eauto. now apply reach_here.
      * eapply reach_step; eauto.
Qed.

Lemma reach_from_nil (e : expression) (id : N) : ~ reach_from e [] id.
Proof. induction 1; auto. Qed.

(** The vector the loop leaves holds the nodes it started with and the
    nodes the waves visit, and no others. *)
Lemma back_wave_spec (e : expression) (fuel : nat) (current active res : list N) :
  back_wave e fuel current active = Some res ->
  forall id, In id res <-> In id active \/ reach_from e current id.
Proof.
  revert current active. induction fuel as [|fuel IH]; intros current active H id.
  - discriminate.
  - rewrite back_wave_eq in H. rewrite reach_from_unfold.
    destruct (0 <? size (next_wave e current)) eqn:Hsz.
    + rewrite (IH _ _ H id). rewrite !in_app_iff.
      pose proof (In_inputs_of e current id). tauto.
    + injection H as <-. apply size_zero_nil in Hsz. rewrite Hsz.
      rewrite !in_app_iff. pose proof (In_inputs_of e current id).
      pose proof (reach_from_nil e id). tauto.
Qed.

Lemma rank_le_wave_rank (e : expression) (current : list N) (id : N) :
  In id current -> rank e id <= wave_rank e current.
Proof.
  induction current as [|a t IH]; simpl; [tauto|].
  intros [<- | Hin]; [lia | specialize (IH Hin); lia].
Qed.

Lemma wave_rank_bound (e : expression) (current : list N) (b : N) :
  (forall id, In id current -> rank e id <= b) -> wave_rank e current <= b.
Proof.
  induction current as [|a t IH]; simpl; intros H; [lia|].
  assert (rank e a <= b) by (apply H; now left).
  assert (wave_rank e t <= b) by (apply IH; intros; apply H; now right).
  lia.
Qed.

Lemma wave_rank_lt (e : expression) (current : list N) (b : N) :
  0 < b -> (forall id, In id current -> rank e id < b) -> wave_rank e current < b.
Proof.
  intros Hb. induction current as [|a t IH]; simpl; intros H; [lia|].
  assert (rank e a < b) by (apply H; now left).
  assert (wave_rank e t < b) by (apply IH; intros; apply H; now right).
  lia.
Qed.

Lemma next_wave_rank (e : expression) (current : list N) :
  connections_backward e ->
  (forall p, In p current -> rank e p <= m_c e) ->
  (forall id, In id (next_wave e current) -> rank e id <= m_c e) /\
  (wave_rank e current = 0 -> next_wave e current = []) /\
  (0 < wave_rank e current -> wave_rank e (next_wave e current) < wave_rank e current).
Proof.
  intros Hback Hcur.
  assert (Hlt : forall id, In id (next_wave e current) -> rank e id < wave_rank e current).
  { intros id Hid. apply In_next_wave in Hid. destruct Hid as [p [Hp [Hn Hid]]].
    pose proof (Hback p id Hn (Hcur p Hp) Hid).
    pose proof (rank_le_wave_rank e current p Hp). lia. }
  split; [|split].
  - intros id Hid. apply In_next_wave in Hid. destruct Hid as [p [Hp [Hn Hid]]].
    pose proof (Hback p id Hn (Hcur p Hp) Hid). pose proof (Hcur p Hp). lia.
  - intros H0. destruct (next_wave e current) as [|a t]; auto.
    specialize (Hlt a (or_introl eq_refl)). lia.
  - intros Hpos. now apply wave_rank_lt.
Qed.

Lemma back_wave_enough_fuel (e : expression) (fuel : nat) (current active : list N) :
  connections_backward e ->
  (forall p, In p current -> rank e p <= m_c e) ->
  (N.to_nat (wave_rank e current) < fuel)%nat ->
  exists res, back_wave e fuel current active = Some res.
Proof.
  intros Hback. revert current active.
  induction fuel as [|fuel IH]; intros current active Hcur Hfuel; [lia|].
  rewrite back_wave_eq.
  destruct (next_wave_rank e current Hback Hcur) as [Hnext [Hzero Hdecr]].
  destruct (0 <? size (next_wave e current)) eqn:Hsz; [|eauto].
  apply IH; [assumption|].
  destruct (N.eq_dec (wave_rank e current) 0) as [H0 | H0].
  - rewrite (Hzero H0) in Hsz. discriminate.
  - assert (0 < wave_rank e current) by lia. specialize (Hdecr H). lia.
Qed.

(** ** The layout: sizes and offsets *)

Lemma sanity_checks_spec (e : expression) :
  sanity_checks e = true ->
  0 < m_n e /\ 0 < m_m e /\ 0 < m_c e /\ 0 < m_r e /\ 0 < m_l e /\
  size (m_arity e) = m_c e /\ (forall a, In a (m_arity e) -> 0 < a) /\ 0 < size (m_f e).
Proof.
  unfold sanity_checks. rewrite !andb_true_iff, !negb_true_iff, !N.eqb_neq, N.eqb_eq.
  intros [[[[[[[Hn Hm] Hc] Hr] Hl] Ha] Hz] Hf].
  repeat split; try lia.
  intros a Hin. destruct (N.eq_dec a 0) as [->|]; [|lia].
  exfalso. assert (existsb (fun a => a =? 0) (m_arity e) = true).
  { apply existsb_exists. exists 0. split; auto. }
  congruence.
Qed.

Lemma fits_spec (e : expression) :
  fits e = true ->
  m_n e + m_r e * m_c e < two32 /\ genome_size e < two32 /\ size (m_f e) <= two32.
Proof.
  unfold fits. rewrite !andb_true_iff, !N.ltb_lt, N.leb_le. tauto.
Qed.

Lemma arity_sum_mono (e : expression) (k k' : nat) :
  (k <= k')%nat -> arity_sum e k <= arity_sum e k'.
Proof.
  unfold arity_sum. induction 1 as [|k' Hle IH]; [lia|]. simpl. lia.
Qed.

Lemma offset_succ (e : expression) (i : N) :
  offset e (i + 1) = offset e i + m_r e * ((m_arity e).[i] + 1).
Proof.
  unfold offset. replace (N.to_nat (i + 1)) with (Datatypes.S (N.to_nat i)) by lia.
  unfold arity_sum. simpl sum_upto. rewrite N2Nat.id. rewrite !N.mul_add_distr_l. lia.
Qed.

Lemma offset_mono (e : expression) (i j : N) : i <= j -> offset e i <= offset e j.
Proof.
  intros Hij. unfold offset.
  assert (arity_sum e (N.to_nat i) <= arity_sum e (N.to_nat j))
    by (apply arity_sum_mono; lia).
  apply N.mul_le_mono_l. lia.
Qed.

Lemma offset_last (e : expression) : offset e (m_c e) + m_m e = genome_size e.
Proof. unfold offset, genome_size. lia. Qed.

Lemma size_rows (node : list N) (j : nat) : size (rows node j) = N.of_nat j * size node.
Proof.
  induction j as [|j IH]; [reflexivity|].
  simpl rows. rewrite size_app, IH. lia.
Qed.

Lemma size_node_lb (e : expression) (i : N) : size (node_lb e i) = (m_arity e).[i] + 1.
Proof.
  unfold node_lb. rewrite size_cons, size_filled. lia.
Qed.

Lemma size_node_ub (e : expression) (i : N) : size (node_ub e i) = (m_arity e).[i] + 1.
Proof.
  unfold node_ub. rewrite size_cons, size_filled. lia.
Qed.

Lemma size_columns (e : expression) (node : N -> list N) (k : nat) :
  (forall i, size (node i) = (m_arity e).[i] + 1) ->
  size (columns e node k) = offset e (N.of_nat k).
Proof.
  intros Hnode. induction k as [|k IH].
  - unfold offset, size. unfold arity_sum. cbn [columns length N.of_nat N.to_nat sum_upto]. lia.
  - simpl columns. rewrite size_app, IH, size_rows, Hnode, N2Nat.id.
    replace (N.of_nat (Datatypes.S k)) with (N.of_nat k + 1) by lia.
    now rewrite offset_succ.
Qed.

(** ** The loops of [init_bounds_and_chromosome] *)

Lemma filled_succ_cons {A : Type} (k : N) (a : A) : filled (k + 1) a = a :: filled k a.
Proof.
  unfold filled. replace (N.to_nat (k + 1)) with (Datatypes.S (N.to_nat k)) by lia.
  reflexivity.
Qed.

Lemma filled_succ {A : Type} (k : N) (a : A) : filled (k + 1) a = filled k a ++ [a].
Proof. rewrite filled_succ_cons. unfold filled. apply repeat_cons. Qed.

Lemma padded_split (sz : N) (p : list N) :
  size p < sz -> padded sz p = p ++ 0 :: filled (sz - size p - 1) 0.
Proof.
  intros H. unfold padded. rewrite <- filled_succ_cons. do 2 f_equal. lia.
Qed.

Lemma size_snoc {A : Type} (p : list A) (a : A) : size (p ++ [a]) = size p + 1.
Proof. rewrite size_app, size_cons. unfold size. simpl. lia. Qed.

Lemma upd_padded (sz : N) (p : list N) (v : N) :
  size p < sz -> upd (padded sz p) (size p) v = padded sz (p ++ [v]).
Proof.
  intros H. rewrite padded_split by assumption.
  unfold upd. replace (N.to_nat (size p)) with (length p) by (unfold size; lia).
  rewrite upd_nat_app.
  unfold padded. rewrite size_snoc, <- app_assoc. simpl. do 3 f_equal. lia.
Qed.

Lemma padded_snoc_zero (sz : N) (p : list N) :
  size p < sz -> padded sz p = padded sz (p ++ [0]).
Proof.
  intros H. rewrite padded_split by assumption.
  unfold padded. rewrite size_snoc, <- app_assoc. simpl. do 3 f_equal. lia.
Qed.

Lemma padded_full (sz : N) (p : list N) : size p = sz -> padded sz p = p.
Proof.
  intros H. unfold padded. rewrite H, N.sub_diag. unfold filled. simpl. apply app_nil_r.
Qed.

Lemma padded_nil (sz : N) : padded sz [] = filled sz 0.
Proof. unfold padded. simpl. f_equal. unfold size. simpl. lia. Qed.

Section Layout.

Variable e : expression.
Hypothesis Hsane : sanity_checks e = true.
Hypothesis Hfits : fits e = true.

Lemma grid_bounds :
  0 < m_n e /\ 0 < m_r e /\ 0 < m_c e /\ 0 < m_m e /\
  m_n e + m_r e * m_c e < two32 /\ genome_size e < two32 /\
  m_c e <= m_r e * m_c e /\ m_r e <= m_r e * m_c e /\
  0 < size (m_f e) /\ size (m_f e) <= two32.
Proof.
  destruct (sanity_checks_spec e Hsane) as (Hn & Hm & Hc & Hr & Hl & Ha & Hz & Hf).
  destruct (fits_spec e Hfits) as (H1 & H2 & H3).
  repeat split; try assumption; nia.
Qed.

Lemma mul_row_le (i : N) : i <= m_c e -> i * m_r e <= m_r e * m_c e.
Proof. intros H. rewrite (N.mul_comm (m_r e)). now apply N.mul_le_mono_r. Qed.

Lemma conn_ub_eq (i : N) :
  i < m_c e -> usub (uadd (m_n e) (umul i (m_r e))) 1 = conn_ub e i.
Proof.
  intros Hi. pose proof grid_bounds as (Hn & Hr & Hc & Hm & H1 & H2 & H3 & H4 & _).
  pose proof (mul_row_le i (N.lt_le_incl _ _ Hi)).
  rewrite umul_small by lia. rewrite uadd_small by lia.
  rewrite usub_small by lia. reflexivity.
Qed.

Lemma conn_lb_eq (i : N) :
  i < m_c e -> (m_l e <=? i) = true ->
  uadd (m_n e) (umul (m_r e) (usub i (m_l e))) = conn_lb e i.
Proof.
  intros Hi Hl. unfold conn_lb. rewrite Hl. apply N.leb_le in Hl.
  pose proof grid_bounds as (Hn & Hr & Hc & Hm & H1 & H2 & H3 & H4 & _).
  assert (m_r e * (i - m_l e) <= m_r e * m_c e) by (apply N.mul_le_mono_l; lia).
  rewrite usub_small by lia. rewrite umul_small by lia. now rewrite uadd_small by lia.
Qed.

Lemma conn_lb_zero (i : N) : (m_l e <=? i) = false -> conn_lb e i = 0.
Proof. intros Hl. unfold conn_lb. now rewrite Hl. Qed.

Lemma out_ub_eq : usub (uadd (m_n e) (umul (m_r e) (m_c e))) 1 = out_ub e.
Proof.
  pose proof grid_bounds as (Hn & Hr & Hc & Hm & H1 & H2 & H3 & H4 & _).
  rewrite umul_small by lia. rewrite uadd_small by lia.
  rewrite usub_small by lia. reflexivity.
Qed.

Lemma out_lb_eq :
  (m_l e <=? m_c e) = true ->
  uadd (m_n e) (umul (m_r e) (usub (m_c e) (m_l e))) = out_lb e.
Proof.
  intros Hl. unfold out_lb. rewrite Hl. apply N.leb_le in Hl.
  pose proof grid_bounds as (Hn & Hr & Hc & Hm & H1 & H2 & H3 & H4 & _).
  assert (m_r e * (m_c e - m_l e) <= m_r e * m_c e) by (apply N.mul_le_mono_l; lia).
  rewrite usub_small by lia. rewrite umul_small by lia. now rewrite uadd_small by lia.
Qed.

Lemma out_lb_zero : (m_l e <=? m_c e) = false -> out_lb e = 0.
Proof. intros Hl. unfold out_lb. now rewrite Hl. Qed.

Lemma fmax_eq : to_unsigned (zsub (size (m_f e)) 1) = size (m_f e) - 1.
Proof.
  pose proof grid_bounds as (_ & _ & _ & _ & _ & _ & _ & _ & Hf & Hf').
  pose proof two32_lt_two64.
  rewrite zsub_small by lia. apply to_unsigned_small. lia.
Qed.

Lemma set_connections_spec (sz i a : N) (plb pub : list N) :
  i < m_c e -> size plb = size pub -> size plb + a <= sz -> sz < two32 ->
  for_range 0 a (fun _ => set_connection_bounds e i) (padded sz plb, padded sz pub, size plb)
  = (padded sz (plb ++ filled a (conn_lb e i)),
     padded sz (pub ++ filled a (conn_ub e i)),
     size plb + a).
Proof.
  intros Hi Hsize Hroom Hsz.
  apply (for_range_ind
    (fun j st => j <= a ->
       st = (padded sz (plb ++ filled j (conn_lb e i)),
             padded sz (pub ++ filled j (conn_ub e i)),
             size plb + j))); try lia.
  - intros _. unfold filled. simpl. now rewrite !app_nil_r, N.add_0_r.
  - intros j st _ Hj IH _. rewrite IH by lia. unfold set_connection_bounds.
    assert (Hlb : size (plb ++ filled j (conn_lb e i)) = size plb + j)
      by now rewrite size_app, size_filled.
    assert (Hub : size (pub ++ filled j (conn_ub e i)) = size plb + j)
      by (rewrite size_app, size_filled; lia).
    rewrite !filled_succ, !app_assoc.
    f_equal; [f_equal|].
    + destruct (m_l e <=? i) eqn:Hl.
      * rewrite conn_lb_eq by assumption. rewrite <- Hlb. apply upd_padded. lia.
      * rewrite (conn_lb_zero i Hl). apply padded_snoc_zero.
        rewrite <- (conn_lb_zero i Hl). lia.
    + rewrite conn_ub_eq by assumption. rewrite <- Hub. apply upd_padded. lia.
    + rewrite uadd_small by lia. lia.
Qed.

Lemma set_node_bounds_spec (sz i : N) (plb pub : list N) :
  i < m_c e -> size plb = size pub ->
  size plb + ((m_arity e).[i] + 1) <= sz -> sz < two32 ->
  set_node_bounds e i (padded sz plb, padded sz pub, size plb)
  = (padded sz (plb ++ node_lb e i), padded sz (pub ++ node_ub e i),
     size plb + ((m_arity e).[i] + 1)).
Proof.
  intros Hi Hsize Hroom Hsz. unfold set_node_bounds.
  rewrite fmax_eq. rewrite Hsize at 1. rewrite upd_padded by lia.
  rewrite (padded_snoc_zero sz plb) by lia.
  rewrite uadd_small by lia. rewrite <- (size_snoc plb 0).
  rewrite set_connections_spec; try assumption.
  - unfold node_lb, node_ub. rewrite <- !app_assoc. simpl.
    rewrite size_snoc. f_equal. lia.
  - now rewrite !size_snoc, Hsize.
  - rewrite size_snoc. lia.
Qed.

Lemma rows_spec (sz i : N) (plb pub : list N) :
  i < m_c e -> size plb = size pub ->
  size plb + m_r e * ((m_arity e).[i] + 1) <= sz -> sz < two32 ->
  for_range 0 (m_r e) (fun _ => set_node_bounds e i) (padded sz plb, padded sz pub, size plb)
  = (padded sz (plb ++ rows (node_lb e i) (N.to_nat (m_r e))),
     padded sz (pub ++ rows (node_ub e i) (N.to_nat (m_r e))),
     size plb + m_r e * ((m_arity e).[i] + 1)).
Proof.
  intros Hi Hsize Hroom Hsz.
  apply (for_range_ind
    (fun j st => j <= m_r e ->
       st = (padded sz (plb ++ rows (node_lb e i) (N.to_nat j)),
             padded sz (pub ++ rows (node_ub e i) (N.to_nat j)),
             size plb + j * ((m_arity e).[i] + 1)))); try lia.
  - intros _. simpl. now rewrite !app_nil_r, N.add_0_r.
  - intros j st _ Hj IH _. rewrite IH by lia.
    assert (Hlb : size (plb ++ rows (node_lb e i) (N.to_nat j))
                  = size plb + j * ((m_arity e).[i] + 1))
      by (rewrite size_app, size_rows, size_node_lb; lia).
    assert (Hub : size (pub ++ rows (node_ub e i) (N.to_nat j))
                  = size plb + j * ((m_arity e).[i] + 1))
      by (rewrite size_app, size_rows, size_node_ub; lia).
    assert (Hfit : (j + 1) * ((m_arity e).[i] + 1) <= m_r e * ((m_arity e).[i] + 1))
      by (apply N.mul_le_mono_r; lia).
    rewrite <- Hlb. rewrite set_node_bounds_spec; try assumption.
    + replace (N.to_nat (j + 1)) with (Datatypes.S (N.to_nat j)) by lia.
      simpl rows. rewrite !app_assoc. f_equal. rewrite Hlb. lia.
    + now rewrite Hlb, Hub.
    + rewrite Hlb. lia.
Qed.

Lemma columns_spec (sz : N) :
  offset e (m_c e) <= sz -> sz < two32 ->
  init_node_genes e (filled sz 0, filled sz 0, 0)
  = (padded sz (columns e (node_lb e) (N.to_nat (m_c e))),
     padded sz (columns e (node_ub e) (N.to_nat (m_c e))),
     offset e (m_c e)).
Proof.
  intros Hroom Hsz. unfold init_node_genes.
  apply (for_range_ind
    (fun i st => i <= m_c e ->
       st = (padded sz (columns e (node_lb e) (N.to_nat i)),
             padded sz (columns e (node_ub e) (N.to_nat i)),
             offset e i))); try lia.
  - intros _. simpl. rewrite padded_nil. unfold offset. simpl. f_equal. lia.
  - intros i st _ Hi IH _. rewrite IH by lia.
    assert (Hlb : size (columns e (node_lb e) (N.to_nat i)) = offset e i)
      by (rewrite (size_columns e _ _ (size_node_lb e)); f_equal; lia).
    assert (Hub : size (columns e (node_ub e) (N.to_nat i)) = offset e i)
      by (rewrite (size_columns e _ _ (size_node_ub e)); f_equal; lia).
    pose proof (offset_succ e i) as Hs.
    pose proof (offset_mono e (i + 1) (m_c e) ltac:(lia)) as Hm.
    rewrite <- Hlb. rewrite rows_spec; try assumption.
    + replace (N.to_nat (i + 1)) with (Datatypes.S (N.to_nat i)) by lia.
      simpl columns. rewrite N2Nat.id. f_equal. rewrite Hlb. lia.
    + now rewrite Hlb, Hub.
    + rewrite Hlb. lia.
Qed.

Lemma outputs_spec (sz : N) (plb pub : list N) :
  size plb = size pub -> size plb + m_m e = sz -> sz < two32 ->
  init_output_genes e sz (padded sz plb, padded sz pub)
  = (plb ++ filled (m_m e) (out_lb e), pub ++ filled (m_m e) (out_ub e)).
Proof.
  intros Hsize Hroom Hsz. unfold init_output_genes.
  rewrite usub_small by lia.
  replace (plb ++ filled (m_m e) (out_lb e))
    with (padded sz (plb ++ filled (sz - (sz - m_m e)) (out_lb e))).
  2:{ replace (sz - (sz - m_m e)) with (m_m e) by lia.
      apply padded_full. rewrite size_app, size_filled. lia. }
  replace (pub ++ filled (m_m e) (out_ub e))
    with (padded sz (pub ++ filled (sz - (sz - m_m e)) (out_ub e))).
  2:{ replace (sz - (sz - m_m e)) with (m_m e) by lia.
      apply padded_full. rewrite size_app, size_filled. lia. }
  apply (for_range_ind
    (fun i st =>
       st = (padded sz (plb ++ filled (i - (sz - m_m e)) (out_lb e)),
             padded sz (pub ++ filled (i - (sz - m_m e)) (out_ub e))))); try lia.
  - rewrite N.sub_diag. unfold filled. simpl. now rewrite !app_nil_r.
  - intros i st Hlo Hhi ->.
    replace (i + 1 - (sz - m_m e)) with (i - (sz - m_m e) + 1) by lia.
    rewrite !filled_succ, !app_assoc.
    assert (Hlb : size (plb ++ filled (i - (sz - m_m e)) (out_lb e)) = i)
      by (rewrite size_app, size_filled; lia).
    assert (Hub : size (pub ++ filled (i - (sz - m_m e)) (out_ub e)) = i)
      by (rewrite size_app, size_filled; lia).
    f_equal.
    + destruct (m_l e <=? m_c e) eqn:Hl.
      * rewrite out_lb_eq by assumption. rewrite <- Hlb at 2. apply upd_padded. lia.
      * rewrite (out_lb_zero Hl). apply padded_snoc_zero.
        rewrite <- (out_lb_zero Hl). lia.
    + rewrite out_ub_eq. rewrite <- Hub at 2. apply upd_padded. lia.
Qed.

Lemma sum_upto_app (v : list N) (x : N) (k : nat) :
  (k <= length v)%nat -> sum_upto (v ++ [x]) k = sum_upto v k.
Proof.
  induction k as [|k IH]; intros Hk; [reflexivity|].
  simpl. rewrite IH by lia. f_equal. unfold at_. rewrite Nat2N.id.
  apply app_nth1. lia.
Qed.

Lemma accumulate_eq (v : list N) :
  sum_upto v (length v) < two32 -> accumulate v = sum_upto v (length v).
Proof.
  unfold accumulate. induction v as [|x v IH] using rev_ind; intros Hlt; [reflexivity|].
  rewrite length_app in *. simpl length in *.
  replace (length v + 1)%nat with (Datatypes.S (length v)) in * by lia.
  simpl sum_upto in *. rewrite sum_upto_app in * by lia.
  assert (Hx : (v ++ [x]).[N.of_nat (length v)] = x).
  { unfold at_. rewrite Nat2N.id, app_nth2 by lia.
    now replace (length v - length v)%nat with O by lia. }
  rewrite Hx in *. rewrite fold_left_app. simpl. rewrite IH by lia.
  apply uadd_small. lia.
Qed.

Lemma arity_sum_total : sum_upto (m_arity e) (length (m_arity e)) = arity_sum e (N.to_nat (m_c e)).
Proof.
  destruct (sanity_checks_spec e Hsane) as (_ & _ & _ & _ & _ & Ha & _).
  unfold arity_sum. f_equal. unfold size in Ha. lia.
Qed.

Lemma arity_sum_bound (k : nat) :
  (k <= N.to_nat (m_c e))%nat -> arity_sum e k <= m_r e * arity_sum e (N.to_nat (m_c e)).
Proof.
  intros Hk. pose proof grid_bounds as (_ & Hr & _).
  pose proof (arity_sum_mono e _ _ Hk). nia.
Qed.

Lemma chromosome_size_eq : chromosome_size e = genome_size e.
Proof.
  unfold chromosome_size, genome_size.
  pose proof grid_bounds as (Hn & Hr & Hc & Hm & H1 & H2 & H3 & H4 & _).
  unfold genome_size in H2.
  pose proof (arity_sum_bound (N.to_nat (m_c e)) (le_n _)) as Hb.
  rewrite accumulate_eq; rewrite arity_sum_total; [|lia].
  rewrite !umul_small by lia. rewrite !uadd_small; rewrite ?uadd_small; lia.
Qed.

Lemma arity_loop (col : N) :
  col <= m_c e ->
  for_range 0 col (fun j acc => uadd acc (m_arity e).[j]) 0 = arity_sum e (N.to_nat col).
Proof.
  intros Hcol.
  apply (for_range_ind (fun j acc => j <= col -> acc = arity_sum e (N.to_nat j))); try lia.
  - reflexivity.
  - intros j acc _ Hj IH _. rewrite IH by lia.
    replace (N.to_nat (j + 1)) with (Datatypes.S (N.to_nat j)) by lia.
    unfold arity_sum. simpl sum_upto. rewrite N2Nat.id.
    apply uadd_small.
    pose proof (arity_sum_bound (Datatypes.S (N.to_nat j)) ltac:(lia)) as Hb.
    unfold arity_sum in Hb. simpl sum_upto in Hb. rewrite N2Nat.id in Hb.
    pose proof grid_bounds as (_ & _ & _ & _ & _ & H2 & _).
    unfold genome_size, arity_sum in H2. lia.
Qed.

(** Column and row of a function node of the grid. *)
Lemma grid_position (id : N) :
  m_n e <= id -> id < m_n e + m_r e * m_c e ->
  let col := (id - m_n e) / m_r e in
  let row := (id - m_n e) mod m_r e in
  col < m_c e /\ row < m_r e /\ id - m_n e = m_r e * col + row.
Proof.
  intros Hlo Hhi col row. pose proof grid_bounds as (_ & Hr & _).
  repeat split.
  - apply N.Div0.div_lt_upper_bound. lia.
  - apply N.mod_lt. lia.
  - apply N.Div0.div_mod.
Qed.

(** The genes of a function node lie before the output genes. *)
Lemma gene_pos_room (id : N) :
  m_n e <= id -> id < m_n e + m_r e * m_c e ->
  gene_pos e id + (m_arity e).[(id - m_n e) / m_r e] + 1 <= offset e ((id - m_n e) / m_r e + 1)
  /\ offset e ((id - m_n e) / m_r e + 1) <= offset e (m_c e).
Proof.
  intros Hlo Hhi. destruct (grid_position id Hlo Hhi) as (Hcol & Hrow & _).
  split.
  - unfold gene_pos. rewrite offset_succ.
    set (a := (m_arity e).[(id - m_n e) / m_r e]) in *.
    set (row := (id - m_n e) mod m_r e) in *.
    assert ((row + 1) * (a + 1) <= m_r e * (a + 1)) by (apply N.mul_le_mono_r; lia).
    lia.
  - apply offset_mono. lia.
Qed.

Lemma gene_idx_formula (id : N) :
  m_n e <= id -> id < m_n e + m_r e * m_c e ->
  let col := usub id (m_n e) / m_r e in
  let row := usub id (m_n e) mod m_r e in
  let acc := for_range 0 col (fun j acc => uadd acc (m_arity e).[j]) 0 in
  let acc := umul acc (m_r e) in
  uadd (uadd acc (umul row (m_arity e).[col])) (usub id (m_n e)) = gene_pos e id.
Proof.
  intros Hlo Hhi. cbv zeta.
  pose proof grid_bounds as (Hn & Hr & Hc & Hm & H1 & H2 & H3 & H4 & _).
  rewrite usub_small by lia.
  destruct (grid_position id Hlo Hhi) as (Hcol & Hrow & Hid).
  destruct (gene_pos_room id Hlo Hhi) as (Hroom1 & Hroom2).
  pose proof (offset_last e) as Hlast.
  rewrite arity_loop by lia.
  assert (Hb : gene_pos e id < two32) by lia.
  clear Hroom1 Hroom2 Hlast. revert Hb. unfold gene_pos, offset.
  set (col := (id - m_n e) / m_r e) in *.
  set (row := (id - m_n e) mod m_r e) in *.
  set (a := (m_arity e).[col]) in *.
  set (s := arity_sum e (N.to_nat col)) in *.
  intros Hb.
  assert (Heq : s * m_r e + row * a + (id - m_n e) = m_r e * (s + col) + row * (a + 1))
    by (rewrite Hid; lia).
  rewrite umul_small by nia. rewrite (umul_small row a) by nia.
  rewrite (uadd_small (s * m_r e)) by nia. rewrite uadd_small by lia.
  exact Heq.
Qed.

Lemma init_gene_idx_spec :
  let gi := init_gene_idx e (filled (m_n e + m_r e * m_c e) 0) in
  size gi = m_n e + m_r e * m_c e /\
  forall id, m_n e <= id -> id < m_n e + m_r e * m_c e -> gi.[id] = gene_pos e id.
Proof.
  unfold init_gene_idx. rewrite size_filled.
  apply (for_range_ind
    (fun i gi => i <= m_n e + m_r e * m_c e ->
       size gi = m_n e + m_r e * m_c e /\
       forall id, m_n e <= id -> id < i -> gi.[id] = gene_pos e id)); try lia.
  - intros _. rewrite size_filled. split; [reflexivity | lia].
  - intros i gi _ Hi IH _. destruct (IH ltac:(lia)) as [Hsz Hval].
    destruct (i <? m_n e) eqn:Hin.
    + apply N.ltb_lt in Hin. rewrite size_upd. split; [assumption | lia].
    + apply N.ltb_ge in Hin. rewrite size_upd. split; [assumption|].
      intros id Hlo Hhi. destruct (N.eq_dec id i) as [-> | Hne].
      * rewrite at_upd_same by lia. now apply gene_idx_formula.
      * rewrite at_upd_other by assumption. apply Hval; lia.
Qed.

(** What [init_bounds_and_chromosome] leaves in the object. *)
Lemma init_tables :
  let e' := init_bounds_and_chromosome e in
  m_lb e' = lb_table e /\ m_ub e' = ub_table e /\
  m_x e' = filled (genome_size e) 0 /\
  size (m_gene_idx e') = m_n e + m_r e * m_c e /\
  (forall id, m_n e <= id -> id < m_n e + m_r e * m_c e ->
     (m_gene_idx e').[id] = gene_pos e id).
Proof.
  pose proof grid_bounds as (Hn & Hr & Hc & Hm & H1 & H2 & H3 & H4 & _).
  pose proof (offset_last e) as Hlast.
  unfold init_bounds_and_chromosome. cbv zeta. rewrite chromosome_size_eq.
  rewrite columns_spec by lia. cbn [fst snd].
  assert (Hlb : size (columns e (node_lb e) (N.to_nat (m_c e))) = offset e (m_c e))
    by (rewrite (size_columns e _ _ (size_node_lb e)); f_equal; lia).
  assert (Hub : size (columns e (node_ub e) (N.to_nat (m_c e))) = offset e (m_c e))
    by (rewrite (size_columns e _ _ (size_node_ub e)); f_equal; lia).
  rewrite outputs_spec by lia.
  rewrite umul_small by lia. rewrite uadd_small by lia.
  rewrite (N.add_comm (m_r e * m_c e)).
  destruct init_gene_idx_spec as [Hsz Hval].
  simpl. repeat split; assumption.
Qed.

End Layout.

(** *** Reading the tables *)

Lemma at_app_l {A : Type} (d : A) (p q : list A) (i : N) :
  i < size p -> at_ d (p ++ q) i = at_ d p i.
Proof. unfold at_, size. intros H. apply app_nth1. lia. Qed.

Lemma at_app_r {A : Type} (d : A) (p q : list A) (i : N) :
  at_ d (p ++ q) (size p + i) = at_ d q i.
Proof.
  unfold at_, size. rewrite app_nth2 by lia. f_equal. lia.
Qed.

Lemma at_cons_succ {A : Type} (d a : A) (v : list A) (i : N) :
  at_ d (a :: v) (i + 1) = at_ d v i.
Proof.
  unfold at_. replace (N.to_nat (i + 1)) with (Datatypes.S (N.to_nat i)) by lia. reflexivity.
Qed.

Lemma at_filled_in {A : Type} (d a : A) (k i : N) : i < k -> at_ d (filled k a) i = a.
Proof.
  unfold at_, filled. intros H. apply nth_repeat_lt. lia.
Qed.

Lemma at_rows (node : list N) (j : nat) (j' t : N) :
  j' < N.of_nat j -> t < size node -> (rows node j).[j' * size node + t] = node.[t].
Proof.
  induction j as [|j IH]; intros Hj Ht; [lia|].
  simpl rows. destruct (N.eq_dec j' (N.of_nat j)) as [-> | Hne].
  - rewrite <- size_rows. apply at_app_r.
  - rewrite at_app_l; [apply IH; lia|].
    rewrite size_rows.
    assert ((j' + 1) * size node <= N.of_nat j * size node) by (apply N.mul_le_mono_r; lia).
    lia.
Qed.

Lemma at_columns (e : expression) (node : N -> list N) (k : nat) (k' t : N) :
  (forall i, size (node i) = (m_arity e).[i] + 1) ->
  k' < N.of_nat k -> t < m_r e * ((m_arity e).[k'] + 1) ->
  (columns e node k).[offset e k' + t] = (rows (node k') (N.to_nat (m_r e))).[t].
Proof.
  intros Hnode. induction k as [|k IH]; intros Hk Ht; [lia|].
  simpl columns. destruct (N.eq_dec k' (N.of_nat k)) as [-> | Hne].
  - rewrite <- (size_columns e node k Hnode). apply at_app_r.
  - rewrite at_app_l; [apply IH; lia|].
    rewrite (size_columns e node k Hnode).
    pose proof (offset_succ e k'). pose proof (offset_mono e (k' + 1) (N.of_nat k)). lia.
Qed.

Lemma Forall2_at (l u : list N) (i : N) : Forall2 N.le l u -> l.[i] <= u.[i].
Proof.
  intros H. unfold at_. generalize (N.to_nat i). clear i.
  induction H as [|a b l u Hab Hlu IH]; intros [|i]; simpl; auto; lia.
Qed.

Lemma Forall2_filled (k a b : N) : a <= b -> Forall2 N.le (filled k a) (filled k b).
Proof.
  intros Hab. unfold filled. induction (N.to_nat k); simpl; constructor; auto.
Qed.

Lemma Forall2_rows (l u : list N) (j : nat) :
  Forall2 N.le l u -> Forall2 N.le (rows l j) (rows u j).
Proof.
  intros H. induction j as [|j IH]; simpl; [constructor | now apply Forall2_app].
Qed.

Section Tables.

Variable e : expression.
Hypothesis Hsane : sanity_checks e = true.
Hypothesis Hfits : fits e = true.

Lemma conn_bounds_ordered (i : N) : i < m_c e -> conn_lb e i <= conn_ub e i.
Proof.
  intros Hi. destruct (sanity_checks_spec e Hsane) as (Hn & _ & _ & Hr & Hl & _).
  unfold conn_lb, conn_ub. destruct (m_l e <=? i) eqn:H; [|lia].
  apply N.leb_le in H.
  assert (m_r e * (i - m_l e) + m_r e * m_l e = i * m_r e) by nia.
  assert (m_r e * 1 <= m_r e * m_l e) by (apply N.mul_le_mono_l; lia).
  lia.
Qed.

Lemma out_bounds_ordered : out_lb e <= out_ub e.
Proof.
  destruct (sanity_checks_spec e Hsane) as (Hn & _ & _ & Hr & Hl & _).
  unfold out_lb, out_ub. destruct (m_l e <=? m_c e) eqn:H; [|lia].
  apply N.leb_le in H.
  assert (m_r e * (m_c e - m_l e) + m_r e * m_l e = m_r e * m_c e) by nia.
  assert (m_r e * 1 <= m_r e * m_l e) by (apply N.mul_le_mono_l; lia).
  lia.
Qed.

Lemma columns_ordered (k : nat) :
  (k <= N.to_nat (m_c e))%nat ->
  Forall2 N.le (columns e (node_lb e) k) (columns e (node_ub e) k).
Proof.
  induction k as [|k IH]; intros Hk; simpl; [constructor|].
  apply Forall2_app; [apply IH; lia|].
  apply Forall2_rows. unfold node_lb, node_ub. constructor; [lia|].
  apply Forall2_filled. apply conn_bounds_ordered. lia.
Qed.

Lemma tables_ordered : Forall2 N.le (lb_table e) (ub_table e).
Proof.
  unfold lb_table, ub_table. apply Forall2_app.
  - now apply columns_ordered.
  - apply Forall2_filled. apply out_bounds_ordered.
Qed.

Lemma size_lb_table : size (lb_table e) = genome_size e.
Proof.
  unfold lb_table. rewrite size_app, size_filled.
  rewrite (size_columns e _ _ (size_node_lb e)), N2Nat.id. apply offset_last.
Qed.

Lemma size_ub_table : size (ub_table e) = genome_size e.
Proof.
  unfold ub_table. rewrite size_app, size_filled.
  rewrite (size_columns e _ _ (size_node_ub e)), N2Nat.id. apply offset_last.
Qed.

(** The tables at the genes of a function node of the grid. *)
Lemma table_at_node (node : N -> list N) (outs : list N) (id t : N) :
  (forall i, size (node i) = (m_arity e).[i] + 1) ->
  m_n e <= id -> id < m_n e + m_r e * m_c e ->
  t <= (m_arity e).[(id - m_n e) / m_r e] ->
  (columns e node (N.to_nat (m_c e)) ++ outs).[gene_pos e id + t]
  = (node ((id - m_n e) / m_r e)).[t].
Proof.
  intros Hnode Hlo Hhi Ht.
  destruct (grid_position e Hsane Hfits id Hlo Hhi) as (Hcol & Hrow & _).
  destruct (gene_pos_room e Hsane Hfits id Hlo Hhi) as (Hroom1 & Hroom2).
  rewrite at_app_l by (rewrite (size_columns e _ _ Hnode), N2Nat.id; lia).
  unfold gene_pos in *. rewrite <- N.add_assoc.
  set (col := (id - m_n e) / m_r e) in *.
  set (row := (id - m_n e) mod m_r e) in *.
  rewrite offset_succ in Hroom1.
  rewrite at_columns; [| assumption | lia | lia].
  rewrite <- (Hnode col). apply at_rows; [lia|]. rewrite Hnode. lia.
Qed.

Lemma lb_at_function_gene (id : N) :
  m_n e <= id -> id < m_n e + m_r e * m_c e -> (lb_table e).[gene_pos e id] = 0.
Proof.
  intros Hlo Hhi. unfold lb_table.
  rewrite <- (N.add_0_r (gene_pos e id)).
  rewrite (table_at_node _ _ _ _ (size_node_lb e)); auto; lia.
Qed.

Lemma ub_at_function_gene (id : N) :
  m_n e <= id -> id < m_n e + m_r e * m_c e ->
  (ub_table e).[gene_pos e id] = size (m_f e) - 1.
Proof.
  intros Hlo Hhi. unfold ub_table.
  rewrite <- (N.add_0_r (gene_pos e id)).
  rewrite (table_at_node _ _ _ _ (size_node_ub e)); auto; lia.
Qed.

Lemma ub_at_connection_gene (id t : N) :
  m_n e <= id -> id < m_n e + m_r e * m_c e ->
  1 <= t -> t <= (m_arity e).[(id - m_n e) / m_r e] ->
  (ub_table e).[gene_pos e id + t] = conn_ub e ((id - m_n e) / m_r e).
Proof.
  intros Hlo Hhi Ht1 Ht2. unfold ub_table.
  rewrite (table_at_node _ _ _ _ (size_node_ub e)); auto.
  unfold node_ub. replace t with (t - 1 + 1) by lia.
  rewrite at_cons_succ. apply at_filled_in. lia.
Qed.

Lemma ub_at_output_gene (i : N) :
  i < m_m e -> (ub_table e).[offset e (m_c e) + i] = out_ub e.
Proof.
  intros Hi. unfold ub_table.
  rewrite <- (N2Nat.id (m_c e)) at 2.
  rewrite <- (size_columns e _ _ (size_node_ub e)).
  rewrite at_app_r. now apply at_filled_in.
Qed.

End Tables.

(** ** Well-formed objects *)

Lemma shape_tables (e : expression) :
  shape_ok e ->
  m_lb e = lb_table e /\ m_ub e = ub_table e /\
  size (m_gene_idx e) = m_n e + m_r e * m_c e /\
  (forall id, m_n e <= id -> id < m_n e + m_r e * m_c e ->
     (m_gene_idx e).[id] = gene_pos e id).
Proof.
  intros (Hsane & Hfits & Hlb & Hub & Hgi).
  destruct (init_tables e Hsane Hfits) as (H1 & H2 & _ & H4 & H5).
  rewrite Hlb, Hub, Hgi. auto.
Qed.

Lemma is_valid_spec (e : expression) (x : list N) :
  is_valid e x = true <->
  size x = size (m_lb e) /\
  forall i, i < size x -> (m_lb e).[i] <= x.[i] /\ x.[i] <= (m_ub e).[i].
Proof.
  unfold is_valid. destruct (size x =? size (m_lb e)) eqn:Hsz; simpl.
  - apply N.eqb_eq in Hsz. rewrite forallb_forall. split.
    + intros H. split; [assumption|]. intros i Hi.
      specialize (H i (proj2 (In_range 0 (size x) i) (conj (N.le_0_l i) Hi))).
      apply andb_true_iff in H. rewrite !negb_true_iff, !N.ltb_ge in H. lia.
    + intros [_ H] i Hi. apply In_range in Hi. specialize (H i (proj2 Hi)).
      apply andb_true_iff. rewrite !negb_true_iff, !N.ltb_ge. lia.
  - apply N.eqb_neq in Hsz. split; [discriminate | tauto].
Qed.

Lemma for_range_fill {A : Type} (d : A) (g : N -> A) (k : N) :
  for_range 0 k (fun i v => upd v i (g i)) (filled k d) = map g (range 0 k).
Proof.
  replace (map g (range 0 k)) with (map g (range 0 k) ++ filled (k - k) d)
    by (rewrite N.sub_diag; apply app_nil_r).
  apply (for_range_ind (fun i v => v = map g (range 0 i) ++ filled (k - i) d)); try lia.
  - now rewrite N.sub_0_r.
  - intros i v _ Hi ->.
    replace (k - i) with (k - (i + 1) + 1) by lia. rewrite filled_succ_cons.
    unfold upd. replace (N.to_nat i) with (length (map g (range 0 i)))
      by (rewrite length_map; unfold range; rewrite length_iota; lia).
    rewrite upd_nat_app. unfold range.
    replace (N.to_nat (i + 1 - 0)) with (Datatypes.S (N.to_nat (i - 0))) by lia.
    rewrite iota_snoc, map_app, <- app_assoc. simpl. do 3 f_equal. lia.
Qed.

Lemma output_nodes_eq (e : expression) :
  output_nodes e
  = map (fun i => (m_x e).[zadd (zsub (size (m_x e)) (m_m e)) i]) (range 0 (m_m e)).
Proof. apply for_range_fill. Qed.

Lemma rank_in_grid (e : expression) (p : N) :
  0 < m_r e -> (rank e p <= m_c e <-> p < m_n e + m_r e * m_c e).
Proof.
  intros Hr. unfold rank. destruct (p <? m_n e) eqn:Hp.
  - apply N.ltb_lt in Hp. lia.
  - apply N.ltb_ge in Hp. split; intros H.
    + pose proof (N.Div0.div_mod (p - m_n e) (m_r e)).
      pose proof (N.mod_lt (p - m_n e) (m_r e) ltac:(lia)).
      assert (m_r e * ((p - m_n e) / m_r e + 1) <= m_r e * m_c e)
        by (apply N.mul_le_mono_l; lia).
      lia.
    + assert ((p - m_n e) / m_r e < m_c e)
        by (apply N.Div0.div_lt_upper_bound; lia).
      lia.
Qed.

Section WellFormed.

Variable e : expression.
Hypothesis Hwf : wf e.

Lemma wf_sane : sanity_checks e = true.
Proof. apply Hwf. Qed.

Lemma wf_fits : fits e = true.
Proof. apply Hwf. Qed.

Lemma wf_size : size (m_x e) = genome_size e.
Proof.
  destruct Hwf as [Hshape Hvalid]. apply is_valid_spec in Hvalid.
  destruct (shape_tables e Hshape) as (Hlb & _).
  destruct Hvalid as [Hsz _]. rewrite Hsz, Hlb.
  apply size_lb_table.
Qed.

Lemma wf_gene_bounds (k : N) :
  k < genome_size e -> (lb_table e).[k] <= (m_x e).[k] /\ (m_x e).[k] <= (ub_table e).[k].
Proof.
  intros Hk. destruct Hwf as [Hshape Hvalid]. apply is_valid_spec in Hvalid.
  destruct (shape_tables e Hshape) as (Hlb & Hub & _).
  rewrite <- Hlb, <- Hub. apply Hvalid. now rewrite wf_size.
Qed.

Lemma wf_gene_idx (id : N) :
  m_n e <= id -> id < m_n e + m_r e * m_c e -> (m_gene_idx e).[id] = gene_pos e id.
Proof. destruct Hwf as [Hshape _]. apply (shape_tables e Hshape). Qed.

Lemma wf_get_arity (id : N) :
  m_n e <= id -> id < m_n e + m_r e * m_c e ->
  _get_arity e id = (m_arity e).[(id - m_n e) / m_r e].
Proof.
  intros Hlo Hhi. unfold _get_arity.
  pose proof (grid_bounds e wf_sane wf_fits) as (_ & _ & _ & _ & H1 & _).
  now rewrite usub_small by lia.
Qed.

(** The output genes as positions. *)
Lemma wf_output_index (i : N) :
  i < m_m e ->
  zadd (zsub (size (m_x e)) (m_m e)) i = offset e (m_c e) + i /\
  uadd (usub (to_unsigned (size (m_x e))) (m_m e)) i = offset e (m_c e) + i /\
  offset e (m_c e) + i < genome_size e.
Proof.
  intros Hi. rewrite wf_size.
  pose proof (grid_bounds e wf_sane wf_fits) as (_ & _ & _ & _ & _ & H2 & _).
  pose proof (offset_last e) as Hlast. pose proof two32_lt_two64.
  rewrite zsub_small by lia. rewrite zadd_small by lia.
  rewrite to_unsigned_small by lia. rewrite usub_small by lia.
  rewrite uadd_small by lia. lia.
Qed.

Lemma wf_outputs_in_grid (id : N) :
  In id (output_nodes e) -> id < m_n e + m_r e * m_c e.
Proof.
  rewrite output_nodes_eq. intros Hin. apply in_map_iff in Hin.
  destruct Hin as [i [<- Hi]]. apply In_range in Hi. destruct Hi as [_ Hi].
  destruct (wf_output_index i Hi) as (-> & _ & Hlt).
  pose proof (wf_gene_bounds _ Hlt) as [_ Hub].
  rewrite (ub_at_output_gene e i Hi) in Hub. unfold out_ub in Hub.
  pose proof (grid_bounds e wf_sane wf_fits) as (Hn & _). lia.
Qed.

(** The genes of a function node of the grid as positions. *)
Lemma wf_gene_index (id t : N) :
  m_n e <= id -> id < m_n e + m_r e * m_c e -> t <= _get_arity e id ->
  uadd (m_gene_idx e).[id] t = gene_pos e id + t /\
  gene_pos e id + t < offset e (m_c e).
Proof.
  intros Hlo Hhi Ht. rewrite wf_get_arity in Ht by assumption.
  rewrite wf_gene_idx by assumption.
  destruct (gene_pos_room e wf_sane wf_fits id Hlo Hhi) as (Hroom1 & Hroom2).
  pose proof (grid_bounds e wf_sane wf_fits) as (_ & _ & _ & _ & _ & H2 & _).
  pose proof (offset_last e) as Hlast.
  rewrite uadd_small by lia. lia.
Qed.

Lemma wf_connections (p : N) :
  m_n e <= p -> p < m_n e + m_r e * m_c e ->
  connections e p
  = map (fun t => (m_x e).[gene_pos e p + t]) (range 1 (_get_arity e p + 1)).
Proof.
  intros Hlo Hhi. unfold connections. apply map_ext_in.
  intros t Ht. apply In_range in Ht.
  destruct (wf_gene_index p t Hlo Hhi ltac:(lia)) as [-> _]. reflexivity.
Qed.

Lemma wf_connections_backward : connections_backward e.
Proof.
  intros p id Hlo Hrank Hin.
  pose proof (grid_bounds e wf_sane wf_fits) as (Hn & Hr & _).
  apply rank_in_grid in Hrank; [|assumption].
  rewrite wf_connections in Hin by assumption.
  apply in_map_iff in Hin. destruct Hin as [t [<- Ht]]. apply In_range in Ht.
  destruct (wf_gene_index p t Hlo Hrank ltac:(lia)) as [_ Hlt].
  pose proof (offset_last e) as Hlast.
  pose proof (wf_gene_bounds (gene_pos e p + t) ltac:(lia)) as [_ Hub].
  rewrite wf_get_arity in Ht by assumption.
  rewrite (ub_at_connection_gene e wf_sane wf_fits) in Hub by (try assumption; lia).
  unfold conn_ub in Hub. unfold rank.
  replace (p <? m_n e) with false by (symmetry; apply N.ltb_ge; lia).
  set (col := (p - m_n e) / m_r e) in *.
  destruct ((m_x e).[gene_pos e p + t] <? m_n e) eqn:Hid; [lia|].
  apply N.ltb_ge in Hid.
  assert ((m_x e).[gene_pos e p + t] - m_n e < m_r e * col) by lia.
  assert (((m_x e).[gene_pos e p + t] - m_n e) / m_r e < col)
    by (apply N.Div0.div_lt_upper_bound; lia).
  lia.
Qed.

Lemma wf_output_ranks (p : N) : In p (output_nodes e) -> rank e p <= m_c e.
Proof.
  intros Hin. pose proof (grid_bounds e wf_sane wf_fits) as (_ & Hr & _).
  apply rank_in_grid; [assumption | now apply wf_outputs_in_grid].
Qed.

(** [update_data_structures] ends on a well-formed object. *)
Lemma wf_back_wave :
  exists active, back_wave e (wave_budget e) (output_nodes e) [] = Some active.
Proof.
  apply back_wave_enough_fuel.
  - apply wf_connections_backward.
  - apply wf_output_ranks.
  - unfold wave_budget.
    pose proof (wave_rank_bound e (output_nodes e) (m_c e) wf_output_ranks). lia.
Qed.

End WellFormed.

(** ** Outcomes and invariants *)

Lemma post_bind {A B : Type} (c : M A) (k : A -> M B) (e : expression)
  (Q' : A -> expression -> Prop) (Q : B -> expression -> Prop)
  (R : expression -> Prop) (U : Prop) :
  post (c e) Q' R U ->
  (forall a e', Q' a e' -> post (k a e') Q R U) ->
  post (bind c k e) Q R U.
Proof.
  unfold bind, post. intros Hc Hk. destruct (c e); auto. now apply Hk.
Qed.

Lemma post_weaken {A : Type} (o : outcome A)
  (Q Q' : A -> expression -> Prop) (R R' : expression -> Prop) (U U' : Prop) :
  post o Q R U ->
  (forall a e, Q a e -> Q' a e) -> (forall e, R e -> R' e) -> (U -> U') ->
  post o Q' R' U'.
Proof. unfold post. intros H HQ HR HU. destruct o; auto. Qed.

Lemma post_no_throw {A : Type} (o : outcome A)
  (Q : A -> expression -> Prop) (R : expression -> Prop) (U : Prop) :
  post o Q (fun _ => False) False -> post o Q R U.
Proof. unfold post. destruct o; tauto. Qed.

Lemma post_foldM {A B : Type} (body : B -> A -> M B) (l : list A)
  (I : B -> expression -> Prop) (R : expression -> Prop) (U : Prop) :
  (forall b a e, In a l -> I b e -> post (body b a e) I R U) ->
  forall b e, I b e -> post (foldM body l b e) I R U.
Proof.
  induction l as [|a t IH]; intros Hbody b e Hb.
  - exact Hb.
  - simpl foldM. eapply post_bind.
    + apply Hbody; [now left | exact Hb].
    + intros b' e' Hb'. apply IH; auto. intros. apply Hbody; auto. now right.
Qed.

Lemma post_draw (a b : N) (e : expression)
  (Q : N -> expression -> Prop) (R : expression -> Prop) (U : Prop) :
  (forall v g, (a <= b -> a <= v /\ v <= b) -> Q v (with_e e g)) ->
  post (draw a b e) Q R U.
Proof.
  intros H. unfold draw.
  pose proof (uniform_int_range a b (m_e e)) as Hr.
  destruct (uniform_int a b (m_e e)) as [v g]. simpl in *. now apply H.
Qed.

Lemma same_shape_refl (e : expression) : same_shape e e.
Proof. repeat split. Qed.

Lemma same_shape_trans (e1 e2 e3 : expression) :
  same_shape e1 e2 -> same_shape e2 e3 -> same_shape e1 e3.
Proof.
  unfold same_shape. intros H1 H2.
  repeat match goal with H : _ /\ _ |- _ => destruct H end.
  repeat split; congruence.
Qed.

Lemma same_shape_sym (e1 e2 : expression) : same_shape e1 e2 -> same_shape e2 e1.
Proof.
  unfold same_shape. intros H1.
  repeat match goal with H : _ /\ _ |- _ => destruct H end.
  repeat split; congruence.
Qed.

Lemma shape_ok_same (e e' : expression) : same_shape e e' -> shape_ok e -> shape_ok e'.
Proof.
  destruct e, e'. unfold same_shape. simpl.
  intros H. repeat match goal with H : _ /\ _ |- _ => destruct H end. subst.
  exact (fun H => H).
Qed.

Lemma with_active_same (e : expression) :
  with_active e (m_active_nodes e) (m_active_genes e) = e.
Proof. now destruct e. Qed.

Lemma with_x_same (e : expression) : with_x e (m_x e) = e.
Proof. now destruct e. Qed.

Lemma flat_map_agree {A B : Type} (f g : A -> list B) (l : list A) :
  (forall a, In a l -> f a = g a) -> flat_map f l = flat_map g l.
Proof.
  induction l as [|a t IH]; intros H; simpl; [reflexivity|].
  rewrite H by now left. f_equal. apply IH. intros. apply H. now right.
Qed.

Lemma back_wave_agree (e e' : expression) (fuel : nat) (current active res : list N) :
  m_n e = m_n e' ->
  back_wave e fuel current active = Some res ->
  (forall p, In p res -> m_n e <= p -> connections e p = connections e' p) ->
  back_wave e' fuel current active = Some res.
Proof.
  intros Hn. revert current active.
  induction fuel as [|fuel IH]; intros current active H Hconn; [discriminate|].
  pose proof (back_wave_spec e _ _ _ _ H) as Hspec.
  rewrite back_wave_eq in *.
  assert (Hnext : next_wave e' current = next_wave e current).
  { unfold next_wave, functions_of. rewrite <- Hn. do 2 f_equal.
    apply flat_map_agree. intros p Hp. apply filter_In in Hp. destruct Hp as [Hp Hlo].
    symmetry. apply Hconn.
    - apply Hspec. right. now apply reach_here.
    - now apply N.leb_le. }
  assert (Hin : inputs_of e' current = inputs_of e current)
    by (unfold inputs_of; now rewrite Hn).
  rewrite Hnext, Hin. destruct (0 <? size (next_wave e current)); auto.
Qed.

Lemma back_wave_cong (e e' : expression) (fuel : nat) (current active : list N) :
  m_n e = m_n e' -> (forall p, connections e p = connections e' p) ->
  back_wave e fuel current active = back_wave e' fuel current active.
Proof.
  intros Hn Hconn.
  destruct (back_wave e fuel current active) as [res|] eqn:H.
  - symmetry. eapply back_wave_agree; eauto.
  - destruct (back_wave e' fuel current active) as [res|] eqn:H'; auto.
    rewrite (back_wave_agree e' e fuel current active res) in H; auto; discriminate.
Qed.

Lemma update_with_e (e : expression) (g : G) :
  update_data_structures (with_e e g)
  = match update_data_structures e with
    | Ret a e' => Ret a (with_e e' g)
    | Throw e' => Throw (with_e e' g)
    | Undef => Undef
    | OutOfFuel => OutOfFuel
    end.
Proof.
  unfold update_data_structures.
  rewrite (back_wave_cong (with_e e g) e) by reflexivity.
  change (wave_budget (with_e e g)) with (wave_budget e).
  change (output_nodes (with_e e g)) with (output_nodes e).
  destruct (back_wave e (wave_budget e) (output_nodes e) []); reflexivity.
Qed.

Lemma consistent_with_e (e : expression) (g : G) : consistent e -> consistent (with_e e g).
Proof. unfold consistent. intros H. now rewrite update_with_e, H. Qed.

Lemma wf_with_e (e : expression) (g : G) : wf e -> wf (with_e e g).
Proof.
  intros [Hs Hv]. split.
  - apply (shape_ok_same e); [repeat split | assumption].
  - exact Hv.
Qed.

Lemma invariant_with_e (e : expression) (g : G) : invariant e -> invariant (with_e e g).
Proof. intros [H1 H2]. split; [now apply wf_with_e | now apply consistent_with_e]. Qed.

Lemma wf_with_active (e : expression) (nodes genes : list N) :
  wf e -> wf (with_active e nodes genes).
Proof.
  intros [Hs Hv]. split.
  - apply (shape_ok_same e); [repeat split | assumption].
  - exact Hv.
Qed.

(** On a well-formed object [update_data_structures] returns, and it
    changes the two active sets only. *)
Lemma update_spec (e : expression) :
  wf e ->
  exists nodes genes,
    update_data_structures e = Ret tt (with_active e nodes genes) /\
    invariant (with_active e nodes genes).
Proof.
  intros Hwf. destruct (wf_back_wave e Hwf) as [active Hactive].
  exists (unique (sort active)), (collect_active_genes e (unique (sort active))).
  assert (Hupd : update_data_structures e
                 = Ret tt (with_active e (unique (sort active))
                             (collect_active_genes e (unique (sort active)))))
    by (unfold update_data_structures; now rewrite Hactive).
  split; [exact Hupd|]. split; [now apply wf_with_active|].
  unfold consistent, update_data_structures.
  rewrite (back_wave_cong _ e) by reflexivity.
  change (wave_budget (with_active e _ _)) with (wave_budget e).
  change (output_nodes (with_active e _ _)) with (output_nodes e).
  rewrite Hactive. reflexivity.
Qed.

Lemma wf_write_gene (e : expression) (k v : N) :
  wf e -> k < size (m_x e) -> (m_lb e).[k] <= v -> v <= (m_ub e).[k] ->
  wf (with_x e (upd (m_x e) k v)).
Proof.
  intros [Hs Hv] Hk Hlo Hhi. split.
  - apply (shape_ok_same e); [repeat split | assumption].
  - apply is_valid_spec in Hv. destruct Hv as [Hsz Hb].
    apply is_valid_spec. simpl. rewrite size_upd. split; [assumption|].
    intros i Hi. destruct (N.eq_dec i k) as [-> | Hne].
    + rewrite at_upd_same by assumption. lia.
    + rewrite at_upd_other by assumption. now apply Hb.
Qed.

(** ** The mutators, one by one *)

Lemma draw_new_value_spec (fuel : nat) (lo hi cur : N) (e : expression) :
  post (draw_new_value fuel lo hi cur e)
       (fun v e' => (exists g, e' = with_e e g) /\ v <> cur /\
                    (lo <= hi -> lo <= v /\ v <= hi))
       (fun _ => False) False.
Proof.
  revert e. induction fuel as [|fuel IH]; intros e; [exact I|].
  simpl draw_new_value.
  apply (post_bind _ _ _
           (fun v e' => (exists g, e' = with_e e g) /\ (lo <= hi -> lo <= v /\ v <= hi))).
  - apply post_draw. intros v g Hr. eauto.
  - intros v e' [[g ->] Hr]. destruct (v =? cur) eqn:Hv.
    + eapply post_weaken; [apply IH | | auto | auto].
      intros v' e'' ([g' ->] & Hne & Hr'). split; [|auto]. now exists g'.
    + apply N.eqb_neq in Hv. simpl. eauto.
Qed.

Lemma redraw_gene_spec (fuel : nat) (idx : N) (e : expression) :
  post (redraw_gene fuel idx e) (gene_redrawn e idx) (fun _ => False) False.
Proof.
  unfold redraw_gene, bind at 1 2, read.
  destruct ((m_lb e).[idx] <? (m_ub e).[idx]) eqn:Hlt.
  - apply N.ltb_lt in Hlt. unfold bind at 1.
    eapply post_bind; [apply draw_new_value_spec|].
    intros v e' ([g ->] & Hne & Hr). simpl.
    exists v, g. repeat split; auto; apply Hr; lia.
  - apply N.ltb_ge in Hlt. simpl. auto.
Qed.

Lemma gene_redrawn_wf (e : expression) (idx : N) (changed : bool) (e' : expression) :
  wf e -> idx < size (m_x e) -> gene_redrawn e idx changed e' ->
  wf e' /\ same_shape e e' /\ size (m_x e') = size (m_x e).
Proof.
  intros Hwf Hidx. destruct changed; simpl.
  - intros (v & g & -> & _ & Hlo & Hhi & _). split; [|split].
    + apply (wf_write_gene (with_e e g)); auto.
    + repeat split.
    + simpl. apply size_upd.
  - intros [-> _]. split; [|split]; [assumption | apply same_shape_refl | reflexivity].
Qed.

Lemma mutate_spec (fuel : nat) (idx : N) (e : expression) :
  invariant e ->
  post (mutate fuel idx e)
       (fun _ e' => invariant e' /\ gene_mutated e idx e')
       (fun e' => e' = e /\ size (m_x e) <= idx) False.
Proof.
  intros [Hwf Hcons]. unfold mutate, bind at 1, read.
  destruct (size (m_x e) <=? idx) eqn:Hsz.
  - apply N.leb_le in Hsz. simpl. auto.
  - apply N.leb_gt in Hsz.
    eapply post_bind; [apply post_no_throw, redraw_gene_spec|].
    intros changed e1 Hred.
    destruct (gene_redrawn_wf e idx changed e1 Hwf Hsz Hred) as (Hwf1 & Hshape & Hsize).
    destruct changed; simpl in Hred.
    + destruct Hred as (v & g & He1 & Hne & Hlo & Hhi & Hlt).
      destruct (update_spec e1 Hwf1) as (nodes & genes & Hupd & Hinv).
      rewrite Hupd. simpl. split; [assumption|].
      split; [assumption|]. split.
      * eapply same_shape_trans; [exact Hshape | repeat split].
      * left. split; [assumption|]. exists v. subst e1. simpl. auto.
    + destruct Hred as [-> Hge]. simpl.
      split; [split; assumption|]. split; [assumption|]. split; [assumption|].
      right. split; [assumption | reflexivity].
Qed.

Lemma gene_mutated_size (e : expression) (idx : N) (e' : expression) :
  gene_mutated e idx e' -> size (m_x e') = size (m_x e).
Proof.
  intros (_ & _ & [[_ (v & -> & _)] | [_ ->]]); [apply size_upd | reflexivity].
Qed.

(** The loops that write genes and refresh once at the end. *)
Lemma mutate_idxs_spec (fuel : nat) (idxs : list N) (e : expression) :
  invariant e ->
  post (mutate_idxs fuel idxs e)
       (fun _ e' => invariant e' /\ same_shape e e')
       (fun e' => wf e' /\ same_shape e e') False.
Proof.
  intros [Hwf Hcons]. unfold mutate_idxs.
  apply (post_bind _ _ _
    (fun flag e' => wf e' /\ same_shape e e' /\ (flag = false -> consistent e'))).
  - apply post_foldM; [|split; [assumption | split; [apply same_shape_refl | auto]]].
    intros flag idx e1 _ (Hwf1 & Hshape1 & Hflag).
    unfold bind at 1, read. destruct (size (m_x e1) <=? idx) eqn:Hsz.
    + simpl. auto.
    + apply N.leb_gt in Hsz.
      eapply post_bind; [apply post_no_throw, redraw_gene_spec|].
      intros changed e2 Hred.
      destruct (gene_redrawn_wf e1 idx changed e2 Hwf1 Hsz Hred) as (Hwf2 & Hshape2 & _).
      simpl. split; [assumption|]. split; [eapply same_shape_trans; eauto|].
      destruct changed; [discriminate|]. destruct Hred as [-> _]. exact Hflag.
  - intros flag e1 (Hwf1 & Hshape1 & Hflag). destruct flag.
    + destruct (update_spec e1 Hwf1) as (nodes & genes & Hupd & Hinv).
      rewrite Hupd. simpl. split; [assumption|].
      eapply same_shape_trans; [exact Hshape1 | repeat split].
    + simpl. split; [split; auto | assumption].
Qed.

Lemma wf_last_index (e : expression) :
  wf e -> to_unsigned (zsub (size (m_lb e)) 1) = genome_size e - 1 /\ 0 < genome_size e.
Proof.
  intros Hwf. destruct (shape_tables e (proj1 Hwf)) as (-> & _).
  rewrite (size_lb_table e).
  pose proof (grid_bounds e (wf_sane e Hwf) (wf_fits e Hwf)) as (_ & _ & _ & Hm & _ & H2 & _).
  pose proof (offset_last e). pose proof two32_lt_two64.
  rewrite zsub_small by lia. rewrite to_unsigned_small by lia. lia.
Qed.

Lemma mutate_random_spec (fuel : nat) (n : N) (e : expression) :
  invariant e ->
  post (mutate_random fuel n e)
       (fun _ e' => invariant e' /\ same_shape e e') (fun _ => False) False.
Proof.
  intros [Hwf Hcons]. unfold mutate_random.
  apply (post_bind _ _ _
    (fun flag e' => wf e' /\ same_shape e e' /\ (flag = false -> consistent e'))).
  - apply post_foldM; [|split; [assumption | split; [apply same_shape_refl | auto]]].
    intros flag i e1 _ (Hwf1 & Hshape1 & Hflag).
    unfold bind at 1, read.
    destruct (wf_last_index e1 Hwf1) as [-> Hpos].
    apply (post_bind _ _ _
      (fun idx e2 => idx < size (m_x e1) /\ exists g, e2 = with_e e1 g)).
    + apply post_draw. intros v g Hr. split; [|eauto].
      rewrite (wf_size e1 Hwf1). specialize (Hr (N.le_0_l _)). lia.
    + intros idx e2 [Hidx [g ->]].
      eapply post_bind; [apply post_no_throw, redraw_gene_spec|].
      intros changed e3 Hred.
      destruct (gene_redrawn_wf (with_e e1 g) idx changed e3
                  (wf_with_e e1 g Hwf1) Hidx Hred) as (Hwf3 & Hshape3 & _).
      simpl. split; [assumption|]. split.
      * eapply same_shape_trans; [exact Hshape1|].
        eapply same_shape_trans; [|exact Hshape3]. repeat split.
      * destruct changed; [discriminate|]. destruct Hred as [-> _].
        intros Hf. apply consistent_with_e. auto.
  - intros flag e1 (Hwf1 & Hshape1 & Hflag). destruct flag.
    + destruct (update_spec e1 Hwf1) as (nodes & genes & Hupd & Hinv).
      rewrite Hupd. simpl. split; [assumption|].
      eapply same_shape_trans; [exact Hshape1 | repeat split].
    + simpl. split; [split; auto | assumption].
Qed.

Lemma with_e_same (e : expression) : with_e e (m_e e) = e.
Proof. now destruct e. Qed.

Lemma mutate_keeps (fuel : nat) (idx : N) (e0 e : expression) (U : Prop) :
  invariant e -> same_shape e0 e ->
  post (mutate fuel idx e)
       (fun _ e' => invariant e' /\ same_shape e0 e')
       (fun e' => invariant e' /\ same_shape e0 e') U.
Proof.
  intros Hinv Hshape. eapply post_weaken; [apply (mutate_spec fuel idx e Hinv) | | | tauto].
  - intros _ e' [Hinv' (_ & Hs & _)]. split; [assumption|].
    eapply same_shape_trans; eauto.
  - intros e' [-> _]. auto.
Qed.

Lemma mutate_active_spec (fuel : nat) (n : N) (e : expression) :
  invariant e ->
  post (mutate_active fuel n e)
       (fun _ e' => invariant e' /\ same_shape e e')
       (fun e' => invariant e' /\ same_shape e e') False.
Proof.
  intros Hinv. unfold mutate_active.
  apply (post_foldM _ _ (fun _ e' => invariant e' /\ same_shape e e'));
    [|split; [assumption | apply same_shape_refl]].
  intros [] _ e1 _ [Hinv1 Hshape1]. unfold bind at 1, read.
  apply (post_bind _ _ _ (fun _ e2 => invariant e2 /\ same_shape e e2)).
  - apply post_draw. intros v g _. split; [now apply invariant_with_e|].
    eapply same_shape_trans; [exact Hshape1 | repeat split].
  - intros k e2 [Hinv2 Hshape2]. unfold bind at 1, read.
    now apply mutate_keeps.
Qed.

Lemma pick_function_node_spec (fuel : nat) (node_id : N) (e : expression) :
  post (pick_function_node fuel node_id e)
       (fun id e' => m_n e <= id /\ exists g, e' = with_e e g) (fun _ => False) False.
Proof.
  revert node_id e. induction fuel as [|fuel IH]; intros node_id e.
  - simpl. unfold bind, read. destruct (node_id <? m_n e) eqn:Hlt; simpl; auto.
    apply N.ltb_ge in Hlt. split; [assumption|]. exists (m_e e). now rewrite with_e_same.
  - simpl. unfold bind at 1, read. destruct (node_id <? m_n e) eqn:Hlt.
    + unfold bind at 1.
      apply (post_bind _ _ _ (fun _ e' => exists g, e' = with_e e g)).
      * apply post_draw. eauto.
      * intros k e' [g ->]. unfold bind at 1, read.
        eapply post_weaken; [apply IH | | auto | auto].
        intros id e'' [Hid [g' ->]]. split; [exact Hid | now exists g'].
    + simpl. apply N.ltb_ge in Hlt. split; [assumption|].
      exists (m_e e). now rewrite with_e_same.
Qed.

Lemma mutate_active_fgene_spec (fuel : nat) (n : N) (e : expression) :
  invariant e ->
  post (mutate_active_fgene fuel n e)
       (fun _ e' => invariant e' /\ same_shape e e')
       (fun e' => invariant e' /\ same_shape e e') False.
Proof.
  intros Hinv. unfold mutate_active_fgene, bind at 1, read.
  destruct (m_m e <? size (m_active_genes e));
    [|simpl; split; [assumption | apply same_shape_refl]].
  apply (post_foldM _ _ (fun _ e' => invariant e' /\ same_shape e e'));
    [|split; [assumption | apply same_shape_refl]].
  intros [] _ e1 _ [Hinv1 Hshape1].
  apply (post_bind _ _ _ (fun _ e2 => invariant e2 /\ same_shape e e2)).
  - apply post_no_throw.
    eapply post_weaken; [apply pick_function_node_spec | | auto | auto].
    intros id e2 [_ [g ->]]. split; [now apply invariant_with_e|].
    eapply same_shape_trans; [exact Hshape1 | repeat split].
  - intros id e2 [Hinv2 Hshape2]. unfold bind at 1, read. now apply mutate_keeps.
Qed.

Lemma mutate_active_cgene_spec (fuel : nat) (n : N) (e : expression) :
  invariant e ->
  post (mutate_active_cgene fuel n e)
       (fun _ e' => invariant e' /\ same_shape e e')
       (fun e' => invariant e' /\ same_shape e e') False.
Proof.
  intros Hinv. unfold mutate_active_cgene, bind at 1, read.
  destruct (m_m e <? size (m_active_genes e));
    [|simpl; split; [assumption | apply same_shape_refl]].
  apply (post_foldM _ _ (fun _ e' => invariant e' /\ same_shape e e'));
    [|split; [assumption | apply same_shape_refl]].
  intros [] _ e1 _ [Hinv1 Hshape1].
  apply (post_bind _ _ _ (fun _ e2 => invariant e2 /\ same_shape e e2)).
  - apply post_no_throw.
    eapply post_weaken; [apply pick_function_node_spec | | auto | auto].
    intros id e2 [_ [g ->]]. split; [now apply invariant_with_e|].
    eapply same_shape_trans; [exact Hshape1 | repeat split].
  - intros id e2 [Hinv2 Hshape2]. unfold bind at 1, read.
    apply (post_bind _ _ _ (fun _ e3 => invariant e3 /\ same_shape e e3)).
    + apply post_draw. intros v g _. split; [now apply invariant_with_e|].
      eapply same_shape_trans; [exact Hshape2 | repeat split].
    + intros k e3 [Hinv3 Hshape3]. unfold bind at 1, read. now apply mutate_keeps.
Qed.

(** [mutate_ogene(0)] with more than one output reads [idx] before any
    value was given to it: that case is left open here. *)
Lemma mutate_ogene_spec (fuel : nat) (n : N) (e : expression) :
  invariant e ->
  post (mutate_ogene fuel n e)
       (fun _ e' => invariant e' /\ same_shape e e')
       (fun e' => invariant e' /\ same_shape e e') True.
Proof.
  intros Hinv. unfold mutate_ogene, bind at 1, read.
  apply (post_bind _ _ _ (fun _ e1 => invariant e1 /\ same_shape e e1)).
  - destruct (1 <? m_m e).
    + apply (post_foldM _ _ (fun _ e' => invariant e' /\ same_shape e e'));
        [|split; [assumption | apply same_shape_refl]].
      intros o _ e1 _ [Hinv1 Hshape1]. unfold bind at 1 2, read.
      eapply post_bind; [|intros v e2 H; exact H].
      apply post_draw. intros v g _. split; [now apply invariant_with_e|].
      eapply same_shape_trans; [exact Hshape1 | repeat split].
    + simpl. split; [assumption | apply same_shape_refl].
  - intros [idx|] e1 [Hinv1 Hshape1]; [|exact I].
    unfold bind at 1, read. now apply mutate_keeps.
Qed.

Lemma set_spec (x : list N) (e : expression) :
  shape_ok e ->
  post (set x e)
       (fun _ e' => invariant e' /\ m_x e' = x /\ same_shape e e')
       (fun e' => e' = e /\ is_valid e x = false) False.
Proof.
  intros Hshape. unfold set, bind at 1, read.
  destruct (is_valid e x) eqn:Hvalid; simpl; [|auto].
  unfold bind, modify.
  assert (Hwf : wf (with_x e x)).
  { split; [apply (shape_ok_same e); [repeat split | assumption] | exact Hvalid]. }
  destruct (update_spec _ Hwf) as (nodes & genes & Hupd & Hinv).
  rewrite Hupd. split; [assumption|]. split; [reflexivity | repeat split].
Qed.

Lemma seed_spec (s : N) (e : expression) :
  invariant e ->
  post (seed s e) (fun _ e' => invariant e' /\ same_shape e e') (fun _ => False) False.
Proof.
  intros Hinv. unfold seed, modify. simpl. split; [now apply invariant_with_e | repeat split].
Qed.

(** *** The genes of different nodes do not overlap *)

Lemma gene_pos_mono (e : expression) (p q : N) :
  sanity_checks e = true -> fits e = true ->
  m_n e <= p -> p < q -> q < m_n e + m_r e * m_c e ->
  gene_pos e p + (m_arity e).[(p - m_n e) / m_r e] + 1 <= gene_pos e q.
Proof.
  intros Hsane Hfits Hlo Hpq Hhi.
  destruct (grid_position e Hsane Hfits p Hlo ltac:(lia)) as (Hcp & Hrp & Hp).
  destruct (grid_position e Hsane Hfits q ltac:(lia) Hhi) as (Hcq & Hrq & Hq).
  destruct (gene_pos_room e Hsane Hfits p Hlo ltac:(lia)) as (Hroom & _).
  revert Hroom. unfold gene_pos.
  set (cp := (p - m_n e) / m_r e) in *. set (rp := (p - m_n e) mod m_r e) in *.
  set (cq := (q - m_n e) / m_r e) in *. set (rq := (q - m_n e) mod m_r e) in *.
  intros Hroom.
  assert (Hle : cp <= cq) by (apply N.Div0.div_le_mono; lia).
  destruct (N.eq_dec cp cq) as [Heq | Hne].
  - rewrite <- Heq in *. assert (rp < rq) by lia.
    assert ((rp + 1) * ((m_arity e).[cp] + 1) <= rq * ((m_arity e).[cp] + 1))
      by (apply N.mul_le_mono_r; lia).
    lia.
  - pose proof (offset_mono e (cp + 1) cq ltac:(lia)). lia.
Qed.

Lemma gene_pos_disjoint (e : expression) (p q t : N) :
  sanity_checks e = true -> fits e = true ->
  m_n e <= p -> p < m_n e + m_r e * m_c e ->
  m_n e <= q -> q < m_n e + m_r e * m_c e ->
  1 <= t -> t <= (m_arity e).[(p - m_n e) / m_r e] ->
  gene_pos e p + t <> gene_pos e q.
Proof.
  intros Hsane Hfits Hp1 Hp2 Hq1 Hq2 Ht1 Ht2.
  destruct (N.lt_trichotomy p q) as [Hlt | [-> | Hgt]].
  - pose proof (gene_pos_mono e p q Hsane Hfits Hp1 Hlt Hq2). lia.
  - lia.
  - pose proof (gene_pos_mono e q p Hsane Hfits Hq1 Hgt Hp2). lia.
Qed.

Lemma reach_in_grid (e : expression) (id : N) :
  wf e -> reach_from e (output_nodes e) id -> id < m_n e + m_r e * m_c e.
Proof.
  intros Hwf Hreach.
  pose proof (grid_bounds e (wf_sane e Hwf) (wf_fits e Hwf)) as (_ & Hr & _).
  apply rank_in_grid; [assumption|].
  induction Hreach as [id Hin | p id Hp IH Hlo Hid].
  - now apply wf_output_ranks.
  - pose proof (wf_connections_backward e Hwf p id Hlo IH Hid). lia.
Qed.

Lemma collect_active_genes_with_x (e : expression) (x : list N) (nodes : list N) :
  size x = size (m_x e) ->
  collect_active_genes (with_x e x) nodes = collect_active_genes e nodes.
Proof.
  intros Hsz. unfold collect_active_genes. simpl. now rewrite Hsz.
Qed.

(** Writing a function gene leaves the active sets the ones of the
    chromosome. *)
Lemma write_function_gene_consistent (e : expression) (node_id f_id : N) :
  invariant e ->
  m_n e <= node_id -> node_id < m_n e + m_r e * m_c e -> f_id <= size (m_f e) - 1 ->
  invariant (with_x e (upd (m_x e) (m_gene_idx e).[node_id] f_id)).
Proof.
  intros [Hwf Hcons] Hlo Hhi Hf.
  pose proof (wf_sane e Hwf) as Hsane. pose proof (wf_fits e Hwf) as Hfits.
  pose proof (wf_gene_idx e Hwf node_id Hlo Hhi) as Hg.
  destruct (gene_pos_room e Hsane Hfits node_id Hlo Hhi) as (Hroom1 & Hroom2).
  pose proof (offset_last e) as Hlast.
  destruct (shape_tables e (proj1 Hwf)) as (Hlb & Hub & _).
  set (e' := with_x e (upd (m_x e) (m_gene_idx e).[node_id] f_id)).
  assert (Hwf' : wf e').
  { apply wf_write_gene; auto.
    - rewrite (wf_size e Hwf), Hg. lia.
    - rewrite Hlb, Hg, (lb_at_function_gene e Hsane Hfits) by assumption. lia.
    - rewrite Hub, Hg, (ub_at_function_gene e Hsane Hfits) by assumption. lia. }
  split; [exact Hwf'|].
  assert (Hx : forall k, k <> gene_pos e node_id -> (m_x e').[k] = (m_x e).[k]).
  { intros k Hk. unfold e'. simpl. rewrite Hg. now apply at_upd_other. }
  unfold consistent in *. unfold update_data_structures in *.
  destruct (back_wave e (wave_budget e) (output_nodes e) []) as [active|] eqn:Hbw;
    [|discriminate].
  assert (Hout : output_nodes e' = output_nodes e).
  { rewrite !output_nodes_eq. apply map_ext_in. intros i Hi. apply In_range in Hi.
    change (size (m_x e')) with (size (upd (m_x e) (m_gene_idx e).[node_id] f_id)).
    rewrite size_upd. change (m_m e') with (m_m e) in *.
    destruct (wf_output_index e Hwf i (proj2 Hi)) as (-> & _ & _).
    apply Hx. lia. }
  change (wave_budget e') with (wave_budget e). rewrite Hout.
  rewrite (back_wave_agree e e' _ _ _ active eq_refl Hbw).
  - unfold e' at 2. rewrite collect_active_genes_with_x by apply size_upd.
    injection Hcons as Hcons.
    assert (Hn : unique (sort active) = m_active_nodes e)
      by exact (f_equal m_active_nodes Hcons).
    assert (Hgs : collect_active_genes e (unique (sort active)) = m_active_genes e)
      by exact (f_equal m_active_genes Hcons).
    rewrite Hgs, Hn. f_equal.
  - intros p Hp Hplo.
    assert (Hphi : p < m_n e + m_r e * m_c e).
    { apply reach_in_grid; [assumption|].
      apply (back_wave_spec e _ _ _ _ Hbw) in Hp. destruct Hp as [[] | Hp]. exact Hp. }
    rewrite (wf_connections e Hwf p Hplo Hphi).
    rewrite (wf_connections e' Hwf' p Hplo Hphi).
    change (_get_arity e' p) with (_get_arity e p). change (gene_pos e' p) with (gene_pos e p).
    apply map_ext_in. intros t Ht. apply In_range in Ht. symmetry. apply Hx.
    rewrite (wf_get_arity e Hwf p Hplo Hphi) in Ht.
    apply gene_pos_disjoint; auto; lia.
Qed.

Lemma set_f_gene_spec (node_id f_id : N) (e : expression) :
  invariant e ->
  post (set_f_gene node_id f_id e)
       (fun _ e' => invariant e' /\
                    e' = with_x e (upd (m_x e) (m_gene_idx e).[node_id] f_id) /\
                    m_n e <= node_id /\ node_id < m_n e + m_r e * m_c e /\
                    f_id <= size (m_f e) - 1)
       (fun e' => e' = e) False.
Proof.
  intros Hinv. pose proof Hinv as [Hwf _].
  pose proof (grid_bounds e (wf_sane e Hwf) (wf_fits e Hwf))
    as (Hn & Hr & Hc & Hm & H1 & H2 & H3 & H4 & Hf & Hf').
  pose proof two32_lt_two64.
  unfold set_f_gene, bind at 1, read. rewrite zsub_small by lia.
  destruct (size (m_f e) - 1 <? f_id) eqn:Hfid; [reflexivity|].
  apply N.ltb_ge in Hfid. unfold bind at 1.
  rewrite umul_small by lia. rewrite uadd_small by lia. rewrite usub_small by lia.
  destruct (node_id <? m_n e) eqn:Hlo; [reflexivity|].
  destruct (m_n e + m_c e * m_r e - 1 <? node_id) eqn:Hhi; [reflexivity|].
  apply N.ltb_ge in Hlo, Hhi. simpl.
  assert (node_id < m_n e + m_r e * m_c e) by lia.
  split; [now apply write_function_gene_consistent|]. auto.
Qed.

(** *** Construction *)

Lemma post_foldM_prefix {A B : Type} (body : B -> A -> M B) (l : list A)
  (I : list A -> B -> expression -> Prop) (R : expression -> Prop) (U : Prop) :
  (forall pre a b e, In a l -> I pre b e -> post (body b a e) (I (pre ++ [a])) R U) ->
  forall b e, I [] b e -> post (foldM body l b e) (I l) R U.
Proof.
  intros Hbody.
  assert (Hgen : forall rest pre b e,
            (forall a, In a rest -> In a l) -> I pre b e ->
            post (foldM body rest b e) (I (pre ++ rest)) R U).
  { induction rest as [|a t IH]; intros pre b e Hsub Hb.
    - simpl. now rewrite app_nil_r.
    - simpl foldM. eapply post_bind.
      + apply Hbody; [apply Hsub; now left | exact Hb].
      + intros b' e' Hb'. replace (pre ++ a :: t) with ((pre ++ [a]) ++ t)
          by now rewrite <- app_assoc.
        apply IH; auto. intros. apply Hsub. now right. }
  intros b e Hb. apply (Hgen l [] b e); auto.
Qed.

Lemma fits_same (e e' : expression) : same_shape e e' -> fits e = fits e'.
Proof.
  destruct e, e'. unfold same_shape. simpl.
  intros H. repeat match goal with H : _ /\ _ |- _ => destruct H end. now subst.
Qed.

Lemma random_chromosome_spec (e : expression) :
  shape_ok e -> size (m_x e) = genome_size e ->
  post (random_chromosome e) (fun _ e' => wf e' /\ same_shape e e') (fun _ => False) False.
Proof.
  intros Hshape Hsize. unfold random_chromosome, bind at 1, read.
  destruct (shape_tables e Hshape) as (Hlb & Hub & _).
  pose proof Hshape as (Hsane & Hfits & _).
  eapply post_weaken;
    [apply (post_foldM_prefix _ _
              (fun pre _ e' =>
                 same_shape e e' /\ size (m_x e') = genome_size e /\
                 forall j, In j pre ->
                   (m_lb e).[j] <= (m_x e').[j] /\ (m_x e').[j] <= (m_ub e).[j])
              (fun _ => False) False)
    | | auto | auto].
  - intros pre i [] e1 Hi (Hs1 & Hsz1 & Hpre). apply In_range in Hi.
    unfold bind at 1 2, read.
    apply (post_bind _ _ _
      (fun v e2 => (exists g, e2 = with_e e1 g) /\
                   (m_lb e).[i] <= v /\ v <= (m_ub e).[i])).
    + apply post_draw. intros v g Hr. split; [eauto|].
      destruct Hs1 as (_ & _ & _ & _ & _ & _ & _ & Hl1 & Hu1 & _).
      rewrite <- Hl1, <- Hu1 in Hr.
      apply Hr. rewrite Hlb, Hub. apply Forall2_at. now apply tables_ordered.
    + intros v e2 ([g ->] & Hlo & Hhi). simpl.
      split; [eapply same_shape_trans; [exact Hs1 | repeat split]|].
      rewrite size_upd. split; [assumption|].
      intros j Hj. destruct (N.eq_dec j i) as [-> | Hne].
      * rewrite at_upd_same by lia. auto.
      * rewrite at_upd_other by assumption. apply Hpre.
        apply in_app_iff in Hj. destruct Hj as [Hj | [Hj | []]]; [assumption | congruence].
  - split; [apply same_shape_refl | split; [assumption | intros j []]].
  - intros [] e' (Hs & Hsz & Hb). split; [|assumption]. split.
    + now apply (shape_ok_same e).
    + apply is_valid_spec.
      destruct Hs as (_ & _ & _ & _ & _ & _ & _ & <- & <- & _).
      split; [rewrite Hsz, Hlb; symmetry; apply size_lb_table|].
      intros i Hi. apply Hb. apply In_range. lia.
Qed.

Lemma construct_spec (n m r c l : N) (arity : list N) (f : list (kernel T)) (s : N) :
  fits (blank n m r c l arity f s) = true ->
  post (construct n m r c l arity f s)
       (fun _ e => invariant e /\
                   m_n e = n /\ m_m e = m /\ m_r e = r /\ m_c e = c /\ m_l e = l /\
                   m_arity e = arity /\ m_f e = f)
       (fun _ => sanity_checks (blank n m r c l arity f s) = false) False.
Proof.
  intros Hfits. unfold construct, bind at 1, read.
  set (e0 := blank n m r c l arity f s) in *.
  destruct (sanity_checks e0) eqn:Hsane; [|reflexivity].
  unfold bind at 1, ret, bind at 1, modify.
  destruct (init_tables e0 Hsane Hfits) as (H1 & H2 & H3 & H4 & H5).
  set (e1 := init_bounds_and_chromosome e0) in *.
  assert (Hshape1 : shape_ok e1).
  { unfold shape_ok. repeat split; try assumption. }
  apply (post_bind _ _ _
    (fun _ e2 => wf e2 /\ same_shape e1 e2)).
  - apply post_no_throw, random_chromosome_spec; [assumption|].
    rewrite H3, size_filled. reflexivity.
  - intros [] e2 [Hwf2 Hs2].
    destruct (update_spec e2 Hwf2) as (nodes & genes & Hupd & Hinv).
    rewrite Hupd. simpl. split; [assumption|].
    destruct Hs2 as (<- & <- & <- & <- & <- & <- & <- & _). repeat split.
Qed.

Lemma construct_uniform_spec (n m r c l arity : N) (f : list (kernel T)) (s : N) :
  fits (blank n m r c l (filled c arity) f s) = true ->
  post (construct_uniform n m r c l arity f s)
       (fun _ e => invariant e /\
                   m_n e = n /\ m_m e = m /\ m_r e = r /\ m_c e = c /\ m_l e = l /\
                   m_arity e = filled c arity /\ m_f e = f)
       (fun _ => sanity_checks (blank n m r c l (filled c arity) f s) = false) False.
Proof. apply construct_spec. Qed.

(** ** Every call keeps the invariant *)

Lemma post_ret {A : Type} (o : outcome A) (a : A) (e : expression)
  (Q : A -> expression -> Prop) (R : expression -> Prop) (U : Prop) :
  post o Q R U -> o = Ret a e -> Q a e.
Proof. intros H ->. exact H. Qed.

Lemma post_throw {A : Type} (o : outcome A) (e : expression)
  (Q : A -> expression -> Prop) (R : expression -> Prop) (U : Prop) :
  post o Q R U -> o = Throw e -> R e.
Proof. intros H ->. exact H. Qed.

(** What every call keeps: the invariant when it returns, and when it
    throws the invariant too, or the well-formedness for [mutate_idxs]. *)
Lemma run_spec (c : member_call) (e : expression) :
  invariant e ->
  post (run c e)
       (fun _ e' => invariant e' /\ same_shape e e')
       (fun e' => (if is_mutate_idxs c then wf e' else invariant e') /\ same_shape e e')
       True.
Proof.
  intros Hinv. destruct c; simpl run; simpl is_mutate_idxs.
  - eapply post_weaken; [apply (set_spec x e (proj1 (proj1 Hinv))) | | | auto].
    + intros _ e' (H1 & _ & H2). auto.
    + intros e' [-> _]. split; [assumption | apply same_shape_refl].
  - eapply post_weaken; [apply (set_f_gene_spec node_id f_id e Hinv) | | | auto].
    + intros _ e' (H1 & -> & _). split; [assumption | repeat split].
    + intros e' ->. split; [assumption | apply same_shape_refl].
  - eapply post_weaken; [apply (seed_spec s e Hinv) | auto | intros _ [] | auto].
  - now apply mutate_keeps; [|apply same_shape_refl].
  - eapply post_weaken; [apply (mutate_idxs_spec fuel idxs e Hinv) | auto | auto | auto].
  - eapply post_weaken; [apply (mutate_random_spec fuel n e Hinv) | auto | intros _ [] | auto].
  - eapply post_weaken; [apply (mutate_active_spec fuel n e Hinv) | auto | auto | auto].
  - eapply post_weaken; [apply (mutate_active_fgene_spec fuel n e Hinv) | auto | auto | auto].
  - eapply post_weaken; [apply (mutate_active_cgene_spec fuel n e Hinv) | auto | auto | auto].
  - apply (mutate_ogene_spec fuel n e Hinv).
Qed.

Lemma reachable_invariant (e : expression) : reachable e -> invariant e.
Proof.
  induction 1 as
    [ n m r c l arity f s e Hfits Hc | n m r c l arity f s e Hfits Hc
    | c e e' _ IH Hc | c e e' _ IH Hnot Hc ].
  - exact (proj1 (post_ret _ _ _ _ _ _ (construct_spec _ _ _ _ _ _ _ _ Hfits) Hc)).
  - exact (proj1 (post_ret _ _ _ _ _ _ (construct_uniform_spec _ _ _ _ _ _ _ _ Hfits) Hc)).
  - exact (proj1 (post_ret _ _ _ _ _ _ (run_spec c e IH) Hc)).
  - pose proof (proj1 (post_throw _ _ _ _ _ (run_spec c e IH) Hc)) as H.
    now rewrite Hnot in H.
Qed.

(** ** The active sets of a state *)

Lemma collect_active_genes_eq (e : expression) (nodes : list N) :
  collect_active_genes e nodes = flat_map (genes_of e) nodes ++ output_genes e.
Proof.
  unfold collect_active_genes. rewrite for_range_append. f_equal.
  assert (Hgen : forall acc,
    fold_left (fun genes node_id =>
      if m_n e <=? node_id then
        for_range 0 (_get_arity e node_id + 1) (fun j genes =>
          genes ++ [uadd (m_gene_idx e).[node_id] j]) genes
      else genes) nodes acc = acc ++ flat_map (genes_of e) nodes).
  { induction nodes as [|id t IH]; intros acc; simpl.
    - now rewrite app_nil_r.
    - rewrite IH. unfold genes_of at 2. destruct (m_n e <=? id).
      + now rewrite for_range_append, <- app_assoc.
      + reflexivity. }
  apply (Hgen []).
Qed.

Lemma invariant_active (e : expression) :
  invariant e ->
  exists active,
    back_wave e (wave_budget e) (output_nodes e) [] = Some active /\
    m_active_nodes e = unique (sort active) /\
    m_active_genes e = collect_active_genes e (m_active_nodes e).
Proof.
  intros [Hwf Hcons]. unfold consistent, update_data_structures in Hcons.
  destruct (back_wave e (wave_budget e) (output_nodes e) []) as [active|]; [|discriminate].
  injection Hcons as Hcons. exists active. split; [reflexivity|].
  assert (Hn : unique (sort active) = m_active_nodes e)
    by exact (f_equal m_active_nodes Hcons).
  assert (Hg : collect_active_genes e (unique (sort active)) = m_active_genes e)
    by exact (f_equal m_active_genes Hcons).
  split; [now symmetry | now rewrite <- Hn, Hg].
Qed.

Lemma invariant_active_reach (e : expression) (id : N) :
  invariant e -> (In id (m_active_nodes e) <-> reach_from e (output_nodes e) id).
Proof.
  intros Hinv. destruct (invariant_active e Hinv) as (active & Hbw & Hn & _).
  rewrite Hn, In_unique, In_sort, (back_wave_spec e _ _ _ _ Hbw). simpl. tauto.
Qed.

Lemma invariant_active_sorted (e : expression) :
  invariant e -> StronglySorted N.lt (m_active_nodes e).
Proof.
  intros Hinv. destruct (invariant_active e Hinv) as (active & _ & -> & _).
  apply sorted_lt_strongly, unique_sorted, sort_sorted.
Qed.

Lemma invariant_active_in_grid (e : expression) (id : N) :
  invariant e -> In id (m_active_nodes e) -> id < m_n e + m_r e * m_c e.
Proof.
  intros Hinv Hin. apply reach_in_grid; [apply Hinv|].
  now apply invariant_active_reach.
Qed.

Lemma wf_output_nodes (e : expression) (id : N) :
  wf e ->
  (In id (output_nodes e) <->
   exists i, i < m_m e /\ id = (m_x e).[size (m_x e) - m_m e + i]).
Proof.
  intros Hwf. rewrite output_nodes_eq, in_map_iff.
  pose proof (wf_size e Hwf) as Hsz. pose proof (offset_last e) as Hlast.
  split.
  - intros [i [<- Hi]]. apply In_range in Hi. destruct Hi as [_ Hi].
    exists i. split; [assumption|].
    destruct (wf_output_index e Hwf i Hi) as (-> & _). f_equal. lia.
  - intros [i [Hi ->]]. exists i. split; [|apply In_range; lia].
    destruct (wf_output_index e Hwf i Hi) as (-> & _). f_equal. lia.
Qed.

Lemma wf_feeds_output (e : expression) (id : N) :
  wf e -> (feeds_output e id <-> reach_from e (output_nodes e) id).
Proof.
  intros Hwf. split.
  - induction 1 as [i Hi | p t Hp IH Hlo Ht1 Ht2].
    + apply reach_here. apply (wf_output_nodes e _ Hwf). eauto.
    + pose proof (reach_in_grid e p Hwf IH) as Hhi.
      eapply reach_step; [exact IH | exact Hlo |].
      rewrite (wf_connections e Hwf p Hlo Hhi), (wf_gene_idx e Hwf p Hlo Hhi).
      apply in_map_iff. exists t. split; [reflexivity|]. apply In_range.
      rewrite (wf_get_arity e Hwf p Hlo Hhi). lia.
  - induction 1 as [id Hin | p id Hp IH Hlo Hid].
    + apply (wf_output_nodes e _ Hwf) in Hin. destruct Hin as [i [Hi ->]].
      now apply feeds_selected.
    + pose proof (reach_in_grid e p Hwf Hp) as Hhi.
      rewrite (wf_connections e Hwf p Hlo Hhi) in Hid.
      apply in_map_iff in Hid. destruct Hid as [t [<- Ht]]. apply In_range in Ht.
      rewrite (wf_get_arity e Hwf p Hlo Hhi) in Ht.
      rewrite <- (wf_gene_idx e Hwf p Hlo Hhi).
      apply feeds_connected; auto; lia.
Qed.

(** The genes of the active function nodes, without [unsigned] arithmetic. *)
Lemma wf_genes_of (e : expression) (id : N) :
  wf e -> m_n e <= id -> id < m_n e + m_r e * m_c e ->
  genes_of e id
  = map (fun j => gene_pos e id + j) (range 0 ((m_arity e).[(id - m_n e) / m_r e] + 1)).
Proof.
  intros Hwf Hlo Hhi. unfold genes_of.
  replace (m_n e <=? id) with true by (symmetry; now apply N.leb_le).
  rewrite <- (wf_get_arity e Hwf id Hlo Hhi).
  apply map_ext_in. intros j Hj. apply In_range in Hj.
  now destruct (wf_gene_index e Hwf id j Hlo Hhi ltac:(lia)) as [-> _].
Qed.

Lemma wf_output_genes (e : expression) :
  wf e -> output_genes e = map (fun i => offset e (m_c e) + i) (range 0 (m_m e)).
Proof.
  intros Hwf. unfold output_genes. apply map_ext_in. intros i Hi. apply In_range in Hi.
  now destruct (wf_output_index e Hwf i (proj2 Hi)) as (_ & -> & _).
Qed.

Lemma size_map {A B : Type} (f : A -> B) (l : list A) : size (map f l) = size l.
Proof. unfold size. now rewrite length_map. Qed.

Lemma size_range (lo hi : N) : size (range lo hi) = hi - lo.
Proof. unfold size, range. rewrite length_iota. lia. Qed.

(** The genes of a strictly ascending list of nodes of the grid fit before
    the output genes. *)
Lemma size_genes_bound (e : expression) (nodes : list N) :
  wf e -> StronglySorted N.lt nodes ->
  (forall id, In id nodes -> id < m_n e + m_r e * m_c e) ->
  forall b, b <= offset e (m_c e) ->
    (forall id, In id nodes -> m_n e <= id -> b <= gene_pos e id) ->
    b + size (flat_map (genes_of e) nodes) <= offset e (m_c e).
Proof.
  intros Hwf Hsorted. induction Hsorted as [|p rest Hs IH Hall]; intros Hgrid b Hb Hpos.
  - simpl. unfold size. simpl. lia.
  - simpl flat_map. rewrite size_app. rewrite Forall_forall in Hall.
    assert (Hgrid' : forall id, In id rest -> id < m_n e + m_r e * m_c e)
      by (intros; apply Hgrid; now right).
    destruct (N.le_gt_cases (m_n e) p) as [Hlo | Hin].
    + pose proof (Hgrid p (or_introl eq_refl)) as Hhi.
      rewrite (wf_genes_of e p Hwf Hlo Hhi), size_map, size_range.
      destruct (gene_pos_room e (wf_sane e Hwf) (wf_fits e Hwf) p Hlo Hhi) as [Hr1 Hr2].
      pose proof (Hpos p (or_introl eq_refl) Hlo).
      specialize (IH Hgrid' (gene_pos e p + (m_arity e).[(p - m_n e) / m_r e] + 1)
                    ltac:(lia)).
      assert (Hrest : forall id, In id rest -> m_n e <= id ->
                gene_pos e p + (m_arity e).[(p - m_n e) / m_r e] + 1 <= gene_pos e id).
      { intros id Hid _. apply gene_pos_mono; auto.
        - apply (wf_sane e Hwf).
        - apply (wf_fits e Hwf). }
      specialize (IH Hrest). lia.
    + unfold genes_of at 1.
      replace (m_n e <=? p) with false by (symmetry; now apply N.leb_gt).
      unfold size at 1. simpl length.
      specialize (IH Hgrid' b Hb ltac:(intros; apply Hpos; auto; now right)). lia.
Qed.

(** The shape of [m_active_genes] in a state that satisfies the invariant. *)
Lemma invariant_active_genes (e : expression) :
  invariant e ->
  m_active_genes e
    = flat_map (genes_of e) (m_active_nodes e)
      ++ map (fun i => offset e (m_c e) + i) (range 0 (m_m e)) /\
  size (flat_map (genes_of e) (m_active_nodes e)) <= offset e (m_c e).
Proof.
  intros Hinv. pose proof Hinv as [Hwf _].
  destruct (invariant_active e Hinv) as (active & _ & _ & Hg).
  split.
  - now rewrite Hg, collect_active_genes_eq, (wf_output_genes e Hwf).
  - pose proof (size_genes_bound e (m_active_nodes e) Hwf
                  (invariant_active_sorted e Hinv)
                  (fun id => invariant_active_in_grid e id Hinv) 0 (N.le_0_l _)
                  ltac:(intros; lia)).
    lia.
Qed.

(** ** The chromosome and the active nodes in every state *)

(** In the states of [reachable], which leave out what follows a
    [mutate_idxs] that threw: every gene lies within its bounds, and
    [m_active_nodes] is strictly ascending (sorted and free of duplicates) and
    holds exactly the node ids that feed an output: the ones the output genes
    select and the ones reached from them through connection genes.  The
    state [stale] shows what a throwing [mutate_idxs] leaves. *)
Theorem reachable_valid_and_active_nodes (e : expression) :
  reachable e ->
  size (m_x e) = size (m_lb e) /\
  (forall k, k < size (m_x e) ->
     (m_lb e).[k] <= (m_x e).[k] /\ (m_x e).[k] <= (m_ub e).[k]) /\
  StronglySorted N.lt (m_active_nodes e) /\
  NoDup (m_active_nodes e) /\
  (forall id, In id (m_active_nodes e) <-> feeds_output e id).
Proof.
  intros Hreach. pose proof (reachable_invariant e Hreach) as Hinv.
  pose proof Hinv as [[Hshape Hvalid] _].
  apply is_valid_spec in Hvalid. destruct Hvalid as [Hsize Hbounds].
  pose proof (invariant_active_sorted e Hinv) as Hsorted.
  repeat split; auto.
  - now apply Hbounds.
  - now apply Hbounds.
  - now apply strongly_sorted_NoDup.
  - intros Hin. apply (wf_feeds_output e id (proj1 Hinv)).
    now apply invariant_active_reach.
  - intros Hfeeds. apply invariant_active_reach; [assumption|].
    now apply (wf_feeds_output e id (proj1 Hinv)).
Qed.



(** In the states of [reachable], which leave out what follows a
    [mutate_idxs] that threw, [set(get())] returns and leaves the object,
    hence the chromosome and the two active sets, as it was.  The state
    [stale] shows what a throwing [mutate_idxs] leaves. *)
Theorem set_get_noop (e : expression) : reachable e -> set (get e) e = Ret tt e.
Proof.
  intros Hreach. destruct (reachable_invariant e Hreach) as [[_ Hvalid] Hcons].
  unfold set, get, bind at 1, read. rewrite Hvalid. simpl.
  unfold bind, modify. rewrite with_x_same. exact Hcons.
Qed.

Lemma set_f_gene_eq (node_id f_id : N) (e : expression) :
  wf e ->
  set_f_gene node_id f_id e
  = if (size (m_f e) - 1 <? f_id) || (node_id <? m_n e)
       || (m_n e + m_r e * m_c e - 1 <? node_id)
    then Throw e
    else Ret tt (with_x e (upd (m_x e) (m_gene_idx e).[node_id] f_id)).
Proof.
  intros Hwf.
  pose proof (grid_bounds e (wf_sane e Hwf) (wf_fits e Hwf))
    as (Hn & Hr & Hc & Hm & H1 & H2 & H3 & H4 & Hf & Hf').
  pose proof two32_lt_two64.
  unfold set_f_gene, bind at 1, read. rewrite zsub_small by lia.
  destruct (size (m_f e) - 1 <? f_id); [reflexivity|].
  unfold bind at 1.
  rewrite umul_small by lia. rewrite uadd_small by lia. rewrite usub_small by lia.
  rewrite (N.mul_comm (m_c e)).
  destruct (node_id <? m_n e); [reflexivity|].
  destruct (m_n e + m_r e * m_c e - 1 <? node_id); reflexivity.
Qed.

(** C8: for a node id in [[n, n + r c - 1]] and a kernel id in
    [[0, |F| - 1]], [set_f_gene] returns; it writes the kernel id at position
    [gene_idx[node_id]] of the chromosome and changes no other gene, not
    [m_active_nodes] and not [m_active_genes] (and no other member). *)
Theorem set_f_gene_frame (e : expression) (node_id f_id : N) :
  reachable e ->
  m_n e <= node_id -> node_id <= m_n e + m_r e * m_c e - 1 ->
  f_id <= size (m_f e) - 1 ->
  exists e',
    set_f_gene node_id f_id e = Ret tt e' /\
    e' = with_x e (upd (m_x e) (m_gene_idx e).[node_id] f_id) /\
    (m_x e').[(m_gene_idx e).[node_id]] = f_id /\
    (forall k, k <> (m_gene_idx e).[node_id] -> (m_x e').[k] = (m_x e).[k]) /\
    size (m_x e') = size (m_x e) /\
    m_active_nodes e' = m_active_nodes e /\
    m_active_genes e' = m_active_genes e.
Proof.
  intros Hreach Hlo Hhi Hf. pose proof (reachable_invariant e Hreach) as [Hwf _].
  pose proof (grid_bounds e (wf_sane e Hwf) (wf_fits e Hwf)) as (Hn & Hr & Hc & _).
  assert (Hhi' : node_id < m_n e + m_r e * m_c e) by lia.
  exists (with_x e (upd (m_x e) (m_gene_idx e).[node_id] f_id)).
  rewrite (set_f_gene_eq node_id f_id e Hwf).
  replace (size (m_f e) - 1 <? f_id) with false by (symmetry; apply N.ltb_ge; lia).
  replace (node_id <? m_n e) with false by (symmetry; apply N.ltb_ge; lia).
  replace (m_n e + m_r e * m_c e - 1 <? node_id) with false
    by (symmetry; apply N.ltb_ge; lia).
  simpl. repeat split.
  - apply at_upd_same. rewrite (wf_size e Hwf), (wf_gene_idx e Hwf node_id Hlo Hhi').
    destruct (gene_pos_room e (wf_sane e Hwf) (wf_fits e Hwf) node_id Hlo Hhi').
    pose proof (offset_last e). lia.
  - intros k Hk. now apply at_upd_other.
  - apply size_upd.
Qed.

(** C9: on a chromosome within its bounds the back-wave loop ends.  Every
    node a wave passes to the following wave is a connection of a function
    node of the wave, and is an input node or a function node of a strictly
    earlier column; so the largest column in the wave ([wave_rank], one more
    than it, zero for inputs only) strictly decreases, a wave of inputs has no
    successor, and the loop of [update_data_structures] returns within
    [wave_budget] waves, and with the same vector for any larger number. *)
Theorem back_wave_terminates (e : expression) (x : list N) :
  shape_ok e -> is_valid e x = true ->
  let e' := with_x e x in
  (forall current, (forall p, In p current -> p < m_n e + m_r e * m_c e) ->
     (forall id, In id (next_wave e' current) ->
        exists p, In p current /\ m_n e <= p /\
          (id < m_n e \/
           (m_n e <= id /\ (id - m_n e) / m_r e < (p - m_n e) / m_r e))) /\
     (wave_rank e' current = 0 -> next_wave e' current = []) /\
     (0 < wave_rank e' current ->
        wave_rank e' (next_wave e' current) < wave_rank e' current)) /\
  exists active,
    forall fuel, (wave_budget e' <= fuel)%nat ->
      back_wave e' fuel (output_nodes e') [] = Some active.
Proof.
  intros Hshape Hvalid e'.
  assert (Hwf : wf e').
  { split; [apply (shape_ok_same e); [repeat split | assumption] | exact Hvalid]. }
  pose proof (grid_bounds e' (wf_sane e' Hwf) (wf_fits e' Hwf)) as (_ & Hr & _).
  pose proof (wf_connections_backward e' Hwf) as Hback.
  split.
  - intros current Hgrid.
    assert (Hranks : forall p, In p current -> rank e' p <= m_c e')
      by (intros p Hp; apply rank_in_grid; [assumption | now apply Hgrid]).
    destruct (next_wave_rank e' current Hback Hranks) as (_ & Hzero & Hdecr).
    split; [|split; assumption].
    intros id Hid. apply In_next_wave in Hid. destruct Hid as (p & Hp & Hlo & Hid).
    exists p. split; [assumption|]. split; [assumption|].
    pose proof (Hback p id Hlo (Hranks p Hp) Hid) as Hlt. unfold rank in Hlt.
    change (m_n e') with (m_n e) in *. change (m_r e') with (m_r e) in *.
    replace (p <? m_n e) with false in Hlt by (symmetry; now apply N.ltb_ge).
    destruct (id <? m_n e) eqn:Hin.
    + left. now apply N.ltb_lt.
    + right. apply N.ltb_ge in Hin. split; [assumption | lia].
  - destruct (wf_back_wave e' Hwf) as [active Hactive]. exists active.
    intros fuel Hfuel. eapply back_wave_more_fuel; eauto.
Qed.

(** ** [mutate] of one gene *)

Lemma draw_new_value_eq (fuel : nat) (lo hi cur : N) (e : expression) :
  draw_new_value fuel lo hi cur e
  = match fresh_draw fuel lo hi cur (m_e e) with
    | Some (v, g) => Ret v (with_e e g)
    | None => OutOfFuel
    end.
Proof.
  revert e. induction fuel as [|fuel IH]; intros e; [reflexivity|].
  simpl. unfold bind, draw. destruct (uniform_int lo hi (m_e e)) as [v g].
  destruct (v =? cur); [|reflexivity].
  rewrite IH. simpl. destruct (fresh_draw fuel lo hi cur g) as [[v' g']|]; reflexivity.
Qed.

Lemma fresh_draw_more_fuel (fuel fuel' : nat) (lo hi cur : N) (g : G) (r : N * G) :
  fresh_draw fuel lo hi cur g = Some r -> (fuel <= fuel')%nat ->
  fresh_draw fuel' lo hi cur g = Some r.
Proof.
  revert fuel' g. induction fuel as [|fuel IH]; intros fuel' g H Hle; [discriminate|].
  destruct fuel' as [|fuel']; [lia|]. simpl in *.
  destruct (uniform_int lo hi g) as [v g']. destruct (v =? cur); [|assumption].
  apply IH; [assumption | lia].
Qed.

Lemma fresh_draw_spec (fuel : nat) (lo hi cur : N) (g : G) (v : N) (g' : G) :
  fresh_draw fuel lo hi cur g = Some (v, g') ->
  v <> cur /\ (lo <= hi -> lo <= v /\ v <= hi).
Proof.
  revert g. induction fuel as [|fuel IH]; intros g H; [discriminate|].
  simpl in H. pose proof (uniform_int_range lo hi g) as Hr.
  destruct (uniform_int lo hi g) as [v0 g0]. destruct (v0 =? cur) eqn:Hv.
  - now apply (IH g0).
  - injection H as <- <-. apply N.eqb_neq in Hv. auto.
Qed.

Lemma mutate_eq (fuel : nat) (k : N) (e : expression) :
  mutate fuel k e
  = if size (m_x e) <=? k then Throw e
    else if (m_lb e).[k] <? (m_ub e).[k] then
      match fresh_draw fuel (m_lb e).[k] (m_ub e).[k] (m_x e).[k] (m_e e) with
      | Some (v, g) => update_data_structures (with_x (with_e e g) (upd (m_x e) k v))
      | None => OutOfFuel
      end
    else Ret tt e.
Proof.
  unfold mutate, bind at 1, read. destruct (size (m_x e) <=? k); [reflexivity|].
  unfold bind at 1, redraw_gene, bind at 1 2, read.
  destruct ((m_lb e).[k] <? (m_ub e).[k]); [|reflexivity].
  unfold bind at 1 2. rewrite draw_new_value_eq.
  destruct (fresh_draw fuel (m_lb e).[k] (m_ub e).[k] (m_x e).[k] (m_e e)) as [[v g]|];
    reflexivity.
Qed.

(** C3: [mutate(k)] throws exactly when [k >= S], and leaves the object as
    it was then.  For [k < S] with [lb[k] < ub[k]] it stores the first draw
    that differs from the gene, a value within the bounds, at gene [k], leaves
    every other gene as it was and returns, and more draws allowed change
    nothing; it fails to return only when all the draws allowed give the value
    of the gene.  For [k < S] with [lb[k] = ub[k]] it returns and leaves the
    whole object as it was. *)
Theorem mutate_one_gene (e : expression) (fuel : nat) (k : N) :
  reachable e ->
  ((exists e', mutate fuel k e = Throw e') <-> size (m_x e) <= k) /\
  (size (m_x e) <= k -> mutate fuel k e = Throw e) /\
  (k < size (m_x e) -> (m_lb e).[k] < (m_ub e).[k] ->
     match fresh_draw fuel (m_lb e).[k] (m_ub e).[k] (m_x e).[k] (m_e e) with
     | Some (v, g) =>
         exists e',
           mutate fuel k e = Ret tt e' /\
           (forall fuel', (fuel <= fuel')%nat -> mutate fuel' k e = Ret tt e') /\
           m_x e' = upd (m_x e) k v /\ (m_x e').[k] = v /\
           v <> (m_x e).[k] /\ (m_lb e).[k] <= v /\ v <= (m_ub e).[k] /\
           (forall j, j <> k -> (m_x e').[j] = (m_x e).[j])
     | None => mutate fuel k e = OutOfFuel
     end) /\
  (k < size (m_x e) -> (m_lb e).[k] = (m_ub e).[k] -> mutate fuel k e = Ret tt e).
Proof.
  intros Hreach. destruct (reachable_invariant e Hreach) as [Hwf Hcons].
  split; [|split; [|split]].
  - rewrite mutate_eq. destruct (size (m_x e) <=? k) eqn:Hsz.
    + apply N.leb_le in Hsz. split; [auto | eauto].
    + apply N.leb_gt in Hsz. split; [|lia]. intros [e' He']. exfalso.
      destruct ((m_lb e).[k] <? (m_ub e).[k]); [|discriminate].
      destruct (fresh_draw fuel (m_lb e).[k] (m_ub e).[k] (m_x e).[k] (m_e e))
        as [[v g]|] eqn:Hd; [|discriminate].
      destruct (fresh_draw_spec _ _ _ _ _ _ _ Hd) as [Hne Hr].
      assert (Hlt : (m_lb e).[k] <= (m_ub e).[k]).
      { destruct (shape_tables e (proj1 Hwf)) as (-> & -> & _).
        apply Forall2_at, (tables_ordered e (wf_sane e Hwf)). }
      assert (Hwf' : wf (with_x (with_e e g) (upd (m_x e) k v)))
        by (apply (wf_write_gene (with_e e g)); auto; apply Hr; assumption).
      destruct (update_spec _ Hwf') as (ns & gs & Hu & _).
      rewrite Hu in He'. discriminate.
  - intros Hsz. rewrite mutate_eq.
    replace (size (m_x e) <=? k) with true by (symmetry; now apply N.leb_le). reflexivity.
  - intros Hk Hlt.
    destruct (fresh_draw fuel (m_lb e).[k] (m_ub e).[k] (m_x e).[k] (m_e e))
      as [[v g]|] eqn:Hd.
    + destruct (fresh_draw_spec _ _ _ _ _ _ _ Hd) as [Hne Hr].
      specialize (Hr ltac:(lia)).
      assert (Hwf' : wf (with_x (with_e e g) (upd (m_x e) k v)))
        by (apply (wf_write_gene (with_e e g)); auto; apply Hr).
      destruct (update_spec _ Hwf') as (ns & gs & Hu & _).
      assert (Hrun : forall fuel', (fuel <= fuel')%nat ->
                mutate fuel' k e
                = Ret tt (with_active (with_x (with_e e g) (upd (m_x e) k v)) ns gs)).
      { intros fuel' Hle. rewrite mutate_eq.
        replace (size (m_x e) <=? k) with false by (symmetry; now apply N.leb_gt).
        replace ((m_lb e).[k] <? (m_ub e).[k]) with true by (symmetry; now apply N.ltb_lt).
        now rewrite (fresh_draw_more_fuel _ _ _ _ _ _ _ Hd Hle). }
      eexists. split; [apply Hrun; lia|]. split; [exact Hrun|]. simpl.
      split; [reflexivity|]. split; [now apply at_upd_same|].
      split; [assumption|]. split; [apply Hr|]. split; [apply Hr|].
      intros j Hj. now apply at_upd_other.
    + rewrite mutate_eq, Hd.
      replace (size (m_x e) <=? k) with false by (symmetry; now apply N.leb_gt).
      now replace ((m_lb e).[k] <? (m_ub e).[k]) with true by (symmetry; now apply N.ltb_lt).
  - intros Hk Heq. rewrite mutate_eq.
    replace (size (m_x e) <=? k) with false by (symmetry; now apply N.leb_gt).
    now replace ((m_lb e).[k] <? (m_ub e).[k]) with false by (symmetry; apply N.ltb_ge; lia).
Qed.

(** ** Evaluation reads the active genes only *)

Lemma same_shape_eq (e1 e2 : expression) :
  same_shape e1 e2 ->
  e2 = with_e (with_active (with_x e1 (m_x e2)) (m_active_nodes e2) (m_active_genes e2))
              (m_e e2).
Proof.
  destruct e1, e2. unfold same_shape. simpl.
  intros H. repeat match goal with H : _ /\ _ |- _ => destruct H end. now subst.
Qed.

Lemma fold_left_agree {A B : Type} (f g : A -> B -> A) (l : list B) (a : A) :
  (forall acc b, In b l -> f acc b = g acc b) -> fold_left f l a = fold_left g l a.
Proof.
  revert a. induction l as [|b t IH]; intros a H; simpl; [reflexivity|].
  rewrite H by now left. apply IH. intros. apply H. now right.
Qed.

Lemma uadd_assoc_one (a j : N) : uadd (uadd a j) 1 = uadd a (j + 1).
Proof.
  unfold uadd. rewrite N.Div0.add_mod_idemp_l. f_equal. lia.
Qed.

Lemma In_genes_of (e : expression) (id j : N) :
  m_n e <= id -> j <= _get_arity e id -> In (uadd (m_gene_idx e).[id] j) (genes_of e id).
Proof.
  intros Hlo Hj. unfold genes_of.
  replace (m_n e <=? id) with true by (symmetry; now apply N.leb_le).
  apply in_map_iff. exists j. split; [reflexivity | apply In_range; lia].
Qed.

Section Agreement.

Variables e1 e2 : expression.
Hypothesis Hinv1 : invariant e1.
Hypothesis Hinv2 : invariant e2.
Hypothesis Hshape : same_shape e1 e2.
Hypothesis Hagree : forall k, In k (m_active_genes e1) -> (m_x e1).[k] = (m_x e2).[k].

Lemma agree_size : size (m_x e2) = size (m_x e1).
Proof.
  rewrite (wf_size e1 (proj1 Hinv1)), (wf_size e2 (proj1 Hinv2)).
  rewrite (same_shape_eq e1 e2 Hshape). reflexivity.
Qed.

Lemma agree_node_genes (id j : N) :
  In id (m_active_nodes e1) -> m_n e1 <= id -> j <= _get_arity e1 id ->
  (m_x e1).[uadd (m_gene_idx e1).[id] j] = (m_x e2).[uadd (m_gene_idx e1).[id] j].
Proof.
  intros Hin Hlo Hj. apply Hagree.
  destruct (invariant_active e1 Hinv1) as (_ & _ & _ & ->).
  rewrite collect_active_genes_eq. apply in_or_app. left.
  apply in_flat_map. exists id. split; [assumption | now apply In_genes_of].
Qed.

Lemma agree_output_genes (i : N) :
  i < m_m e1 ->
  (m_x e1).[zadd (zsub (size (m_x e1)) (m_m e1)) i]
  = (m_x e2).[zadd (zsub (size (m_x e1)) (m_m e1)) i].
Proof.
  intros Hi. apply Hagree.
  destruct (wf_output_index e1 (proj1 Hinv1) i Hi) as (-> & _ & _).
  destruct (invariant_active_genes e1 Hinv1) as [-> _].
  apply in_or_app. right. apply in_map_iff. exists i.
  split; [reflexivity | apply In_range; lia].
Qed.

Lemma agree_output_nodes : output_nodes e2 = output_nodes e1.
Proof.
  rewrite !output_nodes_eq, agree_size.
  destruct Hshape as (_ & Hm & _). rewrite <- Hm.
  apply map_ext_in. intros i Hi. apply In_range in Hi.
  symmetry. apply agree_output_genes. lia.
Qed.

Lemma agree_active_nodes : m_active_nodes e2 = m_active_nodes e1.
Proof.
  destruct (invariant_active e1 Hinv1) as (act1 & Hbw1 & Hn1 & _).
  destruct (invariant_active e2 Hinv2) as (act2 & Hbw2 & Hn2 & _).
  rewrite agree_output_nodes in Hbw2.
  assert (Hbw : back_wave e2 (wave_budget e1) (output_nodes e1) [] = Some act1).
  { apply (back_wave_agree e1 e2); [apply Hshape | assumption |].
    intros p Hp Hlo. unfold connections.
    replace (_get_arity e2 p) with (_get_arity e1 p)
      by (rewrite (same_shape_eq e1 e2 Hshape); reflexivity).
    replace (m_gene_idx e2) with (m_gene_idx e1) by apply Hshape.
    apply map_ext_in. intros t Ht. apply In_range in Ht.
    apply agree_node_genes; [|assumption|lia].
    rewrite Hn1, In_unique, In_sort. exact Hp. }
  replace (wave_budget e2) with (wave_budget e1) in Hbw2
    by (rewrite (same_shape_eq e1 e2 Hshape); reflexivity).
  rewrite Hbw in Hbw2. injection Hbw2 as <-. now rewrite Hn1, Hn2.
Qed.

Lemma evaluate_agree {V : Type} (d : V) (app : kernel T -> list V -> V) (point : list V) :
  evaluate d app e1 point = evaluate d app e2 point.
Proof.
  pose proof (proj1 Hinv1) as Hwf1.
  pose proof (grid_bounds e1 (wf_sane e1 Hwf1) (wf_fits e1 Hwf1))
    as (_ & _ & _ & _ & _ & H2 & _).
  unfold evaluate. rewrite agree_active_nodes, agree_size.
  rewrite (same_shape_eq e1 e2 Hshape). simpl.
  destruct (negb (size point =? m_n e1)); [reflexivity|]. f_equal.
  set (node0 := filled (uadd (m_n e1) (umul (m_r e1) (m_c e1))) d).
  assert (Hnode :
    fold_left (fun node node_id =>
        if node_id <? m_n e1 then upd node node_id (at_ d point node_id)
        else
          let arity := _get_arity e1 node_id in
          let idx := (m_gene_idx e1).[node_id] in
          let function_in :=
            map (fun j => at_ d node (m_x e1).[uadd (uadd idx j) 1]) (range 0 arity) in
          upd node node_id (call_kernel d app (m_f e1) (m_x e1).[idx] function_in))
      (m_active_nodes e1) node0
    = fold_left (fun node node_id =>
        if node_id <? m_n e1 then upd node node_id (at_ d point node_id)
        else
          let arity := _get_arity e1 node_id in
          let idx := (m_gene_idx e1).[node_id] in
          let function_in :=
            map (fun j => at_ d node (m_x e2).[uadd (uadd idx j) 1]) (range 0 arity) in
          upd node node_id (call_kernel d app (m_f e1) (m_x e2).[idx] function_in))
      (m_active_nodes e1) node0).
  { apply fold_left_agree. intros node id Hid.
    destruct (id <? m_n e1) eqn:Hlo; [reflexivity|]. apply N.ltb_ge in Hlo. cbv zeta.
    pose proof (invariant_active_in_grid e1 id Hinv1 Hid) as Hhi.
    assert (Hf : (m_x e1).[(m_gene_idx e1).[id]] = (m_x e2).[(m_gene_idx e1).[id]]).
    { pose proof (agree_node_genes id 0 Hid Hlo (N.le_0_l _)) as H0.
      destruct (wf_gene_index e1 Hwf1 id 0 Hlo Hhi (N.le_0_l _)) as [Hu _].
      rewrite Hu, N.add_0_r, <- (wf_gene_idx e1 Hwf1 id Hlo Hhi) in H0. exact H0. }
    rewrite Hf. do 2 f_equal. apply map_ext_in. intros j Hj. apply In_range in Hj.
    rewrite uadd_assoc_one. f_equal. apply agree_node_genes; auto. lia. }
  change (_get_arity (with_e (with_active (with_x e1 (m_x e2)) (m_active_nodes e2)
                                (m_active_genes e2)) (m_e e2)))
    with (_get_arity e1).
  cbv zeta in Hnode. rewrite <- Hnode. rewrite !for_range_fill.
  apply map_ext_in. intros i Hi. apply In_range in Hi.
  f_equal. apply agree_output_genes. lia.
Qed.

End Agreement.

(** In the states of [reachable], which leave out what follows a
    [mutate_idxs] that threw, evaluation is a function of the active genes
    only: two states of one shape whose chromosomes agree at every index in
    [m_active_genes] (of the first) give the same result of [operator()] on
    every point, numeric or symbolic.  The state [stale] shows what a
    throwing [mutate_idxs] leaves. *)
Theorem evaluation_reads_active_genes (e1 e2 : expression) :
  reachable e1 -> reachable e2 -> same_shape e1 e2 ->
  (forall k, In k (m_active_genes e1) -> (m_x e1).[k] = (m_x e2).[k]) ->
  (forall point, call T0 e1 point = call T0 e2 point) /\
  (forall point, call_symbolic e1 point = call_symbolic e2 point) /\
  m_active_nodes e1 = m_active_nodes e2.
Proof.
  intros H1 H2 Hshape Hagree.
  pose proof (reachable_invariant e1 H1) as Hinv1.
  pose proof (reachable_invariant e2 H2) as Hinv2.
  split; [|split].
  - intros point. now apply evaluate_agree.
  - intros point. now apply evaluate_agree.
  - symmetry. now apply agree_active_nodes.
Qed.

(** ** [mutate_ogene] *)

Lemma ogene_loop_eq (l : list N) (idx : option N) (e : expression) :
  foldM (fun (_ : option N) (_ : N) =>
           lo <- read (fun e => to_unsigned (zsub (size (m_active_genes e)) (m_m e))) ;;
           hi <- read (fun e => to_unsigned (zsub (size (m_active_genes e)) 1)) ;;
           v <- draw lo hi ;;
           ret (Some v)) l idx e
  = let (o, g) := ogene_draws (length l)
                    (to_unsigned (zsub (size (m_active_genes e)) (m_m e)))
                    (to_unsigned (zsub (size (m_active_genes e)) 1)) idx (m_e e) in
    Ret o (with_e e g).
Proof.
  revert idx e. induction l as [|a t IH]; intros idx e.
  - simpl. unfold ret. now rewrite with_e_same.
  - simpl foldM. unfold bind at 1 2 3 4, read, draw. simpl ogene_draws.
    destruct (uniform_int _ _ (m_e e)) as [v g]. unfold bind at 1, ret.
    rewrite IH. simpl.
    destruct (ogene_draws (length t) _ _ (Some v) g) as [o g']. reflexivity.
Qed.

Lemma ogene_draws_spec (count : nat) (lo hi : N) (idx : option N) (g : G) :
  (0 < count)%nat -> lo <= hi ->
  exists v g', ogene_draws count lo hi idx g = (Some v, g') /\ lo <= v /\ v <= hi.
Proof.
  revert idx g. induction count as [|count IH]; intros idx g Hpos Hle; [lia|].
  simpl. pose proof (uniform_int_range lo hi g Hle) as Hr.
  destruct (uniform_int lo hi g) as [v g']. simpl in Hr.
  destruct count as [|count].
  - simpl. eauto.
  - apply IH; [lia | assumption].
Qed.

Lemma length_range (lo hi : N) : length (range lo hi) = N.to_nat (hi - lo).
Proof. unfold range. apply length_iota. Qed.

Lemma mutate_ogene_eq (fuel : nat) (n : N) (e : expression) :
  mutate_ogene fuel n e
  = if 1 <? m_m e then
      let (o, g) := ogene_draws (N.to_nat n)
                      (to_unsigned (zsub (size (m_active_genes e)) (m_m e)))
                      (to_unsigned (zsub (size (m_active_genes e)) 1)) None (m_e e) in
      match o with
      | None => Undef
      | Some idx => mutate fuel (m_active_genes e).[idx] (with_e e g)
      end
    else mutate fuel (m_active_genes e).[to_unsigned (zsub (size (m_active_genes e)) 1)] e.
Proof.
  unfold mutate_ogene, bind at 1, read. destruct (1 <? m_m e).
  - unfold bind at 1. rewrite ogene_loop_eq, length_range, N.sub_0_r.
    destruct (ogene_draws _ _ _ None (m_e e)) as [[idx|] g]; reflexivity.
  - reflexivity.
Qed.

(** The last [m] entries of [m_active_genes] are the output genes. *)
Lemma invariant_last_genes (e : expression) (idx : N) :
  invariant e ->
  m_m e <= size (m_active_genes e) /\ size (m_active_genes e) < two32 /\
  (size (m_active_genes e) - m_m e <= idx -> idx < size (m_active_genes e) ->
   size (m_x e) - m_m e <= (m_active_genes e).[idx] /\
   (m_active_genes e).[idx] < size (m_x e)).
Proof.
  intros Hinv. pose proof Hinv as [Hwf _].
  destruct (invariant_active_genes e Hinv) as [Hgenes Hbound].
  pose proof (grid_bounds e (wf_sane e Hwf) (wf_fits e Hwf)) as (_ & _ & _ & _ & _ & H2 & _).
  pose proof (offset_last e) as Hlast. pose proof (wf_size e Hwf) as Hsz.
  assert (Hsize : size (m_active_genes e)
                  = size (flat_map (genes_of e) (m_active_nodes e)) + m_m e)
    by (rewrite Hgenes at 1; rewrite size_app, size_map, size_range; lia).
  split; [lia|]. split; [lia|]. intros Hlo Hhi.
  rewrite Hgenes.
  replace idx with (size (flat_map (genes_of e) (m_active_nodes e))
                    + (idx - size (flat_map (genes_of e) (m_active_nodes e)))) by lia.
  rewrite at_app_r.
  set (i := idx - size (flat_map (genes_of e) (m_active_nodes e))).
  assert (Hi : i < m_m e) by (unfold i; lia).
  assert (Hat : (map (fun i => offset e (m_c e) + i) (range 0 (m_m e))).[i]
                = offset e (m_c e) + i).
  { unfold at_. rewrite nth_indep with (d' := offset e (m_c e) + 0)
      by (rewrite length_map, length_range; lia).
    rewrite (map_nth (fun i => offset e (m_c e) + i)). f_equal.
    unfold range. replace (N.to_nat (m_m e - 0)) with (N.to_nat (m_m e)) by lia.
    clear - Hi. assert (Hgen : forall k s j, (j < k)%nat -> nth j (iota k s) 0 = s + N.of_nat j).
    { induction k as [|k IH]; intros s [|j] Hj; simpl; try lia. rewrite IH by lia. lia. }
    rewrite Hgen by lia. lia. }
  rewrite Hat. lia.
Qed.

(** C10: for [N >= 1], [mutate_ogene(N)] hands one index to [mutate]: with
    more than one output the index is drawn [N] times from the last [m]
    positions of [m_active_genes] and the last draw is the one mutated, with one
    output it is the last position.  So a call that returns has changed at most
    one position of the chromosome, and that position is one of the output
    genes [S - m, ..., S - 1]. *)
Theorem mutate_ogene_one_output_gene (e : expression) (fuel : nat) (n : N) :
  reachable e -> 1 <= n ->
  (1 < m_m e ->
     exists idx g,
       ogene_draws (N.to_nat n) (size (m_active_genes e) - m_m e)
                   (size (m_active_genes e) - 1) None (m_e e) = (Some idx, g) /\
       size (m_active_genes e) - m_m e <= idx /\ idx <= size (m_active_genes e) - 1 /\
       mutate_ogene fuel n e = mutate fuel (m_active_genes e).[idx] (with_e e g)) /\
  (m_m e = 1 -> mutate_ogene fuel n e = mutate fuel (size (m_x e) - 1) e) /\
  (forall e', mutate_ogene fuel n e = Ret tt e' ->
     exists k, size (m_x e) - m_m e <= k /\ k < size (m_x e) /\
       size (m_x e') = size (m_x e) /\
       forall j, j <> k -> (m_x e').[j] = (m_x e).[j]).
Proof.
  intros Hreach Hn. pose proof (reachable_invariant e Hreach) as Hinv.
  pose proof Hinv as [Hwf _].
  pose proof (grid_bounds e (wf_sane e Hwf) (wf_fits e Hwf)) as (_ & _ & _ & Hm & _).
  destruct (invariant_last_genes e 0 Hinv) as (Hge & Hlt & _).
  pose proof two32_lt_two64.
  assert (Hlo : to_unsigned (zsub (size (m_active_genes e)) (m_m e))
                = size (m_active_genes e) - m_m e)
    by (rewrite zsub_small by lia; apply to_unsigned_small; lia).
  assert (Hhi : to_unsigned (zsub (size (m_active_genes e)) 1)
                = size (m_active_genes e) - 1)
    by (rewrite zsub_small by lia; apply to_unsigned_small; lia).
  assert (Hchange : forall k (e0 e' : expression), invariant e0 -> m_x e0 = m_x e ->
            mutate fuel k e0 = Ret tt e' ->
            size (m_x e') = size (m_x e) /\
            forall j, j <> k -> (m_x e').[j] = (m_x e).[j]).
  { intros k e0 e' Hinv0 Hx Hrun.
    destruct (post_ret _ _ _ _ _ _ (mutate_spec fuel k e0 Hinv0) Hrun) as [_ Hmut].
    pose proof (gene_mutated_size _ _ _ Hmut) as Hsz. rewrite Hx in Hsz.
    split; [assumption|]. intros j Hj.
    destruct Hmut as (_ & _ & [[_ (v & -> & _)] | [_ ->]]); rewrite Hx; auto.
    now apply at_upd_other. }
  split; [|split].
  - intros Hmany.
    destruct (ogene_draws_spec (N.to_nat n) (size (m_active_genes e) - m_m e)
                (size (m_active_genes e) - 1) None (m_e e) ltac:(lia) ltac:(lia))
      as (idx & g & Hd & Hr1 & Hr2).
    exists idx, g. repeat split; auto.
    rewrite mutate_ogene_eq, Hlo, Hhi, Hd.
    now replace (1 <? m_m e) with true by (symmetry; now apply N.ltb_lt).
  - intros Hone. rewrite mutate_ogene_eq, Hhi.
    replace (1 <? m_m e) with false by (symmetry; apply N.ltb_ge; lia).
    f_equal.
    destruct (invariant_active_genes e Hinv) as [Hgenes _].
    destruct (invariant_last_genes e (size (m_active_genes e) - 1) Hinv)
      as (_ & _ & Hlast).
    specialize (Hlast ltac:(lia) ltac:(lia)). lia.
  - intros e' Hrun. rewrite mutate_ogene_eq, Hlo, Hhi in Hrun.
    destruct (1 <? m_m e) eqn:Hmany.
    + destruct (ogene_draws_spec (N.to_nat n) (size (m_active_genes e) - m_m e)
                  (size (m_active_genes e) - 1) None (m_e e) ltac:(lia) ltac:(lia))
        as (idx & g & Hd & Hr1 & Hr2).
      rewrite Hd in Hrun.
      destruct (invariant_last_genes e idx Hinv) as (_ & _ & Hlast).
      specialize (Hlast ltac:(lia) ltac:(lia)).
      exists (m_active_genes e).[idx]. split; [apply Hlast|]. split; [apply Hlast|].
      apply (Hchange _ (with_e e g)); auto. now apply invariant_with_e.
    + destruct (invariant_last_genes e (size (m_active_genes e) - 1) Hinv)
        as (_ & _ & Hlast).
      specialize (Hlast ltac:(lia) ltac:(lia)).
      exists (m_active_genes e).[size (m_active_genes e) - 1].
      split; [apply Hlast|]. split; [apply Hlast|].
      apply (Hchange _ e); auto.
Qed.

(** ** Construction returns *)

Lemma random_chromosome_returns (e : expression) :
  exists e', random_chromosome e = Ret tt e'.
Proof.
  unfold random_chromosome, bind at 1, read.
  generalize (range 0 (size (m_x e))) as l. intros l. revert e.
  induction l as [|i t IH]; intros e.
  - simpl. unfold ret. eauto.
  - simpl foldM. unfold bind at 1 2 3 4, read, draw.
    destruct (uniform_int _ _ (m_e e)) as [v g]. unfold modify. apply IH.
Qed.

(** On parameters the sanity checks accept and whose layout fits
    [unsigned] arithmetic, the constructor returns. *)
Lemma construct_returns (n m r c l : N) (arity : list N) (f : list (kernel T)) (s : N) :
  fits (blank n m r c l arity f s) = true ->
  sanity_checks (blank n m r c l arity f s) = true ->
  exists e, construct n m r c l arity f s = Ret tt e /\ reachable e.
Proof.
  intros Hfits Hsane.
  assert (Hex : exists e, construct n m r c l arity f s = Ret tt e).
  { unfold construct, bind at 1, read. rewrite Hsane.
    unfold bind at 1, ret, bind at 1, modify.
    set (e1 := init_bounds_and_chromosome (blank n m r c l arity f s)).
    destruct (random_chromosome_returns e1) as [e2 He2].
    assert (Hwf2 : wf e2).
    { destruct (init_tables _ Hsane Hfits) as (H1 & H2 & H3 & H4 & H5).
      assert (Hshape1 : shape_ok e1) by (unfold shape_ok; repeat split; assumption).
      pose proof (random_chromosome_spec e1 Hshape1) as Hr.
      rewrite He2 in Hr. apply Hr. unfold e1. rewrite H3, size_filled. reflexivity. }
    unfold bind. rewrite He2.
    destruct (update_spec e2 Hwf2) as (nodes & genes & Hupd & _). rewrite Hupd. eauto. }
  destruct Hex as [e He]. exists e. split; [assumption|].
  eapply reachable_construct; eauto.
Qed.

(** ** [mutate_idxs] that throws after a write *)

(** When an index of the list is out of range and an index before it
    names a gene with more than one value, [mutate_idxs] has written that gene
    by the time it throws, and [update_data_structures] is not called: the
    chromosome has changed and the active sets are the ones of the chromosome
    before the call. *)
Lemma mutate_idxs_throws_after_write (e : expression) (fuel : nat) (k bad : N) :
  k < size (m_x e) -> size (m_x e) <= bad -> (m_lb e).[k] < (m_ub e).[k] ->
  post (mutate_idxs fuel [k; bad] e)
       (fun _ _ => False)
       (fun e' => exists v g,
          e' = with_x (with_e e g) (upd (m_x e) k v) /\ (m_x e').[k] <> (m_x e).[k] /\
          m_active_nodes e' = m_active_nodes e /\ m_active_genes e' = m_active_genes e)
       False.
Proof.
  intros Hk Hbad Hlt. unfold mutate_idxs. simpl foldM.
  unfold bind at 1 2 3, read.
  replace (size (m_x e) <=? k) with false by (symmetry; now apply N.leb_gt).
  pose proof (redraw_gene_spec fuel k e) as Hred.
  unfold bind at 1.
  destruct (redraw_gene fuel k e) as [changed e1| | |]; simpl in *; auto; try contradiction.
  destruct changed; simpl in Hred.
  - destruct Hred as (v & g & -> & Hne & _). unfold bind at 1 2, read.
    change (m_x (with_x (with_e e g) (upd (m_x e) k v))) with (upd (m_x e) k v).
    rewrite size_upd.
    replace (size (m_x e) <=? bad) with true by (symmetry; now apply N.leb_le).
    simpl. exists v, g. repeat split. now rewrite at_upd_same.
  - destruct Hred as [_ Hge]. lia.
Qed.

(** * More of the class *)

(** ** The constructors: what they refuse, what they store *)

Lemma existsb_zero (v : list N) : existsb (fun a => a =? 0) v = true <-> In 0 v.
Proof.
  rewrite existsb_exists. split.
  - intros [a [Ha H0]]. apply N.eqb_eq in H0. now subst.
  - intros H. exists 0. split; [assumption | reflexivity].
Qed.

Lemma size_zero_iff {A : Type} (v : list A) : size v = 0 <-> v = [].
Proof.
  destruct v; unfold size; simpl; split; intros H; try reflexivity; try discriminate; lia.
Qed.

Lemma sanity_checks_rejected (n m r c l : N) (arity : list N) (f : list (kernel T)) (s : N) :
  sanity_checks (blank n m r c l arity f s) = false <-> rejected n m r c l arity f.
Proof.
  unfold sanity_checks, rejected. simpl.
  rewrite !andb_false_iff, !negb_false_iff, !N.eqb_eq, N.eqb_neq, existsb_zero, size_zero_iff.
  tauto.
Qed.

(** X1: a constructor throws exactly when a parameter is refused: no input,
    output, row, column or level back, an arity vector whose size is not the
    number of columns, an arity zero, or no kernel.  On every other parameter
    list (whose layout fits [unsigned]) it returns, and the object holds the
    parameters it was given. *)
Theorem construct_validates (n m r c l : N) (arity : list N) (f : list (kernel T)) (s : N) :
  fits (blank n m r c l arity f s) = true ->
  ((exists e, construct n m r c l arity f s = Throw e) <-> rejected n m r c l arity f) /\
  ((exists e, construct n m r c l arity f s = Ret tt e) <-> ~ rejected n m r c l arity f) /\
  (forall e, construct n m r c l arity f s = Ret tt e ->
     m_n e = n /\ m_m e = m /\ m_r e = r /\ m_c e = c /\ m_l e = l /\
     m_arity e = arity /\ m_f e = f).
Proof.
  intros Hfits. pose proof (construct_spec n m r c l arity f s Hfits) as Hspec.
  pose proof (sanity_checks_rejected n m r c l arity f s) as Hrej.
  destruct (sanity_checks (blank n m r c l arity f s)) eqn:Hsane.
  - destruct (construct_returns n m r c l arity f s Hfits Hsane) as [e [He _]].
    assert (Hok : ~ rejected n m r c l arity f) by (intros H; apply Hrej in H; discriminate).
    split; [|split].
    + split; [|tauto]. intros [e' He']. rewrite He in He'. discriminate.
    + split; [auto | eauto].
    + intros e' He'. rewrite He' in Hspec. apply Hspec.
  - assert (Hbad : rejected n m r c l arity f) by now apply Hrej.
    assert (Hthrow : exists e, construct n m r c l arity f s = Throw e).
    { unfold construct, bind at 1, read. rewrite Hsane. unfold bind, ret, throw. eauto. }
    destruct Hthrow as [e He].
    split; [|split].
    + split; eauto.
    + split; [|tauto]. intros [e' He']. rewrite He in He'. discriminate.
    + intros e' He'. rewrite He in He'. discriminate.
Qed.

(** ** The layout in every state *)

Lemma sum_upto_cons (a : N) (v : list N) (k : nat) :
  sum_upto (a :: v) (Datatypes.S k) = a + sum_upto v k.
Proof.
  induction k as [|k IH].
  - simpl. unfold at_. simpl. lia.
  - change (sum_upto (a :: v) (Datatypes.S (Datatypes.S k)))
      with (sum_upto (a :: v) (Datatypes.S k) + (a :: v).[N.of_nat (Datatypes.S k)]).
    rewrite IH. simpl sum_upto. unfold at_. rewrite !Nat2N.id. simpl. lia.
Qed.

Lemma sum_upto_all (v : list N) : sum_upto v (length v) = fold_right N.add 0 v.
Proof.
  induction v as [|a v IH]; [reflexivity|].
  simpl length. rewrite sum_upto_cons, IH. reflexivity.
Qed.

Lemma invariant_sizes (e : expression) :
  invariant e ->
  size (m_x e) = genome_size e /\ size (m_lb e) = genome_size e /\
  size (m_ub e) = genome_size e /\ size (m_gene_idx e) = m_n e + m_r e * m_c e.
Proof.
  intros [Hwf _]. destruct (shape_tables e (proj1 Hwf)) as (Hlb & Hub & Hgi & _).
  rewrite Hlb, Hub, (size_lb_table e), (size_ub_table e), (wf_size e Hwf). auto.
Qed.

(** X2: in every state the chromosome and the two vectors of bounds have
    the size [r c + r (sum of the arities) + m], and [gene_idx] has one entry
    for every node, inputs included. *)
Theorem chromosome_size_formula (e : expression) :
  reachable e ->
  size (get e) = m_r e * m_c e + m_r e * fold_right N.add 0 (m_arity e) + m_m e /\
  size (get_lb e) = size (get e) /\ size (get_ub e) = size (get e) /\
  size (get_gene_idx e) = m_n e + m_r e * m_c e.
Proof.
  intros Hreach. pose proof (reachable_invariant e Hreach) as Hinv.
  destruct (invariant_sizes e Hinv) as (Hx & Hlb & Hub & Hgi).
  pose proof (arity_sum_total e (wf_sane e (proj1 Hinv))) as Htot.
  rewrite sum_upto_all in Htot.
  unfold get, get_lb, get_ub, get_gene_idx. rewrite Hx, Hlb, Hub, Hgi.
  unfold genome_size. rewrite <- Htot. auto.
Qed.

Lemma sum_upto_filled (c a : N) (k : nat) :
  N.of_nat k <= c -> sum_upto (filled c a) k = N.of_nat k * a.
Proof.
  induction k as [|k IH]; intros Hk; [reflexivity|].
  simpl sum_upto. rewrite IH by lia. rewrite at_filled_in by lia. lia.
Qed.

(** X3: the constructor with one arity [a] gives a chromosome of size
    [r c (a + 1) + m], in which the genes of node [id] start at position
    [(id - n) (a + 1)], and every node of the grid has the arity [a]. *)
Theorem construct_uniform_layout (n m r c l a : N) (f : list (kernel T)) (s : N)
  (e : expression) :
  fits (blank n m r c l (filled c a) f s) = true ->
  construct_uniform n m r c l a f s = Ret tt e ->
  size (get e) = r * c * (a + 1) + m /\
  forall id, n <= id -> id < n + r * c ->
    get_arity e id = Some a /\ (get_gene_idx e).[id] = (id - n) * (a + 1).
Proof.
  intros Hfits He.
  destruct (post_ret _ _ _ _ _ _ (construct_uniform_spec n m r c l a f s Hfits) He)
    as (Hinv & Hn & Hm & Hr & Hc & Hl & Ha & Hf).
  pose proof Hinv as [Hwf _]. clear He Hfits. subst n m r c l.
  pose proof (wf_sane e Hwf) as Hsane. pose proof (wf_fits e Hwf) as Hfits.
  pose proof (grid_bounds e Hsane Hfits) as (Hn0 & Hr0 & Hc0 & Hm0 & H1 & H2 & _).
  assert (Hsum : forall k, k <= m_c e -> arity_sum e (N.to_nat k) = k * a).
  { intros k Hk. unfold arity_sum. rewrite Ha, sum_upto_filled by lia. now rewrite N2Nat.id. }
  unfold get, get_gene_idx. split.
  - rewrite (wf_size e Hwf). unfold genome_size. rewrite Hsum by lia. lia.
  - intros id Hlo Hhi.
    destruct (grid_position e Hsane Hfits id Hlo Hhi) as (Hcol & Hrow & Hq).
    split.
    + unfold get_arity. rewrite umul_small, uadd_small by lia.
      replace (m_r e * m_c e + m_n e <=? id) with false by (symmetry; apply N.leb_gt; lia).
      replace (id <? m_n e) with false by (symmetry; apply N.ltb_ge; lia).
      simpl. rewrite usub_small by lia. rewrite Ha. f_equal.
      now apply at_filled_in.
    + rewrite (wf_gene_idx e Hwf id Hlo Hhi). unfold gene_pos, offset.
      rewrite Hsum by lia. rewrite Ha, at_filled_in by lia.
      set (q := id - m_n e) in *.
      set (col := q / m_r e) in *. set (row := q mod m_r e) in *.
      clearbody col row. rewrite Hq. nia.
Qed.

(** *** The bounds of the genes *)

Lemma lb_at_connection_gene (e : expression) (id t : N) :
  sanity_checks e = true -> fits e = true ->
  m_n e <= id -> id < m_n e + m_r e * m_c e ->
  1 <= t -> t <= (m_arity e).[(id - m_n e) / m_r e] ->
  (lb_table e).[gene_pos e id + t] = conn_lb e ((id - m_n e) / m_r e).
Proof.
  intros Hsane Hfits Hlo Hhi Ht1 Ht2. unfold lb_table.
  rewrite (table_at_node e Hsane Hfits _ _ _ _ (size_node_lb e)); auto.
  unfold node_lb. replace t with (t - 1 + 1) by lia.
  rewrite at_cons_succ. apply at_filled_in. lia.
Qed.

Lemma lb_at_output_gene (e : expression) (i : N) :
  i < m_m e -> (lb_table e).[offset e (m_c e) + i] = out_lb e.
Proof.
  intros Hi. unfold lb_table.
  rewrite <- (N2Nat.id (m_c e)) at 2.
  rewrite <- (size_columns e _ _ (size_node_lb e)).
  rewrite at_app_r. now apply at_filled_in.
Qed.

(** X4: in every state the function gene of a node of the grid has the
    bounds [[0, |F| - 1]], and every connection gene of a node of column [i]
    has the upper bound [n + i r - 1] and the lower bound [n + r (i - L)] when
    [L <= i], zero otherwise. *)
Theorem node_gene_bounds (e : expression) (id : N) :
  reachable e -> m_n e <= id -> id < m_n e + m_r e * m_c e ->
  (get_lb e).[(get_gene_idx e).[id]] = 0 /\
  (get_ub e).[(get_gene_idx e).[id]] = size (m_f e) - 1 /\
  forall t, 1 <= t -> t <= (m_arity e).[(id - m_n e) / m_r e] ->
    (get_ub e).[(get_gene_idx e).[id] + t] = m_n e + (id - m_n e) / m_r e * m_r e - 1 /\
    (get_lb e).[(get_gene_idx e).[id] + t]
    = if m_l e <=? (id - m_n e) / m_r e
      then m_n e + m_r e * ((id - m_n e) / m_r e - m_l e) else 0.
Proof.
  intros Hreach Hlo Hhi. pose proof (reachable_invariant e Hreach) as [Hwf _].
  pose proof (wf_sane e Hwf) as Hsane. pose proof (wf_fits e Hwf) as Hfits.
  destruct (shape_tables e (proj1 Hwf)) as (Hlb & Hub & _).
  unfold get_lb, get_ub, get_gene_idx.
  rewrite Hlb, Hub, (wf_gene_idx e Hwf id Hlo Hhi).
  split; [now apply lb_at_function_gene|]. split; [now apply ub_at_function_gene|].
  intros t Ht1 Ht2. split.
  - now rewrite (ub_at_connection_gene e Hsane Hfits id t).
  - now rewrite (lb_at_connection_gene e id t).
Qed.

(** X5: in every state each of the [m] output genes, the last [m] genes of
    the chromosome, has the upper bound [n + r c - 1] and the lower bound
    [n + r (c - L)] when [L <= c], zero otherwise. *)
Theorem output_gene_bounds (e : expression) (i : N) :
  reachable e -> i < m_m e ->
  (get_ub e).[size (get e) - m_m e + i] = m_n e + m_r e * m_c e - 1 /\
  (get_lb e).[size (get e) - m_m e + i]
  = if m_l e <=? m_c e then m_n e + m_r e * (m_c e - m_l e) else 0.
Proof.
  intros Hreach Hi. pose proof (reachable_invariant e Hreach) as [Hwf _].
  destruct (shape_tables e (proj1 Hwf)) as (Hlb & Hub & _).
  unfold get_lb, get_ub, get. rewrite Hlb, Hub, (wf_size e Hwf).
  pose proof (offset_last e) as Hlast.
  replace (genome_size e - m_m e) with (offset e (m_c e)) by lia.
  split; [now apply ub_at_output_gene | now apply lb_at_output_gene].
Qed.

(** *** The positions of the genes of the nodes *)

Lemma at_upd_cases {A : Type} (d : A) (v : list A) (i j : N) (a : A) :
  at_ d (upd v j a) i = a \/ at_ d (upd v j a) i = at_ d v i.
Proof.
  destruct (N.eq_dec i j) as [-> | Hne]; [|right; now apply at_upd_other].
  destruct (N.lt_ge_cases j (size v)) as [Hlt | Hge].
  - left. now apply at_upd_same.
  - right. unfold at_, upd. f_equal. apply upd_nat_past. unfold size in Hge. lia.
Qed.

Lemma init_gene_idx_inputs (e : expression) (k id : N) :
  id < m_n e -> (init_gene_idx e (filled k 0)).[id] = 0.
Proof.
  intros Hid. unfold init_gene_idx.
  apply (for_range_ind (fun _ gi => gi.[id] = 0)); [lia | |].
  - apply at_filled.
  - intros i gi _ _ IH. destruct (i <? m_n e) eqn:Hi.
    + destruct (at_upd_cases 0 gi id i 0) as [-> | ->]; auto.
    + apply N.ltb_ge in Hi. rewrite at_upd_other by lia. exact IH.
Qed.

Lemma gene_pos_first (e : expression) : 0 < m_r e -> gene_pos e (m_n e) = 0.
Proof.
  intros Hr. unfold gene_pos, offset. rewrite N.sub_diag.
  rewrite N.Div0.div_0_l, N.Div0.mod_0_l. simpl. unfold arity_sum. simpl. lia.
Qed.

Lemma gene_pos_succ (e : expression) (id : N) :
  sanity_checks e = true -> fits e = true ->
  m_n e <= id -> id + 1 < m_n e + m_r e * m_c e ->
  gene_pos e (id + 1) = gene_pos e id + (m_arity e).[(id - m_n e) / m_r e] + 1.
Proof.
  intros Hsane Hfits Hlo Hhi.
  destruct (grid_position e Hsane Hfits id Hlo ltac:(lia)) as (Hcol & Hrow & Hq).
  unfold gene_pos. replace (id + 1 - m_n e) with (id - m_n e + 1) by lia.
  set (q := id - m_n e) in *. set (col := q / m_r e) in *. set (row := q mod m_r e) in *.
  set (a := (m_arity e).[col]).
  destruct (N.lt_ge_cases (row + 1) (m_r e)) as [Hin | Hout].
  - assert (Hd : (q + 1) / m_r e = col)
      by (symmetry; apply (N.div_unique _ _ _ (row + 1)); lia).
    assert (Hm : (q + 1) mod m_r e = row + 1)
      by (symmetry; apply (N.mod_unique _ _ col); lia).
    rewrite Hd, Hm. fold a. lia.
  - assert (Hrow' : row + 1 = m_r e) by lia.
    assert (Hq' : q + 1 = m_r e * (col + 1) + 0) by (rewrite N.mul_add_distr_l; lia).
    assert (Hd : (q + 1) / m_r e = col + 1)
      by (symmetry; apply (N.div_unique _ _ _ 0); lia).
    assert (Hm : (q + 1) mod m_r e = 0)
      by (symmetry; apply (N.mod_unique _ _ (col + 1)); lia).
    rewrite Hd, Hm, offset_succ. fold a. rewrite <- Hrow'. nia.
Qed.

Lemma gene_pos_last (e : expression) :
  sanity_checks e = true -> fits e = true ->
  gene_pos e (m_n e + m_r e * m_c e - 1)
  + (m_arity e).[(m_n e + m_r e * m_c e - 1 - m_n e) / m_r e] + 1
  = offset e (m_c e).
Proof.
  intros Hsane Hfits.
  pose proof (grid_bounds e Hsane Hfits) as (Hn & Hr & Hc & Hm & H1 & H2 & H3 & H4 & _).
  unfold gene_pos.
  set (q := m_n e + m_r e * m_c e - 1 - m_n e).
  assert (Hq : q = m_r e * (m_c e - 1) + (m_r e - 1)).
  { unfold q. replace (m_c e) with (m_c e - 1 + 1) at 1 by lia.
    rewrite N.mul_add_distr_l. lia. }
  assert (Hd : q / m_r e = m_c e - 1)
    by (symmetry; apply (N.div_unique _ _ _ (m_r e - 1)); lia).
  assert (Hmod : q mod m_r e = m_r e - 1)
    by (symmetry; apply (N.mod_unique _ _ (m_c e - 1)); lia).
  rewrite Hd, Hmod.
  pose proof (offset_succ e (m_c e - 1)) as Hoff.
  replace (m_c e - 1 + 1) with (m_c e) in Hoff by lia. rewrite Hoff.
  set (a := (m_arity e).[m_c e - 1]).
  assert (Hr' : m_r e = m_r e - 1 + 1) by lia.
  revert Hr'. generalize (m_r e - 1). intros r' ->. nia.
Qed.

(** X6: in every state the genes of the nodes tile the chromosome in the
    order of the node ids: the first function node starts at position zero,
    every node starts where the genes of the node before it end (a function
    gene and one gene per connection), and the genes of the last node end where
    the [m] output genes begin.  The entries of [gene_idx] for the input nodes
    are zero. *)
Theorem gene_idx_tiles (e : expression) :
  reachable e ->
  (forall id, id < m_n e -> (get_gene_idx e).[id] = 0) /\
  (get_gene_idx e).[m_n e] = 0 /\
  (forall id, m_n e <= id -> id + 1 < m_n e + m_r e * m_c e ->
     (get_gene_idx e).[id + 1]
     = (get_gene_idx e).[id] + (m_arity e).[(id - m_n e) / m_r e] + 1) /\
  (get_gene_idx e).[m_n e + m_r e * m_c e - 1]
  + (m_arity e).[(m_r e * m_c e - 1) / m_r e] + 1
  = size (get e) - m_m e.
Proof.
  intros Hreach. pose proof (reachable_invariant e Hreach) as [Hwf _].
  pose proof (wf_sane e Hwf) as Hsane. pose proof (wf_fits e Hwf) as Hfits.
  pose proof (grid_bounds e Hsane Hfits) as (Hn & Hr & Hc & Hm & H1 & H2 & H3 & H4 & _).
  unfold get_gene_idx, get. split; [|split; [|split]].
  - intros id Hid. destruct Hwf as [(_ & _ & _ & _ & Hgi) _]. rewrite Hgi.
    now apply init_gene_idx_inputs.
  - rewrite (wf_gene_idx e Hwf) by lia. now apply gene_pos_first.
  - intros id Hlo Hhi. rewrite !(wf_gene_idx e Hwf) by lia. now apply gene_pos_succ.
  - rewrite (wf_gene_idx e Hwf) by lia. rewrite (wf_size e Hwf).
    pose proof (gene_pos_last e Hsane Hfits) as Hlast.
    replace (m_n e + m_r e * m_c e - 1 - m_n e) with (m_r e * m_c e - 1) in Hlast by lia.
    pose proof (offset_last e). lia.
Qed.

(** ** The checked queries *)

(** X7: in every state [get_arity(id)] throws exactly for the ids outside
    the grid, the inputs included; for a node of the grid it returns the arity
    of the column of the node, [m_arity[(id - n) / r]], which is at least one
    and is what the unchecked [_get_arity] reads. *)
Theorem get_arity_checked (e : expression) (id : N) :
  reachable e ->
  (get_arity e id = None <-> id < m_n e \/ m_n e + m_r e * m_c e <= id) /\
  (forall a, get_arity e id = Some a ->
     a = (m_arity e).[(id - m_n e) / m_r e] /\ a = _get_arity e id /\ 1 <= a).
Proof.
  intros Hreach. pose proof (reachable_invariant e Hreach) as [Hwf _].
  pose proof (wf_sane e Hwf) as Hsane. pose proof (wf_fits e Hwf) as Hfits.
  pose proof (grid_bounds e Hsane Hfits) as (Hn & Hr & Hc & Hm & H1 & H2 & _).
  unfold get_arity. rewrite umul_small, uadd_small by lia.
  destruct (m_r e * m_c e + m_n e <=? id) eqn:Hhi; simpl.
  - apply N.leb_le in Hhi. split; [split; [intros _; lia | reflexivity] | discriminate].
  - apply N.leb_gt in Hhi. destruct (id <? m_n e) eqn:Hlo.
    + apply N.ltb_lt in Hlo. split; [split; [intros _; lia | reflexivity] | discriminate].
    + apply N.ltb_ge in Hlo. split; [split; [discriminate | lia]|].
      intros a Ha. injection Ha as <-. rewrite usub_small by lia.
      split; [reflexivity|]. split; [symmetry; apply (wf_get_arity e Hwf); lia|].
      destruct (grid_position e Hsane Hfits id Hlo ltac:(lia)) as (Hcol & _).
      destruct (sanity_checks_spec e Hsane) as (_ & _ & _ & _ & _ & Hsz & Hpos & _).
      assert (0 < (m_arity e).[(id - m_n e) / m_r e]) by (apply Hpos, at_In; lia).
      lia.
Qed.

(** X8: in a state whose active sets are up to date ([invariant]: the
    tables are the ones of the shape, the chromosome is within them, and
    [update_data_structures] finds the active sets it would compute),
    [is_active(id)] is true exactly for the node ids that feed an output: the
    ones an output gene selects, and the ones a connection gene of such a
    function node holds.  [reachable_invariant] and [run_spec] give the calls
    that leave such a state; after a [mutate_idxs] that threw the active sets
    are not up to date, and [is_active] is wrong (the state [stale]). *)
Theorem is_active_feeds_output (e : expression) (id : N) :
  invariant e -> (is_active e id = true <-> feeds_output e id).
Proof.
  intros Hinv.
  rewrite (wf_feeds_output e id (proj1 Hinv)), <- (invariant_active_reach e id Hinv).
  unfold is_active. rewrite existsb_exists. split.
  - intros [x [Hx Heq]]. apply N.eqb_eq in Heq. now subst.
  - intros Hin. exists id. split; [assumption | apply N.eqb_refl].
Qed.

(** ** Evaluation computes the value of the graph *)

Lemma iota_shift {A : Type} (f : N -> A) (k : nat) (i : N) :
  map (fun j => f (j + 1)) (iota k i) = map f (iota k (i + 1)).
Proof.
  revert i. induction k as [|k IH]; intros i; simpl; [reflexivity|]. now rewrite IH.
Qed.

Lemma range_shift {A : Type} (f : N -> A) (a : N) :
  map (fun j => f (j + 1)) (range 0 a) = map f (range 1 (a + 1)).
Proof.
  unfold range. replace (N.to_nat (a + 1 - 1)) with (N.to_nat (a - 0)) by lia.
  apply iota_shift.
Qed.

(** The loop over [m_active_nodes], with [function_in] as the values of
    the connections of the node. *)
Lemma evaluate_eq {V : Type} (d : V) (app : kernel T -> list V -> V)
  (e : expression) (point : list V) :
  evaluate d app e point
  = if negb (size point =? m_n e) then None
    else Some (map (fun i =>
           at_ d (fold_left (fun node id =>
                    if id <? m_n e then upd node id (at_ d point id)
                    else upd node id
                           (call_kernel d app (m_f e) (m_x e).[(m_gene_idx e).[id]]
                              (map (at_ d node) (connections e id))))
                    (m_active_nodes e) (filled (uadd (m_n e) (umul (m_r e) (m_c e))) d))
                 (m_x e).[zadd (zsub (size (m_x e)) (m_m e)) i]) (range 0 (m_m e))).
Proof.
  unfold evaluate. destruct (negb (size point =? m_n e)); [reflexivity|]. f_equal.
  rewrite for_range_fill. apply map_ext. intros i. f_equal.
  apply fold_left_agree. intros node id _.
  destruct (id <? m_n e); [reflexivity|]. cbv zeta. do 2 f_equal.
  unfold connections. rewrite map_map, <- range_shift.
  apply map_ext. intros j. now rewrite uadd_assoc_one.
Qed.

Lemma node_value_input {V : Type} (d : V) (app : kernel T -> list V -> V)
  (e : expression) (point : list V) (depth : nat) (id : N) :
  id < m_n e -> node_value d app e point depth id = at_ d point id.
Proof.
  intros Hid. apply N.ltb_lt in Hid. destruct depth; simpl; now rewrite Hid.
Qed.

Lemma node_value_function {V : Type} (d : V) (app : kernel T -> list V -> V)
  (e : expression) (point : list V) (depth : nat) (id : N) :
  m_n e <= id ->
  node_value d app e point (Datatypes.S depth) id
  = call_kernel d app (m_f e) (m_x e).[(m_gene_idx e).[id]]
      (map (node_value d app e point depth) (connections e id)).
Proof.
  intros Hid. apply N.ltb_ge in Hid. simpl. now rewrite Hid.
Qed.

Lemma rank_lt_id (e : expression) (q p : N) :
  0 < m_r e -> rank e q < rank e p -> q < p.
Proof.
  intros Hr. unfold rank.
  destruct (N.lt_ge_cases q p) as [H | H]; [auto|].
  assert (Hdiv : (p - m_n e) / m_r e <= (q - m_n e) / m_r e)
    by (apply N.Div0.div_le_mono; lia).
  revert Hdiv. generalize ((p - m_n e) / m_r e) ((q - m_n e) / m_r e). intros a b Hdiv.
  destruct (q <? m_n e) eqn:Hq; destruct (p <? m_n e) eqn:Hp;
    rewrite ?N.ltb_lt, ?N.ltb_ge in *; lia.
Qed.

Section Graph.

Variable e : expression.
Hypothesis Hinv : invariant e.

(** Going back more columns than the node has behind it changes nothing. *)
Lemma node_value_stable {V : Type} (d : V) (app : kernel T -> list V -> V)
  (point : list V) (k : nat) :
  forall id k', rank e id <= N.of_nat k -> (k <= k')%nat ->
    rank e id <= m_c e ->
    node_value d app e point k' id = node_value d app e point k id.
Proof.
  pose proof (proj1 Hinv) as Hwf.
  pose proof (grid_bounds e (wf_sane e Hwf) (wf_fits e Hwf)) as (_ & Hr & _).
  induction k as [|k IH]; intros id k' Hrank Hk Hgrid.
  - unfold rank in Hrank. destruct (id <? m_n e) eqn:Hid.
    + apply N.ltb_lt in Hid. now rewrite !node_value_input.
    + exfalso. revert Hrank. generalize ((id - m_n e) / m_r e). intros; lia.
  - destruct (N.lt_ge_cases id (m_n e)) as [Hid | Hid];
      [now rewrite !node_value_input|].
    destruct k' as [|k']; [lia|]. rewrite !node_value_function by assumption.
    f_equal. apply map_ext_in. intros q Hq.
    pose proof (wf_connections_backward e Hwf id q Hid Hgrid Hq) as Hlt.
    apply IH; lia.
Qed.

Lemma evaluate_nodes {V : Type} (d : V) (app : kernel T -> list V -> V) (point : list V) :
  forall suf pre node,
    StronglySorted N.lt suf ->
    (forall a b, In a pre -> In b suf -> a < b) ->
    (forall p, In p suf -> p < m_n e + m_r e * m_c e) ->
    (forall p q, In p suf -> m_n e <= p -> In q (connections e p) ->
       In q pre \/ In q suf) ->
    size node = m_n e + m_r e * m_c e ->
    (forall id, In id pre ->
       at_ d node id = node_value d app e point (N.to_nat (m_c e)) id) ->
    forall id, In id (pre ++ suf) ->
      at_ d (fold_left (fun node id =>
               if id <? m_n e then upd node id (at_ d point id)
               else upd node id
                      (call_kernel d app (m_f e) (m_x e).[(m_gene_idx e).[id]]
                         (map (at_ d node) (connections e id))))
               suf node) id
      = node_value d app e point (N.to_nat (m_c e)) id.
Proof.
  pose proof (proj1 Hinv) as Hwf.
  pose proof (grid_bounds e (wf_sane e Hwf) (wf_fits e Hwf)) as (_ & Hr & Hc & _).
  induction suf as [|p suf IH]; intros pre node Hsorted Hless Hgrid Hclosed Hsize Hpre id Hid.
  - rewrite app_nil_r in Hid. simpl. now apply Hpre.
  - simpl fold_left. apply StronglySorted_inv in Hsorted. destruct Hsorted as [Hsorted Hall].
    rewrite Forall_forall in Hall.
    assert (Hp : p < m_n e + m_r e * m_c e) by (apply Hgrid; now left).
    assert (Hfresh : ~ In p pre)
      by (intros Hin; specialize (Hless p p Hin (or_introl eq_refl)); lia).
    apply (IH (pre ++ [p])).
    + exact Hsorted.
    + intros a b Ha Hb. apply in_app_iff in Ha. destruct Ha as [Ha | [<- | []]].
      * apply Hless; [assumption | now right].
      * now apply Hall.
    + intros p' Hp'. apply Hgrid. now right.
    + intros p' q Hp' Hlo Hq.
      destruct (Hclosed p' q (or_intror Hp') Hlo Hq) as [H | [<- | H]].
      * left. apply in_app_iff. now left.
      * left. apply in_app_iff. right. now left.
      * now right.
    + destruct (p <? m_n e); now rewrite size_upd.
    + intros id' Hid'. apply in_app_iff in Hid'. destruct Hid' as [Hid' | [<- | []]].
      * assert (id' <> p) by (intros ->; contradiction).
        destruct (p <? m_n e); rewrite at_upd_other by assumption; now apply Hpre.
      * destruct (p <? m_n e) eqn:Hlo; rewrite at_upd_same by lia.
        -- apply N.ltb_lt in Hlo. now rewrite node_value_input.
        -- apply N.ltb_ge in Hlo.
           assert (Hrank : rank e p <= m_c e) by (apply rank_in_grid; assumption).
           replace (N.to_nat (m_c e)) with (Datatypes.S (N.to_nat (m_c e - 1))) by lia.
           rewrite node_value_function by assumption. f_equal.
           apply map_ext_in. intros q Hq.
           pose proof (wf_connections_backward e Hwf p q Hlo Hrank Hq) as Hlt.
           pose proof (rank_lt_id e q p Hr Hlt) as Hqp.
           assert (Hqpre : In q pre).
           { destruct (Hclosed p q (or_introl eq_refl) Hlo Hq) as [H | [H | H]].
             - exact H.
             - lia.
             - specialize (Hall q H). lia. }
           rewrite (Hpre q Hqpre).
           apply node_value_stable; lia.
    + replace (pre ++ p :: suf) with ((pre ++ [p]) ++ suf) in Hid
        by (rewrite <- app_assoc; reflexivity).
      exact Hid.
Qed.

Lemma evaluate_graph {V : Type} (d : V) (app : kernel T -> list V -> V) (point : list V) :
  size point = m_n e ->
  evaluate d app e point
  = Some (map (fun i => node_value d app e point (N.to_nat (m_c e))
                          (m_x e).[size (m_x e) - m_m e + i]) (range 0 (m_m e))).
Proof.
  intros Hpoint. pose proof (proj1 Hinv) as Hwf.
  pose proof (grid_bounds e (wf_sane e Hwf) (wf_fits e Hwf))
    as (_ & Hr & Hc & _ & H1 & H2 & _).
  rewrite evaluate_eq.
  replace (size point =? m_n e) with true by (symmetry; now apply N.eqb_eq).
  simpl negb. cbv iota. f_equal. apply map_ext_in. intros i Hi. apply In_range in Hi.
  destruct (wf_output_index e Hwf i (proj2 Hi)) as (Hidx & _ & _).
  assert (Hpos : size (m_x e) - m_m e + i = offset e (m_c e) + i).
  { rewrite (wf_size e Hwf). pose proof (offset_last e). lia. }
  rewrite Hidx, Hpos.
  apply (evaluate_nodes d app point (m_active_nodes e) []).
  - now apply invariant_active_sorted.
  - intros a b [].
  - intros p Hp. now apply invariant_active_in_grid.
  - intros p q Hp Hlo Hq. right.
    apply (invariant_active_reach e q Hinv).
    apply (invariant_active_reach e p Hinv) in Hp.
    eapply reach_step; eauto.
  - rewrite size_filled, umul_small, uadd_small by lia. reflexivity.
  - intros id [].
  - change ([] ++ m_active_nodes e) with (m_active_nodes e).
    apply (invariant_active_reach e _ Hinv). apply reach_here.
    rewrite output_nodes_eq. apply in_map_iff. exists i.
    split; [now rewrite Hidx | apply In_range; lia].
Qed.

End Graph.

(** X9: in a state whose active sets are up to date ([invariant]),
    [operator()] computes the values the graph gives the nodes the output
    genes select, for numbers and for strings alike: the value of an input
    node is the coordinate of the point, the value of a function node is the
    kernel its function gene names, applied to the values of the nodes its
    connection genes hold.  A point whose size is not the number of inputs
    makes it throw.  After a [mutate_idxs] that threw the active sets are not
    up to date, and [operator()] does not return the value of the graph (the
    state [stale]). *)
Theorem call_computes_graph (e : expression) :
  invariant e ->
  (forall point : list T,
     (size point <> m_n e -> call T0 e point = None) /\
     (size point = m_n e ->
      call T0 e point
      = Some (map (fun i => node_value T0 k_apply e point (N.to_nat (m_c e))
                              (get e).[size (get e) - m_m e + i]) (range 0 (m_m e))))) /\
  (forall point : list string,
     (size point <> m_n e -> call_symbolic e point = None) /\
     (size point = m_n e ->
      call_symbolic e point
      = Some (map (fun i => node_value EmptyString k_print e point (N.to_nat (m_c e))
                              (get e).[size (get e) - m_m e + i]) (range 0 (m_m e))))).
Proof.
  intros Hinv.
  split; intros point; (split; [|now apply evaluate_graph]);
    intros Hsz; unfold call, call_symbolic, evaluate;
    apply N.eqb_neq in Hsz; now rewrite Hsz.
Qed.

(** ** The active genes are in ascending order *)

Lemma strongly_sorted_app (l1 l2 : list N) :
  StronglySorted N.lt l1 -> StronglySorted N.lt l2 ->
  (forall a b, In a l1 -> In b l2 -> a < b) ->
  StronglySorted N.lt (l1 ++ l2).
Proof.
  induction l1 as [|x l1 IH]; intros H1 H2 Hlt; [exact H2|].
  apply StronglySorted_inv in H1. destruct H1 as [H1 Hall].
  simpl. constructor.
  - apply IH; auto. intros a b Ha Hb. apply Hlt; [now right | assumption].
  - apply Forall_app. split; [assumption|].
    apply Forall_forall. intros b Hb. apply Hlt; [now left | assumption].
Qed.

Lemma strongly_sorted_iota (k : nat) (i : N) : StronglySorted N.lt (iota k i).
Proof.
  revert i. induction k as [|k IH]; intros i; simpl; constructor; [apply IH|].
  apply Forall_forall. intros j Hj. apply In_iota in Hj. lia.
Qed.

Lemma strongly_sorted_shift (b : N) (l : list N) :
  StronglySorted N.lt l -> StronglySorted N.lt (map (fun j => b + j) l).
Proof.
  induction 1 as [|x l Hs IH Hall]; simpl; constructor; [assumption|].
  rewrite Forall_forall in *. intros y Hy. apply in_map_iff in Hy.
  destruct Hy as [j [<- Hj]]. specialize (Hall j Hj). lia.
Qed.

Lemma genes_of_input (e : expression) (p : N) : p < m_n e -> genes_of e p = [].
Proof.
  intros Hp. unfold genes_of.
  now replace (m_n e <=? p) with false by (symmetry; now apply N.leb_gt).
Qed.

(** The genes of a strictly ascending list of nodes of the grid are in
    strictly ascending order, and each is a gene of one of the nodes. *)
Lemma node_genes_ascending (e : expression) (nodes : list N) :
  wf e -> StronglySorted N.lt nodes ->
  (forall id, In id nodes -> id < m_n e + m_r e * m_c e) ->
  StronglySorted N.lt (flat_map (genes_of e) nodes) /\
  forall k, In k (flat_map (genes_of e) nodes) ->
    exists id, In id nodes /\ m_n e <= id /\
      gene_pos e id <= k /\ k <= gene_pos e id + (m_arity e).[(id - m_n e) / m_r e].
Proof.
  intros Hwf Hsorted.
  pose proof (wf_sane e Hwf) as Hsane. pose proof (wf_fits e Hwf) as Hfits.
  induction Hsorted as [|p rest Hs IH Hall]; intros Hgrid.
  - split; [constructor | intros k []].
  - rewrite Forall_forall in Hall.
    destruct (IH ltac:(intros; apply Hgrid; now right)) as [IHs IHin].
    simpl flat_map.
    destruct (N.lt_ge_cases p (m_n e)) as [Hin | Hlo].
    + rewrite (genes_of_input e p Hin). split; [exact IHs|].
      intros k Hk. destruct (IHin k Hk) as (q & Hq & H).
      exists q. split; [now right | exact H].
    + pose proof (Hgrid p (or_introl eq_refl)) as Hhi.
      rewrite (wf_genes_of e p Hwf Hlo Hhi).
      assert (Hhere : forall k,
                In k (map (fun j => gene_pos e p + j)
                          (range 0 ((m_arity e).[(p - m_n e) / m_r e] + 1))) ->
                gene_pos e p <= k /\
                k <= gene_pos e p + (m_arity e).[(p - m_n e) / m_r e]).
      { intros k Hk. apply in_map_iff in Hk. destruct Hk as [j [<- Hj]].
        apply In_range in Hj. lia. }
      split.
      * apply strongly_sorted_app;
          [apply strongly_sorted_shift, strongly_sorted_iota | exact IHs |].
        intros a b Ha Hb. destruct (Hhere a Ha) as [_ Ha2].
        destruct (IHin b Hb) as (q & Hq & Hqlo & Hb1 & _).
        pose proof (gene_pos_mono e p q Hsane Hfits Hlo (Hall q Hq)
                      (Hgrid q (or_intror Hq))).
        lia.
      * intros k Hk. apply in_app_iff in Hk. destruct Hk as [Hk | Hk].
        -- exists p. split; [now left|]. split; [assumption | now apply Hhere].
        -- destruct (IHin k Hk) as (q & Hq & H). exists q. split; [now right | exact H].
Qed.

Lemma invariant_active_genes_sorted (e : expression) :
  invariant e ->
  StronglySorted N.lt (m_active_genes e) /\
  forall k, In k (m_active_genes e) -> k < size (m_x e).
Proof.
  intros Hinv. pose proof Hinv as [Hwf _].
  pose proof (wf_sane e Hwf) as Hsane. pose proof (wf_fits e Hwf) as Hfits.
  destruct (invariant_active_genes e Hinv) as [-> _].
  destruct (node_genes_ascending e (m_active_nodes e) Hwf (invariant_active_sorted e Hinv)
              (fun id => invariant_active_in_grid e id Hinv)) as [Hs Hin].
  pose proof (offset_last e) as Hlast.
  assert (Hnode : forall k, In k (flat_map (genes_of e) (m_active_nodes e)) ->
            k < offset e (m_c e)).
  { intros k Hk. destruct (Hin k Hk) as (id & Hid & Hlo & _ & Hk2).
    pose proof (invariant_active_in_grid e id Hinv Hid) as Hhi.
    destruct (gene_pos_room e Hsane Hfits id Hlo Hhi). lia. }
  split.
  - apply strongly_sorted_app; [exact Hs | |].
    + apply strongly_sorted_shift, strongly_sorted_iota.
    + intros a b Ha Hb. apply in_map_iff in Hb. destruct Hb as [i [<- _]].
      specialize (Hnode a Ha). lia.
  - intros k Hk. rewrite (wf_size e Hwf). apply in_app_iff in Hk. destruct Hk as [Hk | Hk].
    + specialize (Hnode k Hk). lia.
    + apply in_map_iff in Hk. destruct Hk as [i [<- Hi]]. apply In_range in Hi. lia.
Qed.

(** X10: in every state [active_genes] is in strictly ascending order, so
    no gene is listed twice, and every entry is a position of the
    chromosome. *)
Theorem active_genes_ascending (e : expression) :
  reachable e ->
  StronglySorted N.lt (get_active_genes e) /\ NoDup (get_active_genes e) /\
  forall k, In k (get_active_genes e) -> k < size (get e).
Proof.
  intros Hreach. pose proof (reachable_invariant e Hreach) as Hinv.
  destruct (invariant_active_genes_sorted e Hinv) as [Hs Hin].
  unfold get_active_genes, get. split; [exact Hs|].
  split; [now apply strongly_sorted_NoDup | exact Hin].
Qed.

(** ** [update_data_structures] reads the chromosome only *)

Lemma update_with_active (e : expression) (nodes genes : list N) :
  update_data_structures (with_active e nodes genes) = update_data_structures e.
Proof.
  unfold update_data_structures.
  rewrite (back_wave_cong (with_active e nodes genes) e) by reflexivity.
  reflexivity.
Qed.

(** X11: on a chromosome within its bounds [update_data_structures]
    returns and changes the two active sets only; what it computes does not
    depend on the active sets it finds, and a second call changes nothing. *)
Theorem update_data_structures_idempotent (e : expression) :
  shape_ok e -> is_valid e (get e) = true ->
  exists nodes genes,
    update_data_structures e = Ret tt (with_active e nodes genes) /\
    update_data_structures (with_active e nodes genes)
    = Ret tt (with_active e nodes genes) /\
    forall nodes' genes',
      update_data_structures (with_active e nodes' genes')
      = Ret tt (with_active e nodes genes).
Proof.
  intros Hshape Hvalid.
  destruct (update_spec e (conj Hshape Hvalid)) as (nodes & genes & Hupd & Hinv).
  exists nodes, genes. split; [exact Hupd|]. split; [apply Hinv|].
  intros nodes' genes'. rewrite update_with_active. exact Hupd.
Qed.

(** ** [set]: what it accepts, and what it forgets *)

Lemma set_eq (x : list N) (e : expression) :
  set x e = if is_valid e x then update_data_structures (with_x e x) else Throw e.
Proof.
  unfold set, bind, read, modify, throw. destruct (is_valid e x); reflexivity.
Qed.

(** X12: in every state [set(x)] throws exactly when [x] has not the size
    of the chromosome or a gene of [x] is outside its bounds, and then leaves
    the object as it was; otherwise it returns, the chromosome is [x], and the
    engine is the one before the call. *)
Theorem set_validates (e : expression) (x : list N) :
  reachable e ->
  (set x e = Throw e <->
   ~ (size x = size (get e) /\
      forall k, k < size x -> (get_lb e).[k] <= x.[k] /\ x.[k] <= (get_ub e).[k])) /\
  (forall e', set x e = Throw e' -> e' = e) /\
  ((size x = size (get e) /\
    forall k, k < size x -> (get_lb e).[k] <= x.[k] /\ x.[k] <= (get_ub e).[k]) ->
   exists e', set x e = Ret tt e' /\ get e' = x /\ m_e e' = m_e e /\ same_shape e e').
Proof.
  intros Hreach. pose proof (reachable_invariant e Hreach) as Hinv.
  pose proof Hinv as [Hwf _]. destruct (invariant_sizes e Hinv) as (Hx & Hlb & _).
  pose proof (is_valid_spec e x) as Hspec.
  unfold get, get_lb, get_ub. rewrite Hx, <- Hlb, set_eq.
  destruct (is_valid e x) eqn:Hvalid.
  - assert (Hwf' : wf (with_x e x)).
    { split; [apply (shape_ok_same e); [repeat split | apply Hwf] | exact Hvalid]. }
    destruct (update_spec _ Hwf') as (nodes & genes & Hupd & _). rewrite Hupd.
    split; [|split].
    + split; [discriminate|]. intros H. exfalso. apply H. now apply Hspec.
    + discriminate.
    + intros _. eexists. split; [reflexivity|]. repeat split.
  - split; [|split].
    + split; [|reflexivity]. intros _ H. apply Hspec in H. discriminate.
    + intros e' He'. now injection He' as <-.
    + intros H. apply Hspec in H. discriminate.
Qed.

(** X13: [set] forgets the chromosome it finds: for chromosomes [x] and
    [y] within the bounds, [set(x)] followed by [set(y)] leaves the object
    that [set(y)] alone leaves. *)
Theorem set_overrides (e : expression) (x y : list N) :
  reachable e -> is_valid e x = true -> is_valid e y = true ->
  (set x ;; set y) e = set y e.
Proof.
  intros Hreach Hx Hy. pose proof (reachable_invariant e Hreach) as [Hwf _].
  assert (Hwf' : wf (with_x e x)).
  { split; [apply (shape_ok_same e); [repeat split | apply Hwf] | exact Hx]. }
  destruct (update_spec _ Hwf') as (nodes & genes & Hupd & _).
  unfold bind. rewrite (set_eq x e), Hx, Hupd, !set_eq.
  change (is_valid (with_active (with_x e x) nodes genes) y) with (is_valid e y).
  rewrite Hy.
  change (with_x (with_active (with_x e x) nodes genes) y)
    with (with_active (with_x e y) nodes genes).
  apply update_with_active.
Qed.

(** ** The graph of a chromosome feeds forward *)

(** X14: in every state the chromosome encodes a feed-forward graph within
    the levels back: a connection gene of a node of column [i] holds a node id
    below [n + i r], hence below the id of the node, and at least
    [n + r (i - L)] when [L <= i]; a function gene holds the index of a kernel
    of the set; an output gene holds a node id of the grid, and at least
    [n + r (c - L)] when [L <= c]. *)
Theorem chromosome_feeds_forward (e : expression) :
  reachable e ->
  (forall id t, m_n e <= id -> id < m_n e + m_r e * m_c e ->
     1 <= t -> t <= (m_arity e).[(id - m_n e) / m_r e] ->
     (get e).[(get_gene_idx e).[id] + t] < m_n e + (id - m_n e) / m_r e * m_r e /\
     (get e).[(get_gene_idx e).[id] + t] < id /\
     (m_l e <= (id - m_n e) / m_r e ->
      m_n e + m_r e * ((id - m_n e) / m_r e - m_l e)
      <= (get e).[(get_gene_idx e).[id] + t])) /\
  (forall id, m_n e <= id -> id < m_n e + m_r e * m_c e ->
     (get e).[(get_gene_idx e).[id]] < size (m_f e)) /\
  (forall i, i < m_m e ->
     (get e).[size (get e) - m_m e + i] < m_n e + m_r e * m_c e /\
     (m_l e <= m_c e ->
      m_n e + m_r e * (m_c e - m_l e) <= (get e).[size (get e) - m_m e + i])).
Proof.
  intros Hreach. pose proof (reachable_invariant e Hreach) as [Hwf _].
  pose proof (wf_sane e Hwf) as Hsane. pose proof (wf_fits e Hwf) as Hfits.
  pose proof (grid_bounds e Hsane Hfits) as (Hn & Hr & Hc & Hm & H1 & H2 & H3 & H4 & Hf & _).
  pose proof (offset_last e) as Hlast.
  unfold get, get_gene_idx. split; [|split].
  - intros id t Hlo Hhi Ht1 Ht2. rewrite (wf_gene_idx e Hwf id Hlo Hhi).
    destruct (grid_position e Hsane Hfits id Hlo Hhi) as (Hcol & Hrow & Hq).
    destruct (gene_pos_room e Hsane Hfits id Hlo Hhi) as (Hroom1 & Hroom2).
    destruct (wf_gene_bounds e Hwf (gene_pos e id + t) ltac:(lia)) as [Hlb Hub].
    rewrite (ub_at_connection_gene e Hsane Hfits id t) in Hub by assumption.
    rewrite (lb_at_connection_gene e id t) in Hlb by assumption.
    unfold conn_ub in Hub. unfold conn_lb in Hlb.
    set (col := (id - m_n e) / m_r e) in *. set (row := (id - m_n e) mod m_r e) in *.
    set (v := (m_x e).[gene_pos e id + t]) in *. clearbody v col row.
    assert (Hmul : col * m_r e = m_r e * col) by apply N.mul_comm.
    split; [lia|]. split; [lia|].
    intros Hl. replace (m_l e <=? col) with true in Hlb
      by (symmetry; now apply N.leb_le).
    exact Hlb.
  - intros id Hlo Hhi. rewrite (wf_gene_idx e Hwf id Hlo Hhi).
    destruct (gene_pos_room e Hsane Hfits id Hlo Hhi) as (Hroom1 & Hroom2).
    destruct (wf_gene_bounds e Hwf (gene_pos e id) ltac:(lia)) as [_ Hub].
    rewrite (ub_at_function_gene e Hsane Hfits id) in Hub by assumption. lia.
  - intros i Hi. rewrite (wf_size e Hwf).
    replace (genome_size e - m_m e) with (offset e (m_c e)) by lia.
    destruct (wf_gene_bounds e Hwf (offset e (m_c e) + i) ltac:(lia)) as [Hlb Hub].
    rewrite (ub_at_output_gene e i Hi) in Hub. rewrite (lb_at_output_gene e i Hi) in Hlb.
    unfold out_ub in Hub. unfold out_lb in Hlb.
    split; [lia|]. intros Hl.
    replace (m_l e <=? m_c e) with true in Hlb by (symmetry; now apply N.leb_le).
    exact Hlb.
Qed.

(** ** The mutators of the active genes *)

Lemma post_not_stuck {A : Type} (o : outcome A) (Q : A -> expression -> Prop) :
  post o Q (fun _ => False) False -> (forall e', o <> Throw e') /\ o <> Undef.
Proof.
  destruct o; simpl; intros H; try contradiction; split; try intros e'; discriminate.
Qed.

Lemma sorted_size_bound (l : list N) (hi : N) :
  StronglySorted N.lt l ->
  forall lo, lo <= hi -> (forall x, In x l -> lo <= x /\ x < hi) -> lo + size l <= hi.
Proof.
  induction 1 as [|x t Hs IH Hall]; intros lo Hlo Hb.
  - unfold size. simpl. lia.
  - rewrite Forall_forall in Hall. rewrite size_cons.
    destruct (Hb x (or_introl eq_refl)) as [Hx1 Hx2].
    specialize (IH (x + 1) ltac:(lia)).
    assert (Ht : forall y, In y t -> x + 1 <= y /\ y < hi).
    { intros y Hy. specialize (Hall y Hy). destruct (Hb y (or_intror Hy)). lia. }
    specialize (IH Ht). lia.
Qed.

Lemma active_nodes_size (e : expression) :
  invariant e ->
  0 < size (m_active_nodes e) /\ size (m_active_nodes e) < two32.
Proof.
  intros Hinv. pose proof Hinv as [Hwf _].
  pose proof (grid_bounds e (wf_sane e Hwf) (wf_fits e Hwf)) as (_ & _ & _ & Hm & H1 & _).
  split.
  - assert (Hin : In (m_x e).[zadd (zsub (size (m_x e)) (m_m e)) 0] (m_active_nodes e)).
    { apply (invariant_active_reach e _ Hinv). apply reach_here.
      rewrite output_nodes_eq. apply in_map_iff. exists 0.
      split; [reflexivity | apply In_range; lia]. }
    destruct (m_active_nodes e); [destruct Hin|]. rewrite size_cons. lia.
  - pose proof (sorted_size_bound (m_active_nodes e) (m_n e + m_r e * m_c e)
                  (invariant_active_sorted e Hinv) 0 (N.le_0_l _)) as Hb.
    assert (forall x, In x (m_active_nodes e) -> 0 <= x /\ x < m_n e + m_r e * m_c e)
      by (intros x Hx; split; [lia | now apply invariant_active_in_grid]).
    specialize (Hb H). lia.
Qed.

(** Two states of one shape and one chromosome have the same active sets. *)
Lemma invariant_same_x (a b : expression) :
  invariant a -> invariant b -> same_shape a b -> m_x a = m_x b ->
  m_active_nodes b = m_active_nodes a /\ m_active_genes b = m_active_genes a.
Proof.
  intros [_ Ha] [_ Hb] Hshape Hx. unfold consistent in *.
  rewrite (same_shape_eq a b Hshape) in Hb. rewrite <- Hx, with_x_same in Hb.
  rewrite update_with_e, update_with_active, Ha in Hb.
  injection Hb as Hn Hg. split; [now symmetry | now symmetry].
Qed.

(** [mutate] of a position of the chromosome: it returns, and the gene it
    leaves is within the bounds. *)
Lemma mutate_in_range (fuel : nat) (idx : N) (e : expression) :
  invariant e -> idx < size (m_x e) ->
  post (mutate fuel idx e)
       (fun _ e' => invariant e' /\ same_shape e e' /\
                    exists v, m_x e' = upd (m_x e) idx v /\
                              (m_lb e).[idx] <= v /\ v <= (m_ub e).[idx])
       (fun _ => False) False.
Proof.
  intros Hinv Hidx.
  eapply post_weaken; [apply (mutate_spec fuel idx e Hinv) | | | auto].
  - intros _ e' (Hinv' & _ & Hshape & [[_ (v & Hv & _ & Hlo & Hhi)] | [_ ->]]).
    + split; [assumption|]. split; [assumption|]. exists v. auto.
    + split; [assumption|]. split; [assumption|]. exists (m_x e).[idx].
      rewrite upd_at_same. split; [reflexivity|].
      destruct Hinv as [[_ Hvalid] _]. apply is_valid_spec in Hvalid.
      now apply Hvalid.
  - intros e' [_ Hge]. lia.
Qed.

Lemma mutate_active_body (fuel : nat) (e : expression) :
  invariant e ->
  post ((hi <- read (fun e => to_unsigned (zsub (size (m_active_genes e)) 1)) ;;
         idx <- draw 0 hi ;;
         idx <- read (fun e => (m_active_genes e).[idx]) ;;
         mutate fuel idx) e)
       (fun _ e' => invariant e' /\ same_shape e e' /\
          exists k v, In k (m_active_genes e) /\ m_x e' = upd (m_x e) k v /\
                      (m_lb e).[k] <= v /\ v <= (m_ub e).[k])
       (fun _ => False) False.
Proof.
  intros Hinv. unfold bind at 1, read.
  destruct (invariant_last_genes e 0 Hinv) as (Hm & Hlt & _).
  pose proof (grid_bounds e (wf_sane e (proj1 Hinv)) (wf_fits e (proj1 Hinv)))
    as (_ & _ & _ & Hm0 & _).
  pose proof two32_lt_two64.
  rewrite zsub_small, to_unsigned_small by lia.
  apply (post_bind _ _ _
    (fun k e1 => k < size (m_active_genes e) /\ exists g, e1 = with_e e g)).
  - apply post_draw. intros v g Hr. specialize (Hr (N.le_0_l _)). split; [lia | eauto].
  - intros k e1 [Hk [g ->]]. unfold bind at 1, read.
    change (m_active_genes (with_e e g)) with (m_active_genes e).
    pose proof (at_In (m_active_genes e) k Hk) as Hin.
    pose proof (proj2 (invariant_active_genes_sorted e Hinv) _ Hin) as Hpos.
    eapply post_weaken;
      [apply (mutate_in_range fuel _ (with_e e g) (invariant_with_e e g Hinv) Hpos)
      | | auto | auto].
    intros _ e' (Hinv' & Hshape & v & Hx & Hlo & Hhi).
    split; [assumption|]. split.
    + eapply same_shape_trans; [|exact Hshape]. repeat split.
    + exists (m_active_genes e).[k], v. auto.
Qed.


(** *** The draw of an active function node *)

Lemma pick_function_node_active (fuel : nat) :
  forall (e : expression) (node_id : N),
    invariant e -> node_id < m_n e \/ In node_id (m_active_nodes e) ->
    post (pick_function_node fuel node_id e)
         (fun id e' => m_n e <= id /\ In id (m_active_nodes e) /\ exists g, e' = with_e e g)
         (fun _ => False) False.
Proof.
  induction fuel as [|fuel IH]; intros e node_id Hinv Hor.
  - simpl. unfold bind, read. destruct (node_id <? m_n e) eqn:Hlt; simpl; auto.
    apply N.ltb_ge in Hlt. split; [assumption|].
    split; [destruct Hor; [lia | assumption]|].
    exists (m_e e). now rewrite with_e_same.
  - simpl. unfold bind at 1, read. destruct (node_id <? m_n e) eqn:Hlt.
    + unfold bind at 1.
      destruct (active_nodes_size e Hinv) as [Hpos Hlt32]. pose proof two32_lt_two64.
      rewrite zsub_small, to_unsigned_small by lia.
      apply (post_bind _ _ _
        (fun k e' => k < size (m_active_nodes e) /\ exists g, e' = with_e e g)).
      * apply post_draw. intros v g Hr. specialize (Hr (N.le_0_l _)). split; [lia | eauto].
      * intros k e' [Hk [g ->]]. unfold bind at 1, read.
        change (m_active_nodes (with_e e g)) with (m_active_nodes e).
        eapply post_weaken; [apply (IH (with_e e g)) | | auto | auto].
        -- now apply invariant_with_e.
        -- right. now apply at_In.
        -- intros id e'' (Hid & Hin & [g' ->]).
           split; [exact Hid|]. split; [exact Hin | now exists g'].
    + simpl. apply N.ltb_ge in Hlt. split; [assumption|].
      split; [destruct Hor; [lia | assumption]|].
      exists (m_e e). now rewrite with_e_same.
Qed.

(** *** [mutate] of a function gene *)

Lemma mutate_function_gene_post (fuel : nat) (e : expression) (id : N) :
  invariant e -> m_n e <= id -> id < m_n e + m_r e * m_c e ->
  post (mutate fuel (m_gene_idx e).[id] e)
       (fun _ e' => invariant e' /\ same_shape e e' /\
          m_active_nodes e' = m_active_nodes e /\
          m_active_genes e' = m_active_genes e /\
          exists v, m_x e' = upd (m_x e) (m_gene_idx e).[id] v)
       (fun _ => False) False.
Proof.
  intros Hinv Hlo Hhi. pose proof Hinv as [Hwf _].
  pose proof (wf_sane e Hwf) as Hsane. pose proof (wf_fits e Hwf) as Hfits.
  pose proof (offset_last e) as Hlast.
  destruct (gene_pos_room e Hsane Hfits id Hlo Hhi) as (Hroom1 & Hroom2).
  pose proof (wf_gene_idx e Hwf id Hlo Hhi) as Hg.
  assert (Hpos : (m_gene_idx e).[id] < size (m_x e))
    by (rewrite (wf_size e Hwf), Hg; lia).
  eapply post_weaken; [apply (mutate_in_range fuel _ e Hinv Hpos) | | auto | auto].
  intros _ e' (Hinv' & Hshape & v & Hx & _ & Hub).
  destruct (shape_tables e (proj1 Hwf)) as (_ & Hubt & _).
  rewrite Hubt, Hg, (ub_at_function_gene e Hsane Hfits id Hlo Hhi) in Hub.
  pose proof (write_function_gene_consistent e id v Hinv Hlo Hhi Hub) as Hinv2.
  destruct (invariant_same_x _ e' Hinv2 Hinv') as [Hnodes Hgenes].
  - eapply same_shape_trans; [|exact Hshape]. repeat split.
  - simpl. now rewrite Hx.
  - split; [assumption|]. split; [assumption|].
    split; [exact Hnodes|]. split; [exact Hgenes|]. now exists v.
Qed.

(** X27: in a state whose active sets are up to date ([invariant]),
    [mutate] of the function gene of a node of the grid leaves [active_nodes]
    and [active_genes] as they were: the refresh that [mutate] makes after the
    write finds the active sets it had.  Where they are not up to date, after
    a [mutate_idxs] that threw, the refresh brings them up to date and so
    changes them. *)
Theorem mutate_function_gene_keeps_active (e : expression) (fuel : nat) (id : N)
  (e' : expression) :
  invariant e -> m_n e <= id -> id < m_n e + m_r e * m_c e ->
  mutate fuel (get_gene_idx e).[id] e = Ret tt e' ->
  get_active_nodes e' = get_active_nodes e /\
  get_active_genes e' = get_active_genes e /\
  forall k, k <> (get_gene_idx e).[id] -> (get e').[k] = (get e).[k].
Proof.
  intros Hinv Hlo Hhi He'.
  pose proof (mutate_function_gene_post fuel e id Hinv Hlo Hhi) as Hpost.
  unfold get, get_gene_idx, get_active_nodes, get_active_genes in *.
  rewrite He' in Hpost. destruct Hpost as (_ & _ & Hn & Hg & v & Hx).
  split; [exact Hn|]. split; [exact Hg|].
  intros k Hk. rewrite Hx. now apply at_upd_other.
Qed.

(** *** [mutate] of an inactive gene *)

(** X28: in a state whose active sets are up to date ([invariant]),
    [mutate] of a gene that is not active is neutral: [active_nodes] and
    [active_genes] stay as they were, and [operator()] returns at every point,
    of numbers or of strings, what it returned before.  Where they are not up
    to date, after a [mutate_idxs] that threw, the refresh of [mutate] changes
    the active sets and the values. *)
Theorem mutate_inactive_gene_neutral (e : expression) (fuel : nat) (k : N)
  (e' : expression) :
  invariant e -> ~ In k (get_active_genes e) ->
  mutate fuel k e = Ret tt e' ->
  get_active_nodes e' = get_active_nodes e /\
  get_active_genes e' = get_active_genes e /\
  (forall point, call T0 e' point = call T0 e point) /\
  (forall point, call_symbolic e' point = call_symbolic e point).
Proof.
  intros Hinv Hk He'.
  pose proof (mutate_spec fuel k e Hinv) as Hpost.
  unfold get_active_nodes, get_active_genes in *.
  rewrite He' in Hpost. destruct Hpost as (Hinv' & Hlt & Hshape & Hcase).
  assert (Hagree : forall j, In j (m_active_genes e) -> (m_x e).[j] = (m_x e').[j]).
  { intros j Hj. destruct Hcase as [[_ (v & -> & _)] | [_ ->]]; [|reflexivity].
    symmetry. apply at_upd_other. intros ->. now apply Hk. }
  assert (Hsz : size (m_x e') = size (m_x e)).
  { destruct Hcase as [[_ (v & -> & _)] | [_ ->]]; [apply size_upd | reflexivity]. }
  pose proof (agree_active_nodes e e' Hinv Hinv' Hshape Hagree) as Hnodes.
  split; [exact Hnodes|]. split.
  - destruct (invariant_active e Hinv) as (_ & _ & _ & ->).
    destruct (invariant_active e' Hinv') as (_ & _ & _ & ->).
    rewrite Hnodes. rewrite (same_shape_eq e e' Hshape) at 1.
    apply (collect_active_genes_with_x e (m_x e') (m_active_nodes e) Hsz).
  - split; intros point; unfold call, call_symbolic; symmetry;
      apply (evaluate_agree e e' Hinv Hinv' Hshape Hagree).
Qed.

(** *** [mutate_active_fgene] *)

Lemma mutate_active_fgene_body (fuel : nat) (e : expression) :
  invariant e ->
  post ((node_id <- pick_function_node fuel 0 ;;
         idx <- read (fun e => (m_gene_idx e).[node_id]) ;;
         mutate fuel idx) e)
       (fun _ e' => invariant e' /\ same_shape e e' /\
          m_active_nodes e' = m_active_nodes e /\
          m_active_genes e' = m_active_genes e /\
          exists id v, In id (m_active_nodes e) /\ m_n e <= id /\
                       m_x e' = upd (m_x e) (m_gene_idx e).[id] v)
       (fun _ => False) False.
Proof.
  intros Hinv. pose proof Hinv as [Hwf _].
  pose proof (grid_bounds e (wf_sane e Hwf) (wf_fits e Hwf)) as (Hn & _).
  eapply post_bind; [apply (pick_function_node_active fuel e 0 Hinv); left; lia|].
  intros id e1 (Hlo & Hin & [g ->]). unfold bind at 1, read.
  pose proof (invariant_active_in_grid e id Hinv Hin) as Hhi.
  eapply post_weaken;
    [apply (mutate_function_gene_post fuel (with_e e g) id
              (invariant_with_e e g Hinv) Hlo Hhi)
    | | auto | auto].
  intros _ e' (Hinv' & Hshape & Hnodes & Hgenes & v & Hx).
  split; [assumption|]. split; [eapply same_shape_trans; [|exact Hshape]; repeat split|].
  split; [exact Hnodes|]. split; [exact Hgenes|]. exists id, v. auto.
Qed.

Lemma mutate_active_fgene_post (e : expression) (fuel : nat) (n : N) :
  invariant e ->
  post (mutate_active_fgene fuel n e)
       (fun _ e' => invariant e' /\ same_shape e e' /\ size (m_x e') = size (m_x e) /\
          m_active_nodes e' = m_active_nodes e /\
          m_active_genes e' = m_active_genes e /\
          forall k, (m_x e').[k] <> (m_x e).[k] ->
            exists id, In id (m_active_nodes e) /\ m_n e <= id /\
                       k = (m_gene_idx e).[id])
       (fun _ => False) False.
Proof.
  intros Hinv. unfold mutate_active_fgene, bind at 1, read.
  destruct (m_m e <? size (m_active_genes e)).
  - apply post_foldM.
    + intros [] _ e1 _ (Hinv1 & Hshape1 & Hsize1 & Hn1 & Hg1 & Hframe1).
      eapply post_weaken; [apply (mutate_active_fgene_body fuel e1 Hinv1) | | auto | auto].
      intros _ e2 (Hinv2 & Hshape2 & Hn2 & Hg2 & id & v & Hid & Hlo & Hx).
      assert (Hgi : m_gene_idx e1 = m_gene_idx e) by (symmetry; apply Hshape1).
      assert (Hmn : m_n e1 = m_n e) by (symmetry; apply Hshape1).
      split; [assumption|]. split; [eapply same_shape_trans; eassumption|].
      split; [rewrite Hx, size_upd; exact Hsize1|].
      split; [congruence|]. split; [congruence|].
      intros k Hk. destruct (N.eq_dec k (m_gene_idx e1).[id]) as [-> | Hne].
      * exists id. rewrite <- Hn1, <- Hmn, Hgi. auto.
      * apply Hframe1. rewrite Hx, at_upd_other in Hk by assumption. exact Hk.
    + split; [assumption|]. split; [apply same_shape_refl|].
      repeat split; auto. intros k Hk. now contradiction Hk.
  - simpl. split; [assumption|]. split; [apply same_shape_refl|].
    repeat split; auto. intros k Hk. now contradiction Hk.
Qed.

(** X16: in a state whose active sets are up to date ([invariant]),
    [mutate_active_fgene(N)] never throws; it does nothing when no function
    node is active ([active_genes] holds the output genes only); and when it
    returns, every gene that differs is the function gene of a node that was
    active before the call, so [active_nodes] and [active_genes] are the ones
    before the call.  Where the active sets are not up to date, after a
    [mutate_idxs] that threw, the refresh of the call may change them. *)
Theorem mutate_active_fgene_frame (e : expression) (fuel : nat) (n : N) :
  invariant e ->
  (forall e', mutate_active_fgene fuel n e <> Throw e') /\
  (size (get_active_genes e) <= m_m e -> mutate_active_fgene fuel n e = Ret tt e) /\
  (forall e', mutate_active_fgene fuel n e = Ret tt e' ->
     same_shape e e' /\ size (get e') = size (get e) /\
     get_active_nodes e' = get_active_nodes e /\
     get_active_genes e' = get_active_genes e /\
     forall k, (get e').[k] <> (get e).[k] ->
       exists id, In id (get_active_nodes e) /\ m_n e <= id /\ k = (get_gene_idx e).[id]).
Proof.
  intros Hinv.
  unfold get, get_active_nodes, get_active_genes, get_gene_idx.
  pose proof (mutate_active_fgene_post e fuel n Hinv) as Hpost.
  split; [exact (proj1 (post_not_stuck _ _ Hpost))|]. split.
  - intros Hsz. unfold mutate_active_fgene, bind at 1, read.
    replace (m_m e <? size (m_active_genes e)) with false
      by (symmetry; now apply N.ltb_ge).
    reflexivity.
  - intros e' He'. rewrite He' in Hpost. apply Hpost.
Qed.

(** *** [mutate_active_cgene] *)

Lemma mutate_active_cgene_body (fuel : nat) (e : expression) :
  invariant e ->
  post ((idx <- pick_function_node fuel 0 ;;
         hi <- read (fun e => _get_arity e idx) ;;
         k <- draw 1 hi ;;
         idx <- read (fun e => uadd (m_gene_idx e).[idx] k) ;;
         mutate fuel idx) e)
       (fun _ e' => invariant e' /\ same_shape e e' /\
          exists id t v, In id (m_active_nodes e) /\ m_n e <= id /\
                         1 <= t /\ t <= (m_arity e).[(id - m_n e) / m_r e] /\
                         m_x e' = upd (m_x e) ((m_gene_idx e).[id] + t) v)
       (fun _ => False) False.
Proof.
  intros Hinv. pose proof Hinv as [Hwf _].
  pose proof (wf_sane e Hwf) as Hsane. pose proof (wf_fits e Hwf) as Hfits.
  pose proof (grid_bounds e Hsane Hfits) as (Hn & _).
  pose proof (offset_last e) as Hlast.
  eapply post_bind; [apply (pick_function_node_active fuel e 0 Hinv); left; lia|].
  intros id e1 (Hlo & Hin & [g ->]). unfold bind at 1, read.
  change (_get_arity (with_e e g) id) with (_get_arity e id).
  pose proof (invariant_active_in_grid e id Hinv Hin) as Hhi.
  pose proof (wf_get_arity e Hwf id Hlo Hhi) as Har.
  destruct (grid_position e Hsane Hfits id Hlo Hhi) as (Hcol & _).
  destruct (sanity_checks_spec e Hsane) as (_ & _ & _ & _ & _ & Hsz & Hpos & _).
  assert (Hone : 0 < (m_arity e).[(id - m_n e) / m_r e]) by (apply Hpos, at_In; lia).
  apply (post_bind _ _ _
    (fun t e2 => 1 <= t /\ t <= (m_arity e).[(id - m_n e) / m_r e] /\
                 exists g', e2 = with_e e g')).
  - apply post_draw. intros t g' Hr. rewrite Har in Hr.
    specialize (Hr ltac:(lia)). split; [lia|]. split; [lia|]. now exists g'.
  - intros t e2 (Ht1 & Ht2 & [g' ->]). unfold bind at 1, read.
    change (m_gene_idx (with_e e g')) with (m_gene_idx e).
    destruct (wf_gene_index e Hwf id t Hlo Hhi ltac:(lia)) as [Hu Hlt].
    pose proof (wf_gene_idx e Hwf id Hlo Hhi) as Hg.
    rewrite Hu.
    assert (Hin' : gene_pos e id + t < size (m_x (with_e e g')))
      by (change (m_x (with_e e g')) with (m_x e); rewrite (wf_size e Hwf); lia).
    eapply post_weaken;
      [apply (mutate_in_range fuel _ (with_e e g') (invariant_with_e e g' Hinv) Hin')
      | | auto | auto].
    intros _ e' (Hinv' & Hshape & v & Hx & _).
    split; [assumption|]. split; [eapply same_shape_trans; [|exact Hshape]; repeat split|].
    exists id, t, v. rewrite Hg. auto.
Qed.

Lemma mutate_active_cgene_post (e : expression) (fuel : nat) (n : N) :
  invariant e ->
  post (mutate_active_cgene fuel n e)
       (fun _ e' => invariant e' /\ same_shape e e' /\ size (m_x e') = size (m_x e) /\
          forall k, (m_x e').[k] <> (m_x e).[k] ->
            exists id t, m_n e <= id /\ id < m_n e + m_r e * m_c e /\
                         1 <= t /\ t <= (m_arity e).[(id - m_n e) / m_r e] /\
                         k = (m_gene_idx e).[id] + t)
       (fun _ => False) False.
Proof.
  intros Hinv. unfold mutate_active_cgene, bind at 1, read.
  destruct (m_m e <? size (m_active_genes e)).
  - apply post_foldM.
    + intros [] _ e1 _ (Hinv1 & Hshape1 & Hsize1 & Hframe1).
      eapply post_weaken; [apply (mutate_active_cgene_body fuel e1 Hinv1) | | auto | auto].
      intros _ e2 (Hinv2 & Hshape2 & id & t & v & Hid & Hlo & Ht1 & Ht2 & Hx).
      pose proof (invariant_active_in_grid e1 id Hinv1 Hid) as Hhi.
      pose proof Hshape1 as (Hn1 & _ & Hr1 & Hc1 & _ & Ha1 & _ & _ & _ & Hg1).
      rewrite <- Hn1, <- Hr1, <- Hc1 in Hhi. rewrite <- Hn1 in Hlo.
      rewrite <- Hn1, <- Hr1, <- Ha1 in Ht2. rewrite <- Hg1 in Hx.
      split; [assumption|]. split; [eapply same_shape_trans; eassumption|].
      split; [rewrite Hx, size_upd; exact Hsize1|].
      intros k Hk. destruct (N.eq_dec k ((m_gene_idx e).[id] + t)) as [-> | Hne].
      * exists id, t. auto.
      * apply Hframe1. rewrite Hx, at_upd_other in Hk by assumption. exact Hk.
    + split; [assumption|]. split; [apply same_shape_refl|].
      split; [reflexivity|]. intros k Hk. now contradiction Hk.
  - simpl. split; [assumption|]. split; [apply same_shape_refl|].
    split; [reflexivity|]. intros k Hk. now contradiction Hk.
Qed.

(** A chromosome that differs at connection genes only has the function
    genes and the output genes of the other. *)
Lemma connection_changes_keep (e : expression) (x' : list N) :
  wf e ->
  (forall k, x'.[k] <> (m_x e).[k] ->
     exists id t, m_n e <= id /\ id < m_n e + m_r e * m_c e /\
                  1 <= t /\ t <= (m_arity e).[(id - m_n e) / m_r e] /\
                  k = (m_gene_idx e).[id] + t) ->
  (forall id, m_n e <= id -> id < m_n e + m_r e * m_c e ->
     x'.[(m_gene_idx e).[id]] = (m_x e).[(m_gene_idx e).[id]]) /\
  (forall i, i < m_m e ->
     x'.[size (m_x e) - m_m e + i] = (m_x e).[size (m_x e) - m_m e + i]).
Proof.
  intros Hwf Hframe.
  pose proof (wf_sane e Hwf) as Hsane. pose proof (wf_fits e Hwf) as Hfits.
  pose proof (offset_last e) as Hlast. split.
  - intros id Hlo Hhi.
    destruct (N.eq_dec x'.[(m_gene_idx e).[id]] (m_x e).[(m_gene_idx e).[id]])
      as [Heq | Hne]; [assumption|].
    exfalso. destruct (Hframe _ Hne) as (p & t & Hp1 & Hp2 & Ht1 & Ht2 & Hk).
    rewrite !(wf_gene_idx e Hwf) in Hk by assumption.
    symmetry in Hk. revert Hk. now apply gene_pos_disjoint.
  - intros i Hi. rewrite (wf_size e Hwf).
    destruct (N.eq_dec x'.[genome_size e - m_m e + i]
                       (m_x e).[genome_size e - m_m e + i]) as [Heq | Hne];
      [assumption|].
    exfalso. destruct (Hframe _ Hne) as (p & t & Hp1 & Hp2 & Ht1 & Ht2 & Hk).
    rewrite (wf_gene_idx e Hwf) in Hk by assumption.
    destruct (gene_pos_room e Hsane Hfits p Hp1 Hp2). lia.
Qed.

(** X17: in every state [mutate_active_cgene(N)] never throws; it does
    nothing when no function node is active; and when it returns, every gene
    that differs is a connection gene of a node of the grid: no function gene
    and no output gene has changed. *)
Theorem mutate_active_cgene_frame (e : expression) (fuel : nat) (n : N) :
  reachable e ->
  (forall e', mutate_active_cgene fuel n e <> Throw e') /\
  (size (get_active_genes e) <= m_m e -> mutate_active_cgene fuel n e = Ret tt e) /\
  (forall e', mutate_active_cgene fuel n e = Ret tt e' ->
     same_shape e e' /\ size (get e') = size (get e) /\
     (forall k, (get e').[k] <> (get e).[k] ->
        exists id t, m_n e <= id /\ id < m_n e + m_r e * m_c e /\
                     1 <= t /\ t <= (m_arity e).[(id - m_n e) / m_r e] /\
                     k = (get_gene_idx e).[id] + t) /\
     (forall id, m_n e <= id -> id < m_n e + m_r e * m_c e ->
        (get e').[(get_gene_idx e).[id]] = (get e).[(get_gene_idx e).[id]]) /\
     (forall i, i < m_m e ->
        (get e').[size (get e) - m_m e + i] = (get e).[size (get e) - m_m e + i])).
Proof.
  intros Hreach. pose proof (reachable_invariant e Hreach) as Hinv.
  unfold get, get_active_genes, get_gene_idx.
  pose proof (mutate_active_cgene_post e fuel n Hinv) as Hpost.
  split; [exact (proj1 (post_not_stuck _ _ Hpost))|]. split.
  - intros Hsz. unfold mutate_active_cgene, bind at 1, read.
    replace (m_m e <? size (m_active_genes e)) with false
      by (symmetry; now apply N.ltb_ge).
    reflexivity.
  - intros e' He'. rewrite He' in Hpost. destruct Hpost as (_ & Hshape & Hsize & Hframe).
    split; [assumption|]. split; [assumption|]. split; [assumption|].
    now apply connection_changes_keep; [apply Hinv|].
Qed.

(** ** [mutate] of a list of positions *)

Lemma update_frame (e : expression) (R : expression -> Prop) (U : Prop) :
  post (update_data_structures e)
       (fun _ e' => exists nodes genes, e' = with_active e nodes genes) R U.
Proof.
  unfold update_data_structures.
  destruct (back_wave e (wave_budget e) (output_nodes e) []); simpl; eauto.
Qed.

Lemma mutate_idxs_post (e : expression) (fuel : nat) (idxs : list N) :
  post (mutate_idxs fuel idxs e)
       (fun _ e' => (forall k, In k idxs -> k < size (m_x e)) /\
                    same_shape e e' /\ size (m_x e') = size (m_x e) /\
                    forall k, ~ In k idxs -> (m_x e').[k] = (m_x e).[k])
       (fun e' => (exists k, In k idxs /\ size (m_x e) <= k) /\
                  same_shape e e' /\ size (m_x e') = size (m_x e) /\
                  forall k, ~ In k idxs -> (m_x e').[k] = (m_x e).[k])
       False.
Proof.
  unfold mutate_idxs.
  apply (post_bind _ _ _
    (fun _ e' => (forall k, In k idxs -> k < size (m_x e)) /\
                 same_shape e e' /\ size (m_x e') = size (m_x e) /\
                 forall k, ~ In k idxs -> (m_x e').[k] = (m_x e).[k])).
  - apply (post_foldM_prefix _ _
      (fun pre _ e' => (forall k, In k pre -> k < size (m_x e)) /\
                       same_shape e e' /\ size (m_x e') = size (m_x e) /\
                       forall k, ~ In k idxs -> (m_x e').[k] = (m_x e).[k])).
    + intros pre idx flag e1 Hidx (Hpre & Hshape & Hsize & Hframe).
      unfold bind at 1, read. destruct (size (m_x e1) <=? idx) eqn:Hsz.
      * apply N.leb_le in Hsz. simpl. split; [|auto].
        exists idx. split; [assumption | lia].
      * apply N.leb_gt in Hsz.
        eapply post_bind; [apply post_no_throw, redraw_gene_spec|].
        intros changed e2 Hred. simpl.
        assert (Hpre' : forall k, In k (pre ++ [idx]) -> k < size (m_x e)).
        { intros k Hk. apply in_app_iff in Hk. destruct Hk as [Hk | [<- | []]]; [auto | lia]. }
        split; [exact Hpre'|]. destruct changed; simpl in Hred.
        -- destruct Hred as (v & g & -> & _). simpl. rewrite size_upd.
           split; [eapply same_shape_trans; [exact Hshape | repeat split]|].
           split; [assumption|]. intros k Hk.
           rewrite at_upd_other by (intros ->; contradiction). now apply Hframe.
        -- destruct Hred as [-> _]. auto.
    + split; [intros k []|]. split; [apply same_shape_refl|]. auto.
  - intros flag e1 (Hall & Hshape & Hsize & Hframe). destruct flag.
    + eapply post_weaken;
        [apply (update_frame e1 (fun _ => False) False) | | intros e' [] | auto].
      intros _ e' (nodes & genes & ->). split; [assumption|].
      split; [eapply same_shape_trans; [exact Hshape | repeat split]|]. auto.
    + simpl. auto.
Qed.

(** X18: [mutate(idxs)] changes no gene whose index is not in [idxs],
    whether it returns or throws; when it throws an index of the list is
    outside the chromosome, and when it returns every index of the list is
    inside. *)
Theorem mutate_idxs_frame (e : expression) (fuel : nat) (idxs : list N) :
  (forall e', mutate_idxs fuel idxs e = Throw e' ->
     exists k, In k idxs /\ size (get e) <= k) /\
  (forall e', mutate_idxs fuel idxs e = Ret tt e' ->
     forall k, In k idxs -> k < size (get e)) /\
  (forall e', mutate_idxs fuel idxs e = Ret tt e' \/ mutate_idxs fuel idxs e = Throw e' ->
     same_shape e e' /\ size (get e') = size (get e) /\
     forall k, ~ In k idxs -> (get e').[k] = (get e).[k]).
Proof.
  pose proof (mutate_idxs_post e fuel idxs) as Hpost. unfold get.
  split; [|split].
  - intros e' He'. rewrite He' in Hpost. apply Hpost.
  - intros e' He'. rewrite He' in Hpost. apply Hpost.
  - intros e' [He' | He']; rewrite He' in Hpost; apply Hpost.
Qed.

(** ** [mutate_random] *)

Lemma redraw_gene_eq (fuel : nat) (idx : N) (e : expression) :
  redraw_gene fuel idx e
  = if (m_lb e).[idx] <? (m_ub e).[idx] then
      match fresh_draw fuel (m_lb e).[idx] (m_ub e).[idx] (m_x e).[idx] (m_e e) with
      | Some (v, g) => Ret true (with_x (with_e e g) (upd (m_x e) idx v))
      | None => OutOfFuel
      end
    else Ret false e.
Proof.
  unfold redraw_gene, bind at 1 2, read.
  destruct ((m_lb e).[idx] <? (m_ub e).[idx]); [|reflexivity].
  unfold bind at 1 2. rewrite draw_new_value_eq.
  destruct (fresh_draw fuel (m_lb e).[idx] (m_ub e).[idx] (m_x e).[idx] (m_e e)) as [[v g]|];
    reflexivity.
Qed.

Lemma with_x_e_same (e : expression) : with_x (with_e e (m_e e)) (m_x e) = e.
Proof. now destruct e. Qed.

(** The loop of [mutate_random] as draws on the chromosome and the engine. *)
Lemma random_loop_eq (fuel : nat) (l : list N) :
  forall (flag : bool) (e : expression),
    foldM (fun flag _ =>
             hi <- read (fun e => to_unsigned (zsub (size (m_lb e)) 1)) ;;
             idx <- draw 0 hi ;;
             changed <- redraw_gene fuel idx ;;
             ret (if changed : bool then true else flag)) l flag e
    = match random_draws fuel (length l) (m_lb e) (m_ub e) (m_x e) (m_e e) flag with
      | Some (x, g, f) => Ret f (with_x (with_e e g) x)
      | None => OutOfFuel
      end.
Proof.
  induction l as [|a t IH]; intros flag e.
  - simpl. unfold ret. now rewrite with_x_e_same.
  - simpl foldM. simpl random_draws. unfold bind at 1 2 3, read, draw.
    destruct (uniform_int 0 (to_unsigned (zsub (size (m_lb e)) 1)) (m_e e)) as [idx g0].
    unfold bind at 1. rewrite redraw_gene_eq.
    change (m_lb (with_e e g0)) with (m_lb e). change (m_ub (with_e e g0)) with (m_ub e).
    change (m_x (with_e e g0)) with (m_x e). change (m_e (with_e e g0)) with g0.
    destruct ((m_lb e).[idx] <? (m_ub e).[idx]).
    + destruct (fresh_draw fuel (m_lb e).[idx] (m_ub e).[idx] (m_x e).[idx] g0)
        as [[v g1]|]; [|reflexivity].
      unfold ret. rewrite IH. reflexivity.
    + unfold ret. rewrite IH. reflexivity.
Qed.

Lemma mutate_random_eq (fuel : nat) (n : N) (e : expression) :
  mutate_random fuel n e
  = match random_draws fuel (N.to_nat n) (m_lb e) (m_ub e) (m_x e) (m_e e) false with
    | Some (x, g, true) => update_data_structures (with_x (with_e e g) x)
    | Some (x, g, false) => Ret tt (with_x (with_e e g) x)
    | None => OutOfFuel
    end.
Proof.
  unfold mutate_random, bind at 1. rewrite random_loop_eq, length_range, N.sub_0_r.
  destruct (random_draws fuel (N.to_nat n) (m_lb e) (m_ub e) (m_x e) (m_e e) false)
    as [[[x g] [|]]|]; reflexivity.
Qed.

Lemma random_draws_app (fuel : nat) (lb ub : list N) (ka kb : nat) :
  forall x g flag,
    random_draws fuel (ka + kb) lb ub x g flag
    = match random_draws fuel ka lb ub x g flag with
      | Some (x1, g1, f1) => random_draws fuel kb lb ub x1 g1 f1
      | None => None
      end.
Proof.
  induction ka as [|ka IH]; intros x g flag; [reflexivity|].
  simpl. destruct (uniform_int 0 (to_unsigned (zsub (size lb) 1)) g) as [idx g0].
  destruct (lb.[idx] <? ub.[idx]); [|apply IH].
  destruct (fresh_draw fuel lb.[idx] ub.[idx] x.[idx] g0) as [[v g1]|]; [apply IH | reflexivity].
Qed.

(** The flag a run starts from is kept; a run that leaves it down has not
    written the chromosome. *)
Lemma random_draws_flag (fuel : nat) (lb ub : list N) (k : nat) :
  forall x g,
    random_draws fuel k lb ub x g true
    = match random_draws fuel k lb ub x g false with
      | Some (x1, g1, _) => Some (x1, g1, true)
      | None => None
      end
    /\ forall x1 g1, random_draws fuel k lb ub x g false = Some (x1, g1, false) -> x1 = x.
Proof.
  induction k as [|k IH]; intros x g.
  - simpl. split; [reflexivity|]. intros x1 g1 H. now injection H as <- _.
  - simpl. destruct (uniform_int 0 (to_unsigned (zsub (size lb) 1)) g) as [idx g0].
    destruct (lb.[idx] <? ub.[idx]).
    + destruct (fresh_draw fuel lb.[idx] ub.[idx] x.[idx] g0) as [[v g1]|].
      * split.
        -- destruct (IH (upd x idx v) g1) as [Hflag _].
           rewrite Hflag.
           destruct (random_draws fuel k lb ub (upd x idx v) g1 false) as [[[x1 g2] f]|];
             reflexivity.
        -- intros x1 g2 H. exfalso. destruct (IH (upd x idx v) g1) as [Hflag _].
           rewrite Hflag in H.
           destruct (random_draws fuel k lb ub (upd x idx v) g1 false) as [[[x2 g3] f]|];
             discriminate.
      * split; [reflexivity | discriminate].
    + apply IH.
Qed.

(** The draws keep a chromosome within the bounds. *)
Lemma random_draws_valid (fuel : nat) (e : expression) (k : nat) :
  wf e ->
  forall x g flag x1 g1 f1,
    is_valid e x = true ->
    random_draws fuel k (m_lb e) (m_ub e) x g flag = Some (x1, g1, f1) ->
    is_valid e x1 = true.
Proof.
  intros Hwf. destruct (wf_last_index e Hwf) as [Hlast Hpos].
  destruct (shape_tables e (proj1 Hwf)) as (Hlb & _).
  induction k as [|k IH]; intros x g flag x1 g1 f1 Hvalid H.
  - simpl in H. now injection H as <- _ _.
  - simpl in H. rewrite Hlast in H.
    pose proof (uniform_int_range 0 (genome_size e - 1) g (N.le_0_l _)) as Hr.
    destruct (uniform_int 0 (genome_size e - 1) g) as [idx g0]. simpl in Hr.
    destruct ((m_lb e).[idx] <? (m_ub e).[idx]) eqn:Hlt; [|now apply (IH x g0 flag x1 g1 f1)].
    apply N.ltb_lt in Hlt.
    destruct (fresh_draw fuel (m_lb e).[idx] (m_ub e).[idx] x.[idx] g0) as [[v g2]|] eqn:Hd;
      [|discriminate].
    apply (IH (upd x idx v) g2 true x1 g1 f1); [|exact H].
    destruct (fresh_draw_spec _ _ _ _ _ _ _ Hd) as [_ Hb]. specialize (Hb ltac:(lia)).
    apply is_valid_spec in Hvalid. destruct Hvalid as [Hsz Hbounds].
    apply is_valid_spec. rewrite size_upd. split; [assumption|].
    intros i Hi. destruct (N.eq_dec i idx) as [-> | Hne].
    + rewrite at_upd_same by assumption. exact Hb.
    + rewrite at_upd_other by assumption. now apply Hbounds.
Qed.

(** X19: in every state [mutate_random(a + b)] never throws, and does what
    [mutate_random(a)] followed by [mutate_random(b)] does: the same draws in
    the same order, and the same active sets at the end, although they are
    refreshed once and not twice. *)
Theorem mutate_random_composes (e : expression) (fuel : nat) (a b : N) :
  reachable e ->
  (forall e', mutate_random fuel (a + b) e <> Throw e') /\
  mutate_random fuel (a + b) e = (mutate_random fuel a ;; mutate_random fuel b) e.
Proof.
  intros Hreach. pose proof (reachable_invariant e Hreach) as Hinv.
  split; [exact (proj1 (post_not_stuck _ _ (mutate_random_spec fuel (a + b) e Hinv)))|].
  pose proof Hinv as [Hwf Hcons].
  unfold bind. rewrite (mutate_random_eq fuel (a + b) e), (mutate_random_eq fuel a e).
  rewrite N2Nat.inj_add, random_draws_app.
  destruct (random_draws fuel (N.to_nat a) (m_lb e) (m_ub e) (m_x e) (m_e e) false)
    as [[[x1 g1] f1]|] eqn:Ha; [|reflexivity].
  pose proof (random_draws_valid fuel e _ Hwf _ _ _ _ _ _ (proj2 Hwf) Ha) as Hvalid1.
  destruct (random_draws_flag fuel (m_lb e) (m_ub e) (N.to_nat b) x1 g1) as [Hflag Hkeep].
  destruct f1.
  - assert (Hwf1 : wf (with_x (with_e e g1) x1)).
    { split; [apply (shape_ok_same e); [repeat split | apply Hwf] | exact Hvalid1]. }
    destruct (update_spec _ Hwf1) as (nodes & genes & Hupd & _).
    rewrite Hupd, mutate_random_eq, Hflag.
    change (m_lb (with_active (with_x (with_e e g1) x1) nodes genes)) with (m_lb e).
    change (m_ub (with_active (with_x (with_e e g1) x1) nodes genes)) with (m_ub e).
    change (m_x (with_active (with_x (with_e e g1) x1) nodes genes)) with x1.
    change (m_e (with_active (with_x (with_e e g1) x1) nodes genes)) with g1.
    destruct (random_draws fuel (N.to_nat b) (m_lb e) (m_ub e) x1 g1 false)
      as [[[x2 g2] f2]|] eqn:Hb; [|reflexivity].
    destruct f2.
    + change (with_x (with_e (with_active (with_x (with_e e g1) x1) nodes genes) g2) x2)
        with (with_active (with_x (with_e e g2) x2) nodes genes).
      now rewrite update_with_active.
    + rewrite (Hkeep x2 g2 eq_refl).
      change (with_x (with_e e g2) x1) with (with_e (with_x (with_e e g1) x1) g2).
      rewrite update_with_e, Hupd. reflexivity.
  - rewrite mutate_random_eq.
    change (m_lb (with_x (with_e e g1) x1)) with (m_lb e).
    change (m_ub (with_x (with_e e g1) x1)) with (m_ub e).
    change (m_x (with_x (with_e e g1) x1)) with x1.
    change (m_e (with_x (with_e e g1) x1)) with g1.
    destruct (random_draws fuel (N.to_nat b) (m_lb e) (m_ub e) x1 g1 false)
      as [[[x2 g2] [|]]|]; reflexivity.
Qed.

(** ** Many mutations at once, or one call after another *)

Lemma foldM_app {A B : Type} (body : B -> A -> M B) (l1 l2 : list A) :
  forall b e, foldM body (l1 ++ l2) b e = bind (foldM body l1 b) (foldM body l2) e.
Proof.
  induction l1 as [|a l1 IH]; intros b e; [reflexivity|].
  simpl. unfold bind.
  destruct (body b a e) as [b' e'| | |]; try reflexivity. now rewrite IH.
Qed.

Lemma foldM_length {A B : Type} (c : B -> M B) (l l' : list A) :
  length l = length l' ->
  forall b e, foldM (fun b _ => c b) l b e = foldM (fun b _ => c b) l' b e.
Proof.
  revert l'. induction l as [|a l IH]; intros [|a' l'] Hlen b e; try discriminate.
  - reflexivity.
  - simpl. unfold bind. destruct (c b e) as [b' e'| | |]; try reflexivity.
    apply IH. now injection Hlen.
Qed.

(** A loop of [a + b] turns whose body reads neither the counter nor a
    local variable is a loop of [a] turns followed by one of [b] turns. *)
Lemma loop_split (c : M unit) (a b : N) (e : expression) :
  foldM (fun _ _ => c) (range 0 (a + b)) tt e
  = (foldM (fun _ _ => c) (range 0 a) tt ;; foldM (fun _ _ => c) (range 0 b) tt) e.
Proof.
  rewrite (foldM_length (fun _ => c) (range 0 (a + b)) (range 0 a ++ range 0 b))
    by (rewrite length_app, !length_range; lia).
  rewrite foldM_app. unfold bind.
  destruct (foldM (fun _ _ => c) (range 0 a) tt e) as [[] e'| | |]; reflexivity.
Qed.

Lemma reach_function_output (e : expression) (outs : list N) (id : N) :
  reach_from e outs id -> m_n e <= id -> exists o, In o outs /\ m_n e <= o.
Proof.
  induction 1 as [id Hin | p id Hp IH Hlo Hid]; intros Hge; eauto.
Qed.

(** The test of [mutate_active_fgene] and [mutate_active_cgene]: there is
    an active gene beyond the output genes exactly when an output gene selects
    a function node. *)
Lemma active_function_gene (e : expression) :
  invariant e ->
  ((m_m e <? size (m_active_genes e)) = true <->
   exists o, In o (output_nodes e) /\ m_n e <= o).
Proof.
  intros Hinv. destruct (invariant_active_genes e Hinv) as [Hgenes _].
  assert (Hsize : size (m_active_genes e)
                  = size (flat_map (genes_of e) (m_active_nodes e)) + m_m e)
    by (rewrite Hgenes at 1; rewrite size_app, size_map, size_range; lia).
  rewrite N.ltb_lt, Hsize. split.
  - intros Hlt.
    destruct (flat_map (genes_of e) (m_active_nodes e)) as [|k rest] eqn:Hfm;
      [unfold size in Hlt; simpl in Hlt; lia|].
    assert (Hk : In k (flat_map (genes_of e) (m_active_nodes e)))
      by (rewrite Hfm; now left).
    apply in_flat_map in Hk. destruct Hk as [id [Hid Hk]].
    assert (Hlo : m_n e <= id).
    { unfold genes_of in Hk. destruct (m_n e <=? id) eqn:Hlo; [|destruct Hk].
      now apply N.leb_le. }
    apply (invariant_active_reach e id Hinv) in Hid.
    now apply (reach_function_output e _ id).
  - intros [o [Ho Hlo]].
    assert (Hin : In (uadd (m_gene_idx e).[o] 0) (flat_map (genes_of e) (m_active_nodes e))).
    { apply in_flat_map. exists o. split.
      - apply (invariant_active_reach e o Hinv). now apply reach_here.
      - apply In_genes_of; [assumption | lia]. }
    destruct (flat_map (genes_of e) (m_active_nodes e)); [destruct Hin|].
    rewrite size_cons. lia.
Qed.

Lemma mutate_active_fgene_eq (fuel : nat) (n : N) (e : expression) :
  mutate_active_fgene fuel n e
  = if m_m e <? size (m_active_genes e) then
      foldM (fun _ _ =>
               node_id <- pick_function_node fuel 0 ;;
               idx <- read (fun e => (m_gene_idx e).[node_id]) ;;
               mutate fuel idx) (range 0 n) tt e
    else Ret tt e.
Proof.
  unfold mutate_active_fgene, bind at 1, read.
  destruct (m_m e <? size (m_active_genes e)); reflexivity.
Qed.

Lemma mutate_active_cgene_eq (fuel : nat) (n : N) (e : expression) :
  mutate_active_cgene fuel n e
  = if m_m e <? size (m_active_genes e) then
      foldM (fun _ _ =>
               idx <- pick_function_node fuel 0 ;;
               hi <- read (fun e => _get_arity e idx) ;;
               k <- draw 1 hi ;;
               idx <- read (fun e => uadd (m_gene_idx e).[idx] k) ;;
               mutate fuel idx) (range 0 n) tt e
    else Ret tt e.
Proof.
  unfold mutate_active_cgene, bind at 1, read.
  destruct (m_m e <? size (m_active_genes e)); reflexivity.
Qed.

(** X20: in a state whose active sets are up to date ([invariant]), each
    of [mutate_active], [mutate_active_fgene] and [mutate_active_cgene] called
    with [a + b] does what the call with [a] followed by the call with [b]
    does: the mutations made at once are the mutations made one call after
    another.  Where the active sets are not up to date, after a [mutate_idxs]
    that threw, the two differ: the guard of [mutate_active_fgene] and of
    [mutate_active_cgene] is read once in the one call and again, after a
    refresh, in the second of the two. *)
Theorem mutate_active_composes (e : expression) (fuel : nat) (a b : N) :
  invariant e ->
  mutate_active fuel (a + b) e = (mutate_active fuel a ;; mutate_active fuel b) e /\
  mutate_active_fgene fuel (a + b) e
  = (mutate_active_fgene fuel a ;; mutate_active_fgene fuel b) e /\
  mutate_active_cgene fuel (a + b) e
  = (mutate_active_cgene fuel a ;; mutate_active_cgene fuel b) e.
Proof.
  intros Hinv.
  split; [apply loop_split|]. split.
  - pose proof (mutate_active_fgene_post e fuel a Hinv) as Hpost.
    unfold bind at 1. rewrite !mutate_active_fgene_eq in *.
    destruct (m_m e <? size (m_active_genes e)) eqn:Hguard.
    + rewrite loop_split. unfold bind at 1.
      match type of Hpost with
      | post ?o _ _ _ => destruct o as [[] e1| | |]; try reflexivity
      end.
      destruct Hpost as (_ & Hshape & _ & _ & Hg & _).
      rewrite mutate_active_fgene_eq, Hg.
      replace (m_m e1) with (m_m e) by apply Hshape.
      now rewrite Hguard.
    + now rewrite mutate_active_fgene_eq, Hguard.
  - pose proof (mutate_active_cgene_post e fuel a Hinv) as Hpost.
    unfold bind at 1. rewrite !mutate_active_cgene_eq in *.
    destruct (m_m e <? size (m_active_genes e)) eqn:Hguard.
    + rewrite loop_split. unfold bind at 1.
      match type of Hpost with
      | post ?o _ _ _ => destruct o as [[] e1| | |]; try reflexivity
      end.
      destruct Hpost as (Hinv1 & Hshape & Hsize & Hframe).
      assert (Hguard1 : (m_m e1 <? size (m_active_genes e1)) = true).
      { apply (active_function_gene e1 Hinv1).
        apply (active_function_gene e Hinv) in Hguard.
        destruct Hguard as [o [Ho Hlo]]. exists o.
        replace (m_n e1) with (m_n e) by apply Hshape. split; [|assumption].
        rewrite output_nodes_eq in *. rewrite Hsize.
        replace (m_m e1) with (m_m e) by apply Hshape.
        apply in_map_iff in Ho. destruct Ho as [i [<- Hi]].
        apply in_map_iff. exists i. split; [|assumption].
        apply In_range in Hi.
        destruct (wf_output_index e (proj1 Hinv) i (proj2 Hi)) as (-> & _ & _).
        destruct (connection_changes_keep e (m_x e1) (proj1 Hinv) Hframe) as [_ Hout].
        specialize (Hout i (proj2 Hi)).
        rewrite (wf_size e (proj1 Hinv)) in Hout. pose proof (offset_last e).
        replace (genome_size e - m_m e + i) with (offset e (m_c e) + i) in Hout by lia.
        exact Hout. }
      now rewrite mutate_active_cgene_eq, Hguard1.
    + now rewrite mutate_active_cgene_eq, Hguard.
Qed.

(** ** [set_f_gene]: what it refuses *)

(** X21: in every state [set_f_gene(node_id, f_id)] throws exactly when
    [f_id] is not the index of a kernel of the set or [node_id] is not a node
    of the grid, an input included, and it leaves the object as it was
    then. *)
Theorem set_f_gene_validates (e : expression) (node_id f_id : N) :
  reachable e ->
  (set_f_gene node_id f_id e = Throw e <->
   size (m_f e) <= f_id \/ node_id < m_n e \/ m_n e + m_r e * m_c e <= node_id) /\
  (forall e', set_f_gene node_id f_id e = Throw e' -> e' = e).
Proof.
  intros Hreach. pose proof (reachable_invariant e Hreach) as [Hwf _].
  pose proof (grid_bounds e (wf_sane e Hwf) (wf_fits e Hwf))
    as (Hn & Hr & Hc & Hm & H1 & H2 & H3 & H4 & Hf & _).
  rewrite (set_f_gene_eq node_id f_id e Hwf).
  destruct (size (m_f e) - 1 <? f_id) eqn:Hfid;
    destruct (node_id <? m_n e) eqn:Hlo;
    destruct (m_n e + m_r e * m_c e - 1 <? node_id) eqn:Hhi;
    rewrite ?N.ltb_lt, ?N.ltb_ge in *; simpl;
    (split; [split; [intros H; try discriminate H; lia | intros H; try reflexivity; lia]
            | intros e' H; try discriminate H; now injection H as <-]).
Qed.

(** ** [mutate_ogene]: the number of draws *)

(** X22: [mutate_ogene(0)] on an expression with more than one output
    reads the index of the gene before a draw has given it a value, which is
    undefined behaviour; on an expression with one output the argument is not
    read, and every [N] does what [mutate_ogene(1)] does. *)
Theorem mutate_ogene_zero (e : expression) (fuel : nat) (n : N) :
  (1 < m_m e -> mutate_ogene fuel 0 e = Undef) /\
  (m_m e <= 1 -> mutate_ogene fuel n e = mutate_ogene fuel 1 e).
Proof.
  rewrite !mutate_ogene_eq. split; intros Hm.
  - replace (1 <? m_m e) with true by (symmetry; now apply N.ltb_lt). reflexivity.
  - replace (1 <? m_m e) with false by (symmetry; now apply N.ltb_ge). reflexivity.
Qed.

(** ** The number of genes a mutator changes *)

Lemma filter_one_more (p q : N -> bool) (i : N) (l : list N) :
  NoDup l -> (forall k, In k l -> k <> i -> q k = p k) ->
  (length (filter q l) <= length (filter p l) + 1)%nat /\
  (~ In i l -> filter q l = filter p l).
Proof.
  induction 1 as [|k t Hk Hnd IH]; intros Hagree; [split; [simpl; lia | auto]|].
  destruct (IH ltac:(intros; apply Hagree; [now right | assumption])) as [IHle IHeq].
  split.
  - destruct (N.eq_dec k i) as [-> | Hne].
    + simpl. rewrite (IHeq Hk). destruct (q i), (p i); simpl; lia.
    + simpl. rewrite (Hagree k (or_introl eq_refl) Hne). destruct (p k); simpl; lia.
  - intros Hi. simpl.
    rewrite (Hagree k (or_introl eq_refl)) by (intros ->; apply Hi; now left).
    rewrite IHeq by (intros H; apply Hi; now right). reflexivity.
Qed.

Lemma differences_refl (x : list N) : differences x x = 0.
Proof.
  unfold differences. generalize (range 0 (size x)) as l.
  induction l as [|k l IH]; [reflexivity|]. simpl. now rewrite N.eqb_refl.
Qed.

Lemma differences_upd (x y : list N) (i v : N) :
  differences x (upd y i v) <= differences x y + 1.
Proof.
  unfold differences, size.
  destruct (filter_one_more (fun k => negb (x.[k] =? y.[k]))
              (fun k => negb (x.[k] =? (upd y i v).[k])) i
              (range 0 (N.of_nat (length x)))) as [Hle _].
  - apply strongly_sorted_NoDup, strongly_sorted_iota.
  - intros k _ Hne. now rewrite at_upd_other.
  - lia.
Qed.

Lemma random_draws_differences (fuel : nat) (lb ub x0 : list N) (k : nat) :
  forall x g flag x1 g1 f1,
    random_draws fuel k lb ub x g flag = Some (x1, g1, f1) ->
    differences x0 x1 <= differences x0 x + N.of_nat k.
Proof.
  induction k as [|k IH]; intros x g flag x1 g1 f1 H.
  - simpl in H. injection H as <- _ _. lia.
  - simpl in H. destruct (uniform_int 0 (to_unsigned (zsub (size lb) 1)) g) as [idx g0].
    destruct (lb.[idx] <? ub.[idx]).
    + destruct (fresh_draw fuel lb.[idx] ub.[idx] x.[idx] g0) as [[v g2]|]; [|discriminate].
      specialize (IH _ _ _ _ _ _ H). pose proof (differences_upd x0 x idx v). lia.
    + specialize (IH _ _ _ _ _ _ H). lia.
Qed.

Lemma loop_differences (c : M unit) (e : expression) (l : list N) :
  (forall e1, invariant e1 ->
     post (c e1) (fun _ e2 => invariant e2 /\ exists k v, m_x e2 = upd (m_x e1) k v)
          (fun _ => False) False) ->
  invariant e ->
  post (foldM (fun _ _ => c) l tt e)
       (fun _ e' => differences (m_x e) (m_x e') <= size l) (fun _ => False) False.
Proof.
  intros Hbody Hinv.
  eapply post_weaken;
    [apply (post_foldM_prefix _ _
              (fun pre _ e1 => invariant e1 /\ differences (m_x e) (m_x e1) <= size pre)
              (fun _ => False) False)
    | | auto | auto].
  - intros pre a [] e1 _ [Hinv1 Hd].
    eapply post_weaken; [apply (Hbody e1 Hinv1) | | auto | auto].
    intros _ e2 (Hinv2 & k & v & ->). split; [assumption|].
    rewrite size_snoc. pose proof (differences_upd (m_x e) (m_x e1) k v). lia.
  - split; [assumption|]. rewrite differences_refl. apply N.le_0_l.
  - intros _ e' [_ H]. exact H.
Qed.

(** X23: when [mutate_random(N)], [mutate_active(N)],
    [mutate_active_fgene(N)] or [mutate_active_cgene(N)] returns, the
    chromosome differs from the one before the call at [N] positions at most. *)
Theorem mutators_change_at_most (e : expression) (fuel : nat) (n : N) (e' : expression) :
  reachable e ->
  mutate_random fuel n e = Ret tt e' \/ mutate_active fuel n e = Ret tt e' \/
  mutate_active_fgene fuel n e = Ret tt e' \/ mutate_active_cgene fuel n e = Ret tt e' ->
  differences (get e) (get e') <= n.
Proof.
  intros Hreach H. pose proof (reachable_invariant e Hreach) as Hinv. unfold get.
  destruct H as [H | [H | [H | H]]].
  - rewrite mutate_random_eq in H.
    destruct (random_draws fuel (N.to_nat n) (m_lb e) (m_ub e) (m_x e) (m_e e) false)
      as [[[x1 g1] f1]|] eqn:Hd; [|discriminate].
    pose proof (random_draws_differences fuel _ _ (m_x e) _ _ _ _ _ _ _ Hd) as Hle.
    rewrite differences_refl in Hle.
    assert (Hx : m_x e' = x1).
    { destruct f1.
      - pose proof (update_frame (with_x (with_e e g1) x1) (fun _ => False) False) as Hu.
        rewrite H in Hu. destruct Hu as (nodes & genes & ->). reflexivity.
      - now injection H as <-. }
    rewrite Hx. lia.
  - assert (Hbody : forall e1 : expression, invariant e1 ->
              post ((hi <- read (fun e => to_unsigned (zsub (size (m_active_genes e)) 1)) ;;
                     idx <- draw 0 hi ;;
                     idx <- read (fun e => (m_active_genes e).[idx]) ;;
                     mutate fuel idx) e1)
                   (fun _ e2 => invariant e2 /\ exists k v, m_x e2 = upd (m_x e1) k v)
                   (fun _ => False) False).
    { intros e1 Hinv1.
      eapply post_weaken; [apply (mutate_active_body fuel e1 Hinv1) | | auto | auto].
      intros _ e2 (Hinv2 & _ & k & v & _ & Hx & _). eauto. }
    pose proof (loop_differences _ e (range 0 n) Hbody Hinv) as Hpost.
    unfold mutate_active in H. rewrite H in Hpost. simpl in Hpost.
    now rewrite size_range, N.sub_0_r in Hpost.
  - rewrite mutate_active_fgene_eq in H.
    destruct (m_m e <? size (m_active_genes e)).
    + assert (Hbody : forall e1 : expression, invariant e1 ->
                post ((node_id <- pick_function_node fuel 0 ;;
                       idx <- read (fun e => (m_gene_idx e).[node_id]) ;;
                       mutate fuel idx) e1)
                     (fun _ e2 => invariant e2 /\ exists k v, m_x e2 = upd (m_x e1) k v)
                     (fun _ => False) False).
      { intros e1 Hinv1.
        eapply post_weaken; [apply (mutate_active_fgene_body fuel e1 Hinv1) | | auto | auto].
        intros _ e2 (Hinv2 & _ & _ & _ & id & v & _ & _ & Hx). eauto. }
      pose proof (loop_differences _ e (range 0 n) Hbody Hinv) as Hpost.
      rewrite H in Hpost. simpl in Hpost. now rewrite size_range, N.sub_0_r in Hpost.
    + injection H as <-. rewrite differences_refl. apply N.le_0_l.
  - rewrite mutate_active_cgene_eq in H.
    destruct (m_m e <? size (m_active_genes e)).
    + assert (Hbody : forall e1 : expression, invariant e1 ->
                post ((idx <- pick_function_node fuel 0 ;;
                       hi <- read (fun e => _get_arity e idx) ;;
                       k <- draw 1 hi ;;
                       idx <- read (fun e => uadd (m_gene_idx e).[idx] k) ;;
                       mutate fuel idx) e1)
                     (fun _ e2 => invariant e2 /\ exists k v, m_x e2 = upd (m_x e1) k v)
                     (fun _ => False) False).
      { intros e1 Hinv1.
        eapply post_weaken; [apply (mutate_active_cgene_body fuel e1 Hinv1) | | auto | auto].
        intros _ e2 (Hinv2 & _ & id & t & v & _ & _ & _ & _ & Hx). eauto. }
      pose proof (loop_differences _ e (range 0 n) Hbody Hinv) as Hpost.
      rewrite H in Hpost. simpl in Hpost. now rewrite size_range, N.sub_0_r in Hpost.
    + injection H as <-. rewrite differences_refl. apply N.le_0_l.
Qed.

End Properties.

(** * The kernels *)

(** ** The protected division *)

Lemma is_zero_spec (z : float) :
  is_zero z = true -> exists b, Prim2SF z = S754_zero b.
Proof.
  assert (H0 : Prim2SF zero = S754_zero false) by reflexivity.
  unfold is_zero. rewrite eqb_spec, H0.
  destruct (Prim2SF z) as [b | b | | b m ex]; simpl; try discriminate; eauto.
  all: destruct b; simpl; discriminate.
Qed.

Lemma mul_zero_or_nan_l (x y : float) :
  zero_or_nan (Prim2SF x) = true -> zero_or_nan (Prim2SF (x * y)) = true.
Proof.
  rewrite mul_spec. unfold SF64mul.
  destruct (Prim2SF x) as [bx | bx | | bx mx ex]; try discriminate; intros _;
    destruct (Prim2SF y) as [b | b | | b m ex']; reflexivity.
Qed.

Lemma mul_zero_r (x z : float) :
  is_zero z = true -> zero_or_nan (Prim2SF (x * z)) = true.
Proof.
  intros Hz. destruct (is_zero_spec z Hz) as [b Hb].
  rewrite mul_spec, Hb. unfold SF64mul.
  destruct (Prim2SF x) as [bx | bx | | bx mx ex]; reflexivity.
Qed.

Lemma product_zero_or_nan (l : list float) :
  forall acc,
    zero_or_nan (Prim2SF acc) = true \/ (exists z, In z l /\ is_zero z = true) ->
    zero_or_nan (Prim2SF (fold_left PrimFloat.mul l acc)) = true.
Proof.
  induction l as [|y t IH]; intros acc [H | [z [Hz Hzero]]].
  - exact H.
  - destruct Hz.
  - simpl. apply IH. left. now apply mul_zero_or_nan_l.
  - simpl. apply IH. destruct Hz as [<- | Hz].
    + left. now apply mul_zero_r.
    + right. eauto.
Qed.

Lemma div_inf_or_nan (a t : float) :
  zero_or_nan (Prim2SF t) = true -> inf_or_nan (Prim2SF (a / t)) = true.
Proof.
  rewrite div_spec. unfold SF64div.
  destruct (Prim2SF t) as [bt | bt | | bt mt et]; try discriminate; intros _;
    destruct (Prim2SF a) as [b | b | | b m ex]; reflexivity.
Qed.

Lemma inf_or_nan_not_finite (x : float) :
  inf_or_nan (Prim2SF x) = true -> is_finite x = false.
Proof.
  assert (Hinf : Prim2SF infinity = S754_infinity false) by reflexivity.
  unfold is_finite, is_nan, is_infinity. rewrite !eqb_spec, abs_spec, Hinf.
  destruct (Prim2SF x) as [b | b | | b m ex]; try discriminate; intros _.
  - destruct b; reflexivity.
  - reflexivity.
Qed.

(** X24: on two values or more [my_pdiv] never returns an infinity or a
    value that is not a number; and it returns [1.] whenever one of the
    divisors, the entries after the first, is a zero. *)
Theorem my_pdiv_protected (inp : list float) :
  (2 <= length inp)%nat ->
  is_finite (my_pdiv inp) = true /\
  (forall z, In z (tl inp) -> is_zero z = true -> my_pdiv inp = 1%float).
Proof.
  intros Hlen. destruct inp as [|a [|d rest]]; simpl in Hlen; try lia.
  unfold my_pdiv. simpl hd. simpl nth. simpl skipn. simpl tl. split.
  - destruct (is_finite (a / fold_left PrimFloat.mul rest d)) eqn:Hfin;
      [exact Hfin | reflexivity].
  - intros z Hz Hzero.
    assert (Ht : zero_or_nan (Prim2SF (fold_left PrimFloat.mul rest d)) = true).
    { apply product_zero_or_nan. destruct Hz as [<- | Hz].
      - left. destruct (is_zero_spec d Hzero) as [b ->]. reflexivity.
      - right. eauto. }
    now rewrite (inf_or_nan_not_finite _ (div_inf_or_nan a _ Ht)).
Qed.

(** ** The rectifier *)

(** X25: on one value or more [my_relu] never returns a value below zero,
    and applying it to its own result changes nothing. *)
Theorem my_relu_not_negative (inp : list float) :
  inp <> [] ->
  (my_relu inp <? 0)%float = false /\ my_relu [my_relu inp] = my_relu inp.
Proof.
  intros _. unfold my_relu at 1 3 4.
  destruct (fold_left PrimFloat.add (tl inp) (hd 0%float inp) <? 0)%float eqn:Hneg.
  - split; reflexivity.
  - split; [exact Hneg|]. unfold my_relu. simpl. now rewrite Hneg.
Qed.

(** ** The symbolic kernels *)

Lemma string_app_assoc (a b c : string) : ((a ++ b) ++ c = a ++ (b ++ c))%string.
Proof. induction a as [|ch a IH]; simpl; [reflexivity | now rewrite IH]. Qed.

Lemma join_concat (sep : string) (t : list string) :
  forall h, fold_left (fun acc s => (acc ++ sep ++ s)%string) t h = String.concat sep (h :: t).
Proof.
  induction t as [|s t IH]; intros h; [reflexivity|].
  simpl fold_left. rewrite IH.
  change (String.concat sep (h :: s :: t)) with (h ++ sep ++ String.concat sep (s :: t))%string.
  destruct t as [|u v].
  - reflexivity.
  - change (String.concat sep ((h ++ sep ++ s)%string :: u :: v))
      with ((h ++ sep ++ s) ++ sep ++ String.concat sep (u :: v))%string.
    change (String.concat sep (s :: u :: v)) with (s ++ sep ++ String.concat sep (u :: v))%string.
    now rewrite !string_app_assoc.
Qed.

(** X26: the symbolic kernels of the four operations write their arguments
    in the order given, joined by the sign of the operation, between
    parentheses; the one of [my_relu] writes the sum between [ReLu(] and [)]. *)
Theorem print_kernels_join (inp : list string) :
  inp <> [] ->
  print_my_sum inp = ("(" ++ String.concat "+" inp ++ ")")%string /\
  print_my_diff inp = ("(" ++ String.concat "-" inp ++ ")")%string /\
  print_my_mul inp = ("(" ++ String.concat "*" inp ++ ")")%string /\
  print_my_div inp = ("(" ++ String.concat "/" inp ++ ")")%string /\
  print_my_relu inp = ("ReLu(" ++ String.concat "+" inp ++ ")")%string.
Proof.
  intros Hne. destruct inp as [|h t]; [contradiction|].
  unfold print_my_sum, print_my_diff, print_my_mul, print_my_div, print_my_relu, parens.
  simpl hd. simpl tl. rewrite !join_concat. repeat split.
Qed.

(** ** The minimal expression of the specification *)

Section Minimal.

Context {G : Type} {RNG : UniformEngine G}.

(** A state of the given parameters has the tables of its shape. *)
Lemma constructed_tables (n m r c l : N) (arity : list N) (f : list (kernel float))
  (s : N) (e : expression (T:=float) (G:=G)) :
  fits (blank n m r c l arity f s) = true ->
  construct n m r c l arity f s = Ret tt e ->
  m_n e = n /\ m_m e = m /\ m_r e = r /\ m_c e = c /\ m_l e = l /\
  m_arity e = arity /\ m_f e = f /\
  m_lb e = m_lb (init_bounds_and_chromosome (blank n m r c l arity f s)) /\
  m_ub e = m_ub (init_bounds_and_chromosome (blank n m r c l arity f s)) /\
  m_gene_idx e = m_gene_idx (init_bounds_and_chromosome (blank n m r c l arity f s)).
Proof.
  intros Hfits He.
  destruct (post_ret _ _ _ _ _ _ (construct_spec n m r c l arity f s Hfits) He)
    as ([[(_ & _ & Hlb & Hub & Hgi) _] _] & Hn & Hm & Hr & Hc & Hl & Ha & Hf).
  destruct e. simpl in *. subst. repeat split; assumption.
Qed.

(** C1, as amended.  With [n=2, m=1, r=1, c=1, arity=[2]] and the single
    kernel [sum]: with [L=1] the output gene has the bounds [[2, 2]], so the
    chromosome [[0, 0, 1, 0]] is not valid and [set] throws and leaves the
    object as it was; with [L=2] the output gene has the bounds [[0, 2]], the
    chromosome is valid, [set] returns, and then [m_active_nodes = [0]],
    [m_active_genes = [3]] and the value at the point [[5.0, 9.0]] is [[5.0]]. *)
Theorem minimal_active_set (seed : N) :
  (exists e0 : expression (T:=float) (G:=G),
     construct 2 1 1 1 1 [2] [kernel_sum] seed = Ret tt e0 /\
     m_lb e0 = [0; 0; 0; 2] /\ m_ub e0 = [0; 1; 1; 2] /\
     is_valid e0 [0; 0; 1; 0] = false /\
     set [0; 0; 1; 0] e0 = Throw e0) /\
  (exists e0 e1 : expression (T:=float) (G:=G),
     construct 2 1 1 1 2 [2] [kernel_sum] seed = Ret tt e0 /\
     m_lb e0 = [0; 0; 0; 0] /\ m_ub e0 = [0; 1; 1; 2] /\
     is_valid e0 [0; 0; 1; 0] = true /\
     set [0; 0; 1; 0] e0 = Ret tt e1 /\
     m_x e1 = [0; 0; 1; 0] /\
     m_active_nodes e1 = [0] /\ m_active_genes e1 = [3] /\
     call 0%float e1 [5%float; 9%float] = Some [5%float]).
Proof.
  split.
  - destruct (construct_returns (T:=float) 2 1 1 1 1 [2] [kernel_sum] seed eq_refl eq_refl)
      as [e0 [He0 _]].
    exists e0. split; [exact He0|].
    destruct (constructed_tables 2 1 1 1 1 [2] [kernel_sum] seed e0 eq_refl He0)
      as (Hn & Hm & Hr & Hc & Hl & Ha & Hf & Hlb & Hub & Hgi).
    clear He0. destruct e0. simpl in Hn, Hm, Hr, Hc, Hl, Ha, Hf, Hlb, Hub, Hgi. subst.
    repeat split; vm_compute; reflexivity.
  - destruct (construct_returns (T:=float) 2 1 1 1 2 [2] [kernel_sum] seed eq_refl eq_refl)
      as [e0 [He0 _]].
    exists e0.
    exists (with_active (with_x e0 [0; 0; 1; 0]) [0] [3]).
    split; [exact He0|].
    destruct (constructed_tables 2 1 1 1 2 [2] [kernel_sum] seed e0 eq_refl He0)
      as (Hn & Hm & Hr & Hc & Hl & Ha & Hf & Hlb & Hub & Hgi).
    clear He0. destruct e0. simpl in Hn, Hm, Hr, Hc, Hl, Ha, Hf, Hlb, Hub, Hgi. subst.
    repeat split; vm_compute; reflexivity.
Qed.

End Minimal.

Lemma grid_reachable : reachable grid.
Proof.
  apply (reachable_construct_uniform 2 4 2 3 4 2
           [kernel_sum; kernel_diff; kernel_mul; kernel_div] 123 grid);
    vm_compute; reflexivity.
Defined.

Lemma single_reachable : reachable single.
Proof.
  apply (reachable_construct 2 1 1 1 2 [2] [kernel_sum; kernel_diff] 123 single);
    vm_compute; reflexivity.
Defined.

Lemma single_input_reachable : reachable single_input.
Proof.
  apply (reachable_return (call_set [0; 0; 1; 0]) single); [exact single_reachable|].
  vm_compute. reflexivity.
Defined.

Lemma single_other_reachable : reachable single_other.
Proof.
  apply (reachable_return (call_set [1; 1; 0; 0]) single); [exact single_reachable|].
  vm_compute. reflexivity.
Defined.

Lemma grid_invariant : invariant grid.
Proof. exact (reachable_invariant grid grid_reachable). Defined.

Lemma single_input_invariant : invariant single_input.
Proof. exact (reachable_invariant single_input single_input_reachable). Defined.

(** C1, as stated, fails: with [L=1] the constructor returns a state in
    which [[0, 0, 1, 0]] is not valid, and [set] does not accept it. *)
Lemma minimal_chromosome_rejected :
  exists e0 : expression (T:=float) (G:=N),
    construct 2 1 1 1 1 [2] [kernel_sum] 123 = Ret tt e0 /\
    is_valid e0 [0; 0; 1; 0] <> true /\
    (forall e1, set [0; 0; 1; 0] e0 <> Ret tt e1).
Proof.
  exists (state_of (construct 2 1 1 1 1 [2] [kernel_sum] 123)).
  split; [vm_compute; reflexivity|]. split.
  - vm_compute. discriminate.
  - intros e1. vm_compute. discriminate.
Qed.

(** C2, the code at an input where it leaves a partial state.  On
    [single_input], of chromosome [[0, 0, 1, 0]] (size 4) and active nodes
    [[0]], [mutate({3, 4})] throws after it has written gene 3: the chromosome is
    [[0, 0, 1, 1]], the active sets are still the ones of the old chromosome, and
    the value at [[3.0, 4.0]] is [[0.0]]; a refresh gives the active nodes [[1]]
    and the value [[4.0]]. *)
Theorem mutate_idxs_partial :
  m_x single_input = [0; 0; 1; 0] /\ m_active_nodes single_input = [0] /\
  exists e' e'',
    mutate_idxs 5 [3; 4] single_input = Throw e' /\
    m_x e' = [0; 0; 1; 1] /\
    m_active_nodes e' = [0] /\ m_active_genes e' = [3] /\
    call 0%float e' [3%float; 4%float] = Some [0%float] /\
    update_data_structures e' = Ret tt e'' /\
    m_active_nodes e'' = [1] /\
    call 0%float e'' [3%float; 4%float] = Some [4%float].
Proof.
  split; [vm_compute; reflexivity|]. split; [vm_compute; reflexivity|].
  exists (state_of (mutate_idxs 5 [3; 4] single_input)).
  exists (state_of (update_data_structures (state_of (mutate_idxs 5 [3; 4] single_input)))).
  repeat split; vm_compute; reflexivity.
Qed.

(** ** The state a throwing [mutate(std::vector)] leaves *)

(** [stale] is [single_input] after [mutate({3, 4})] has thrown; its only
    output gene holds the input node 1, which is the one node that feeds the
    output. *)
Lemma stale_thrown : mutate_idxs 5 [3; 4] single_input = Throw stale.
Proof. vm_compute. reflexivity. Qed.

Lemma stale_refreshed : set (get stale) stale = Ret tt refreshed.
Proof. vm_compute. reflexivity. Qed.

Lemma stale_feeds_output (id : N) : feeds_output stale id <-> id = 1.
Proof.
  assert (Hn : m_n stale = 2) by (vm_compute; reflexivity).
  assert (Hm : m_m stale = 1) by (vm_compute; reflexivity).
  assert (Hout : (m_x stale).[size (m_x stale) - m_m stale + 0] = 1)
    by (vm_compute; reflexivity).
  split.
  - induction 1 as [i Hi | p t _ IH Hlo _ _].
    + rewrite Hm in Hi. assert (i = 0) by lia. subst i. exact Hout.
    + rewrite Hn, IH in Hlo. lia.
  - intros ->. rewrite <- Hout. apply feeds_selected. rewrite Hm. lia.
Qed.

(** C4, the code at an input where a mutator leaves [active_nodes] out of
    date.  [mutate({3, 4})] on [single_input] throws after it has written gene
    3 and before the refresh: the chromosome [[0, 0, 1, 1]] is within the
    bounds, the node that feeds the output is the input node 1 alone, and
    [active_nodes] is still [[0]].  The mutators [mutate_random(0)],
    [mutate_active(0)] and [mutate_active_fgene(1)] return from that state
    and leave it as it is. *)
Theorem stale_active_nodes :
  reachable single_input /\
  mutate_idxs 5 [3; 4] single_input = Throw stale /\
  get stale = [0; 0; 1; 1] /\ is_valid stale (get stale) = true /\
  get_active_nodes stale = [0] /\
  (forall id, feeds_output stale id <-> id = 1) /\
  is_active stale 1 = false /\
  mutate_random 5 0 stale = Ret tt stale /\
  mutate_active 5 0 stale = Ret tt stale /\
  mutate_active_fgene 5 1 stale = Ret tt stale.
Proof.
  split; [exact single_input_reachable|]. split; [exact stale_thrown|].
  split; [vm_compute; reflexivity|]. split; [vm_compute; reflexivity|].
  split; [vm_compute; reflexivity|]. split; [exact stale_feeds_output|].
  repeat split; vm_compute; reflexivity.
Qed.

(** C5, the code at an input where the value depends on more than the
    chromosome and the point.  [stale] and [refreshed] are two states of one
    shape with one chromosome, [[0, 0, 1, 1]], the second reached from the first
    by [set(get())]; at the point [[3.0, 4.0]] [operator()] returns [[0.0]] in the
    first and [[4.0]] in the second. *)
Theorem stale_evaluation :
  mutate_idxs 5 [3; 4] single_input = Throw stale /\
  set (get stale) stale = Ret tt refreshed /\
  same_shape stale refreshed /\ get refreshed = get stale /\
  (forall k, In k (get_active_genes stale) -> (get stale).[k] = (get refreshed).[k]) /\
  call 0%float stale [3; 4]%float = Some [0%float] /\
  call 0%float refreshed [3; 4]%float = Some [4%float].
Proof.
  assert (Hget : get refreshed = get stale) by (vm_compute; reflexivity).
  split; [exact stale_thrown|]. split; [exact stale_refreshed|].
  split; [repeat split; vm_compute; reflexivity|]. split; [exact Hget|].
  split; [intros k _; now rewrite Hget|].
  split; vm_compute; reflexivity.
Qed.

(** C7, the code at an input where [set(get())] changes the object.  In
    [stale] the call returns, and [active_nodes], [[0]] before it, is [[1]]
    after it. *)
Theorem stale_set_get :
  mutate_idxs 5 [3; 4] single_input = Throw stale /\
  set (get stale) stale = Ret tt refreshed /\
  get refreshed = get stale /\
  get_active_nodes stale = [0] /\ get_active_nodes refreshed = [1] /\
  set (get stale) stale <> Ret tt stale.
Proof.
  split; [exact stale_thrown|]. split; [exact stale_refreshed|].
  split; [vm_compute; reflexivity|]. split; [vm_compute; reflexivity|].
  split; [vm_compute; reflexivity|].
  rewrite stale_refreshed. intros H.
  apply (f_equal (fun o => m_active_nodes (state_of o))) in H.
  vm_compute in H. discriminate.
Qed.

(** ** The theorems at concrete states *)

Lemma mutate_one_gene_witness :
  reachable grid /\
  exists e', mutate 5 1 grid = Ret tt e' /\ (m_x e').[1] <> (m_x grid).[1].
Proof.
  split; [exact grid_reachable|].
  destruct (mutate_one_gene grid 5 1 grid_reachable) as (_ & _ & H & _).
  specialize (H ltac:(vm_compute; reflexivity) ltac:(vm_compute; reflexivity)).
  assert (Hd : fresh_draw 5 (m_lb grid).[1] (m_ub grid).[1] (m_x grid).[1] (m_e grid)
               = Some (1, 146)) by (vm_compute; reflexivity).
  rewrite Hd in H. destruct H as (e' & Hrun & _ & _ & Hv & Hne & _).
  exists e'. split; [exact Hrun|]. now rewrite Hv.
Defined.

Lemma reachable_valid_and_active_nodes_witness :
  reachable grid /\
  StronglySorted N.lt (m_active_nodes grid) /\
  (forall id, In id (m_active_nodes grid) <-> feeds_output grid id).
Proof.
  split; [exact grid_reachable|].
  destruct (reachable_valid_and_active_nodes grid grid_reachable) as (_ & _ & Hs & _ & Hf).
  split; assumption.
Defined.

Lemma evaluation_reads_active_genes_witness :
  reachable single_input /\ reachable single_other /\
  same_shape single_input single_other /\
  m_x single_input <> m_x single_other /\
  forall point, call 0%float single_input point = call 0%float single_other point.
Proof.
  assert (Hshape : same_shape single_input single_other)
    by (unfold same_shape; vm_compute; repeat split).
  assert (Hgenes : m_active_genes single_input = [3]) by (vm_compute; reflexivity).
  split; [exact single_input_reachable|]. split; [exact single_other_reachable|].
  split; [exact Hshape|]. split; [vm_compute; discriminate|].
  apply (evaluation_reads_active_genes 0%float single_input single_other).
  - exact single_input_reachable.
  - exact single_other_reachable.
  - exact Hshape.
  - intros k Hk. rewrite Hgenes in Hk. destruct Hk as [<- | []].
    vm_compute. reflexivity.
Defined.


Lemma set_get_noop_witness : reachable grid /\ set (get grid) grid = Ret tt grid.
Proof.
  split; [exact grid_reachable|]. exact (set_get_noop grid grid_reachable).
Defined.

Lemma set_f_gene_frame_witness :
  reachable grid /\
  exists e', set_f_gene 4 2 grid = Ret tt e' /\
             m_active_nodes e' = m_active_nodes grid /\
             m_active_genes e' = m_active_genes grid.
Proof.
  split; [exact grid_reachable|].
  destruct (set_f_gene_frame grid 4 2 grid_reachable) as (e' & Hrun & _ & _ & _ & _ & Hn & Hg).
  - vm_compute. discriminate.
  - vm_compute. discriminate.
  - vm_compute. discriminate.
  - exists e'. repeat split; assumption.
Defined.

Lemma back_wave_terminates_witness :
  shape_ok grid /\ is_valid grid [0; 0; 1; 1; 1; 0; 2; 2; 3; 3; 3; 2; 0; 4; 5; 1; 2; 3; 7; 6; 2; 0] = true /\
  exists active,
    back_wave (with_x grid [0; 0; 1; 1; 1; 0; 2; 2; 3; 3; 3; 2; 0; 4; 5; 1; 2; 3; 7; 6; 2; 0])
              4 [7; 6; 2; 0] [] = Some active.
Proof.
  assert (Hshape : shape_ok grid) by (unfold shape_ok; vm_compute; repeat split).
  assert (Hvalid : is_valid grid [0; 0; 1; 1; 1; 0; 2; 2; 3; 3; 3; 2; 0; 4; 5; 1; 2; 3; 7; 6; 2; 0] = true)
    by (vm_compute; reflexivity).
  split; [exact Hshape|]. split; [exact Hvalid|].
  destruct (back_wave_terminates grid _ Hshape Hvalid) as [_ [active Hactive]].
  exists active. apply (Hactive 4%nat). vm_compute. lia.
Defined.

Lemma mutate_ogene_one_output_gene_witness :
  reachable grid /\ 1 <= 3 /\
  exists e' k,
    mutate_ogene 5 3 grid = Ret tt e' /\ 18 <= k /\ k < 22 /\
    forall j, j <> k -> (m_x e').[j] = (m_x grid).[j].
Proof.
  split; [exact grid_reachable|]. split; [lia|].
  destruct (mutate_ogene_one_output_gene grid 5 3 grid_reachable ltac:(lia)) as (_ & _ & H).
  assert (Hrun : mutate_ogene 5 3 grid = Ret tt (state_of (mutate_ogene 5 3 grid)))
    by (vm_compute; reflexivity).
  destruct (H _ Hrun) as (k & Hlo & Hhi & _ & Hj).
  exists (state_of (mutate_ogene 5 3 grid)), k.
  split; [exact Hrun|]. split; [exact Hlo|]. split; [exact Hhi|]. exact Hj.
Defined.

(** ** More theorems at concrete states *)

Lemma construct_validates_witness :
  fits (blank (T:=float) (G:=N) 2 4 2 3 4 [2; 2; 2]
          [kernel_sum; kernel_diff; kernel_mul; kernel_div] 123) = true /\
  (exists e : expression (T:=float) (G:=N),
     construct 2 4 2 3 4 [2; 2; 2] [kernel_sum; kernel_diff; kernel_mul; kernel_div] 123
     = Ret tt e) /\
  (exists e : expression (T:=float) (G:=N),
     construct 2 4 2 3 4 [2; 0; 2] [kernel_sum; kernel_diff; kernel_mul; kernel_div] 123
     = Throw e).
Proof.
  split; [vm_compute; reflexivity|]. split.
  - apply (construct_validates (T:=float) (G:=N) 2 4 2 3 4 [2; 2; 2]
             [kernel_sum; kernel_diff; kernel_mul; kernel_div] 123);
      [vm_compute; reflexivity|].
    unfold rejected. intros H.
    repeat (destruct H as [H | H]; [try discriminate|]); try discriminate.
    + apply H. reflexivity.
    + simpl in H. repeat (destruct H as [H | H]; [discriminate|]). exact H.
  - apply (construct_validates (T:=float) (G:=N) 2 4 2 3 4 [2; 0; 2]
             [kernel_sum; kernel_diff; kernel_mul; kernel_div] 123);
      [vm_compute; reflexivity|].
    unfold rejected. do 6 right. left. simpl. auto.
Defined.

Lemma chromosome_size_formula_witness : reachable grid /\ size (get grid) = 22.
Proof.
  split; [exact grid_reachable|].
  destruct (chromosome_size_formula grid grid_reachable) as [H _].
  rewrite H. vm_compute. reflexivity.
Defined.

Lemma construct_uniform_layout_witness :
  construct_uniform 2 4 2 3 4 2 [kernel_sum; kernel_diff; kernel_mul; kernel_div] 123
  = Ret tt grid /\
  size (get grid) = 2 * 3 * (2 + 1) + 4 /\ (get_gene_idx grid).[5] = (5 - 2) * (2 + 1).
Proof.
  assert (Hrun : construct_uniform 2 4 2 3 4 2
                   [kernel_sum; kernel_diff; kernel_mul; kernel_div] 123 = Ret tt grid)
    by (vm_compute; reflexivity).
  split; [exact Hrun|].
  destruct (construct_uniform_layout 2 4 2 3 4 2
              [kernel_sum; kernel_diff; kernel_mul; kernel_div] 123 grid
              ltac:(vm_compute; reflexivity) Hrun) as [Hsize Hnodes].
  split; [exact Hsize|]. apply (Hnodes 5); lia.
Defined.

Lemma node_gene_bounds_witness :
  reachable grid /\
  (get_ub grid).[(get_gene_idx grid).[4]] = 3 /\
  (get_ub grid).[(get_gene_idx grid).[4] + 1] = 3 /\
  (get_lb grid).[(get_gene_idx grid).[4] + 1] = 0.
Proof.
  split; [exact grid_reachable|].
  destruct (node_gene_bounds grid 4 grid_reachable
              ltac:(vm_compute; discriminate) ltac:(vm_compute; reflexivity))
    as (_ & Hf & Hc).
  split; [rewrite Hf; vm_compute; reflexivity|].
  destruct (Hc 1 ltac:(lia) ltac:(vm_compute; discriminate)) as [Hub Hlb].
  split; [rewrite Hub | rewrite Hlb]; vm_compute; reflexivity.
Defined.

Lemma output_gene_bounds_witness :
  reachable grid /\
  (get_ub grid).[size (get grid) - m_m grid + 1] = 7 /\
  (get_lb grid).[size (get grid) - m_m grid + 1] = 0.
Proof.
  split; [exact grid_reachable|].
  destruct (output_gene_bounds grid 1 grid_reachable ltac:(vm_compute; reflexivity))
    as [Hub Hlb].
  split; [rewrite Hub | rewrite Hlb]; vm_compute; reflexivity.
Defined.

Lemma gene_idx_tiles_witness :
  reachable grid /\ (get_gene_idx grid).[m_n grid] = 0 /\
  (get_gene_idx grid).[3 + 1] = (get_gene_idx grid).[3] + (m_arity grid).[(3 - m_n grid) / m_r grid] + 1.
Proof.
  split; [exact grid_reachable|].
  destruct (gene_idx_tiles grid grid_reachable) as (_ & Hfirst & Hnext & _).
  split; [exact Hfirst|].
  apply (Hnext 3); [vm_compute; discriminate | vm_compute; reflexivity].
Defined.

Lemma get_arity_checked_witness :
  reachable grid /\ get_arity grid 1 = None /\ get_arity grid 8 = None /\
  forall a, get_arity grid 5 = Some a -> 1 <= a.
Proof.
  split; [exact grid_reachable|].
  split; [apply (get_arity_checked grid 1 grid_reachable); left; vm_compute; reflexivity|].
  split; [apply (get_arity_checked grid 8 grid_reachable); right; vm_compute; discriminate|].
  intros a Ha. now apply (get_arity_checked grid 5 grid_reachable).
Defined.

Lemma is_active_feeds_output_witness :
  invariant single_input /\ feeds_output single_input 0 /\ ~ feeds_output single_input 2.
Proof.
  split; [exact single_input_invariant|]. split.
  - apply (is_active_feeds_output single_input 0 single_input_invariant).
    vm_compute. reflexivity.
  - intros H. apply (is_active_feeds_output single_input 2 single_input_invariant) in H.
    vm_compute in H. discriminate.
Defined.

Lemma call_computes_graph_witness :
  invariant grid /\
  call 0%float grid [1%float; 2%float]
  = Some (map (fun i => node_value 0%float k_apply grid [1%float; 2%float]
                          (N.to_nat (m_c grid)) (get grid).[size (get grid) - m_m grid + i])
              (range 0 (m_m grid))).
Proof.
  split; [exact grid_invariant|].
  destruct (call_computes_graph 0%float grid grid_invariant) as [Hnum _].
  apply (Hnum [1%float; 2%float]). vm_compute. reflexivity.
Defined.

Lemma active_genes_ascending_witness :
  reachable grid /\ NoDup (get_active_genes grid).
Proof.
  split; [exact grid_reachable|].
  apply (active_genes_ascending grid grid_reachable).
Defined.

Lemma update_data_structures_idempotent_witness :
  shape_ok grid /\ is_valid grid (get grid) = true /\
  exists nodes genes,
    update_data_structures grid = Ret tt (with_active grid nodes genes) /\
    update_data_structures (with_active grid [] []) = Ret tt (with_active grid nodes genes).
Proof.
  assert (Hshape : shape_ok grid) by (unfold shape_ok; vm_compute; repeat split).
  assert (Hvalid : is_valid grid (get grid) = true) by (vm_compute; reflexivity).
  split; [exact Hshape|]. split; [exact Hvalid|].
  destruct (update_data_structures_idempotent grid Hshape Hvalid)
    as (nodes & genes & Hupd & _ & Hany).
  exists nodes, genes. split; [exact Hupd | apply Hany].
Defined.

Lemma set_validates_witness :
  reachable single /\ set [0; 0; 1; 3] single = Throw single /\
  exists e', set [0; 0; 1; 0] single = Ret tt e' /\ get e' = [0; 0; 1; 0].
Proof.
  split; [exact single_reachable|].
  destruct (set_validates single [0; 0; 1; 3] single_reachable) as (Hthrow & _ & _).
  destruct (set_validates single [0; 0; 1; 0] single_reachable) as (_ & _ & Hret).
  split.
  - apply Hthrow. intros [_ Hb]. specialize (Hb 3 ltac:(vm_compute; reflexivity)).
    vm_compute in Hb. destruct Hb as [_ Hb]. apply Hb. reflexivity.
  - destruct Hret as (e' & He' & Hx & _).
    + split; [vm_compute; reflexivity|]. intros k Hk.
      assert (Hcases : k = 0 \/ k = 1 \/ k = 2 \/ k = 3)
        by (change (size [0; 0; 1; 0]) with 4 in Hk; lia).
      destruct Hcases as [-> | [-> | [-> | ->]]]; vm_compute; split; discriminate.
    + exists e'. split; assumption.
Defined.

Lemma set_overrides_witness :
  reachable single /\
  bind (set [1; 1; 0; 0]) (fun _ => set [0; 0; 1; 0]) single = set [0; 0; 1; 0] single.
Proof.
  split; [exact single_reachable|].
  apply (set_overrides single [1; 1; 0; 0] [0; 0; 1; 0] single_reachable);
    vm_compute; reflexivity.
Defined.

Lemma chromosome_feeds_forward_witness :
  reachable grid /\
  (get grid).[(get_gene_idx grid).[6] + 2] < 6 /\
  (get grid).[(get_gene_idx grid).[6]] < 4.
Proof.
  split; [exact grid_reachable|].
  destruct (chromosome_feeds_forward grid grid_reachable) as (Hconn & Hfun & _).
  split.
  - apply (Hconn 6 2); vm_compute; (reflexivity || discriminate).
  - apply (Hfun 6); vm_compute; (reflexivity || discriminate).
Defined.


Lemma mutate_active_fgene_frame_witness :
  invariant grid /\
  exists e',
    mutate_active_fgene 5 3 grid = Ret tt e' /\
    get_active_nodes e' = get_active_nodes grid /\
    get_active_genes e' = get_active_genes grid.
Proof.
  split; [exact grid_invariant|].
  destruct (mutate_active_fgene_frame grid 5 3 grid_invariant) as (_ & _ & H).
  assert (Hrun : mutate_active_fgene 5 3 grid
                 = Ret tt (state_of (mutate_active_fgene 5 3 grid)))
    by (vm_compute; reflexivity).
  destruct (H _ Hrun) as (_ & _ & Hn & Hg & _).
  exists (state_of (mutate_active_fgene 5 3 grid)).
  split; [exact Hrun|]. split; [exact Hn | exact Hg].
Defined.

Lemma mutate_active_cgene_frame_witness :
  reachable grid /\
  exists e',
    mutate_active_cgene 5 3 grid = Ret tt e' /\
    forall i, i < m_m grid ->
      (get e').[size (get grid) - m_m grid + i] = (get grid).[size (get grid) - m_m grid + i].
Proof.
  split; [exact grid_reachable|].
  destruct (mutate_active_cgene_frame grid 5 3 grid_reachable) as (_ & _ & H).
  assert (Hrun : mutate_active_cgene 5 3 grid
                 = Ret tt (state_of (mutate_active_cgene 5 3 grid)))
    by (vm_compute; reflexivity).
  destruct (H _ Hrun) as (_ & _ & _ & _ & Hout).
  exists (state_of (mutate_active_cgene 5 3 grid)).
  split; [exact Hrun | exact Hout].
Defined.

Lemma mutate_random_composes_witness :
  reachable grid /\
  mutate_random 5 (2 + 3) grid
  = bind (mutate_random 5 2) (fun _ => mutate_random 5 3) grid.
Proof.
  split; [exact grid_reachable|].
  apply (mutate_random_composes grid 5 2 3 grid_reachable).
Defined.

Lemma mutate_active_composes_witness :
  invariant grid /\
  mutate_active_cgene 5 (2 + 3) grid
  = bind (mutate_active_cgene 5 2) (fun _ => mutate_active_cgene 5 3) grid.
Proof.
  split; [exact grid_invariant|].
  apply (mutate_active_composes grid 5 2 3 grid_invariant).
Defined.

Lemma mutators_change_at_most_witness :
  reachable grid /\
  mutate_random 5 3 grid = Ret tt (state_of (mutate_random 5 3 grid)) /\
  differences (get grid) (get (state_of (mutate_random 5 3 grid))) <= 3.
Proof.
  assert (Hrun : mutate_random 5 3 grid = Ret tt (state_of (mutate_random 5 3 grid)))
    by (vm_compute; reflexivity).
  split; [exact grid_reachable|]. split; [exact Hrun|].
  apply (mutators_change_at_most grid 5 3 _ grid_reachable). left. exact Hrun.
Defined.

Lemma my_pdiv_protected_witness :
  (2 <= length [3%float; 0%float])%nat /\ my_pdiv [3%float; 0%float] = 1%float.
Proof.
  split; [simpl; lia|].
  destruct (my_pdiv_protected [3%float; 0%float] ltac:(simpl; lia)) as [_ H].
  apply (H 0%float); [now left | reflexivity].
Defined.

Lemma my_relu_not_negative_witness :
  [1%float; (-3)%float] <> [] /\ (my_relu [1%float; (-3)%float] <? 0)%float = false.
Proof.
  split; [discriminate|].
  apply (my_relu_not_negative [1%float; (-3)%float]). discriminate.
Defined.

Lemma print_kernels_join_witness :
  ["x"; "y"; "z"]%string <> [] /\ print_my_diff ["x"; "y"; "z"]%string = "(x-y-z)"%string.
Proof.
  split; [discriminate|].
  destruct (print_kernels_join ["x"; "y"; "z"]%string ltac:(discriminate))
    as (_ & Hdiff & _).
  rewrite Hdiff. reflexivity.
Defined.

Lemma set_f_gene_validates_witness :
  reachable grid /\ set_f_gene 4 4 grid = Throw grid /\ set_f_gene 1 0 grid = Throw grid.
Proof.
  split; [exact grid_reachable|]. split.
  - apply (set_f_gene_validates grid 4 4 grid_reachable). left. vm_compute. discriminate.
  - apply (set_f_gene_validates grid 1 0 grid_reachable). right. left.
    vm_compute. reflexivity.
Defined.

Lemma mutate_function_gene_keeps_active_witness :
  invariant grid /\
  exists e', mutate 5 (get_gene_idx grid).[3] grid = Ret tt e' /\
             get_active_nodes e' = get_active_nodes grid /\
             get_active_genes e' = get_active_genes grid.
Proof.
  split; [exact grid_invariant|].
  assert (Hrun : mutate 5 (get_gene_idx grid).[3] grid
                 = Ret tt (state_of (mutate 5 (get_gene_idx grid).[3] grid)))
    by (vm_compute; reflexivity).
  destruct (mutate_function_gene_keeps_active grid 5 3 _ grid_invariant
              ltac:(vm_compute; discriminate) ltac:(vm_compute; reflexivity) Hrun)
    as (Hn & Hg & _).
  exists (state_of (mutate 5 (get_gene_idx grid).[3] grid)).
  split; [exact Hrun|]. split; [exact Hn | exact Hg].
Defined.

Lemma mutate_inactive_gene_neutral_witness :
  invariant single_input /\ ~ In 0 (get_active_genes single_input) /\
  exists e', mutate 5 0 single_input = Ret tt e' /\
             (get e').[0] <> (get single_input).[0] /\
             call 0%float e' [5; 9]%float = call 0%float single_input [5; 9]%float.
Proof.
  assert (Hk : ~ In 0 (get_active_genes single_input))
    by (vm_compute; intros [H | []]; discriminate H).
  split; [exact single_input_invariant|]. split; [exact Hk|].
  assert (Hrun : mutate 5 0 single_input = Ret tt (state_of (mutate 5 0 single_input)))
    by (vm_compute; reflexivity).
  destruct (mutate_inactive_gene_neutral 0%float single_input 5 0 _
              single_input_invariant Hk Hrun) as (_ & _ & Hcall & _).
  exists (state_of (mutate 5 0 single_input)).
  split; [exact Hrun|]. split; [vm_compute; discriminate | exact (Hcall _)].
Defined.

Lemma mutate_idxs_frame_witness :
  exists e', mutate_idxs 5 [3; 22] grid = Throw e' /\
             exists k, In k [3; 22] /\ size (get grid) <= k.
Proof.
  assert (Hrun : mutate_idxs 5 [3; 22] grid
                 = Throw (state_of (mutate_idxs 5 [3; 22] grid)))
    by (vm_compute; reflexivity).
  exists (state_of (mutate_idxs 5 [3; 22] grid)). split; [exact Hrun|].
  destruct (mutate_idxs_frame grid 5 [3; 22]) as (H & _). exact (H _ Hrun).
Defined.

Lemma mutate_ogene_zero_witness : 1 < m_m grid /\ mutate_ogene 5 0 grid = Undef.
Proof.
  assert (Hm : 1 < m_m grid) by (vm_compute; reflexivity).
  split; [exact Hm|].
  destruct (mutate_ogene_zero grid 5 0) as (H & _). exact (H Hm).
Defined.
